(** * mertex.md: the math protection engine and the streaming tracker

    A shallow embedding of [src/core/math-protector.js] (the version that
    imports the shared currency detector), [src/utils/currency-detector.js],
    [src/utils/hash.js], [src/handlers/streaming-math-renderer.js] and of
    [StreamRenderer.appendContent] in [src/mertex.js].

    JavaScript strings are sequences of UTF-16 code units; a code unit is
    modelled as a number of type [N] and a string as a [list N].  Indices
    and lengths are natural numbers; the JavaScript result [-1] of
    [indexOf] is [None]. *)

From Stdlib Require Import Ascii String DecimalString DecimalNat DecimalFacts.
From Stdlib Require Import Bool Arith NArith ZArith Lia.
From Stdlib Require Import List Finite.
Import ListNotations.

Set Implicit Arguments.

(** ** Code units and string literals *)

Definition char := N.
Definition str := list char.

Definition ch (a : ascii) : char := N_of_ascii a.

Definition lit (s : string) : str := List.map ch (list_ascii_of_string s).

Definition char_eqb (a b : char) : bool := N.eqb a b.

Fixpoint str_eqb (a b : str) : bool :=
  match a, b with
  | [], [] => true
  | x :: a', y :: b' => char_eqb x y && str_eqb a' b'
  | _, _ => false
  end.

(** Code units named in the source. *)
Definition c_dollar : char := 36%N.    (* $ *)
Definition c_bslash : char := 92%N.    (* \ *)
Definition c_btick : char := 96%N.     (* ` *)
Definition c_nl : char := 10%N.        (* \n *)
Definition c_cr : char := 13%N.        (* \r *)
Definition c_colon : char := 58%N.     (* : *)
Definition c_quote : char := 34%N.     (* double quote *)

(** JavaScript's number-to-string conversion of a non-negative counter. *)
Definition decimal (n : nat) : str :=
  lit (NilEmpty.string_of_uint (Nat.to_uint n)).

(** ** String primitives of the JavaScript runtime *)

Module JS.

(** [s.startsWith(p)] at the head of [s]. *)
Fixpoint prefixb (p s : str) : bool :=
  match p, s with
  | [], _ => true
  | x :: p', y :: s' => char_eqb x y && prefixb p' s'
  | _ :: _, [] => false
  end.

(** Search for [needle] in [s], reporting the offset of the first hit. *)
Fixpoint find (needle s : str) : option nat :=
  if prefixb needle s then Some 0
  else match s with
       | [] => None
       | _ :: s' => option_map S (find needle s')
       end.

(** [s.indexOf(needle, from)]: [None] stands for [-1]. *)
Definition indexOf (needle s : str) (from : nat) : option nat :=
  option_map (Nat.add (Nat.min from (length s)))
             (find needle (skipn from s)).

(** [s.includes(needle)]. *)
Definition includes (needle s : str) : bool :=
  match find needle s with Some _ => true | None => false end.

(** [s.substring(a, b)]: the arguments are clamped to the length and
    swapped when [a > b]. *)
Definition substring (s : str) (a b : nat) : str :=
  let lo := Nat.min a b in
  let hi := Nat.max a b in
  firstn (hi - lo) (skipn lo s).

(** [s.substring(a)]. *)
Definition substringFrom (s : str) (a : nat) : str := skipn a s.

(** [s[i]]: [None] stands for [undefined]. *)
Definition charAt (s : str) (i : nat) : option char := nth_error s i.

(** White space and line terminators of ECMAScript ([\s], [trim]). *)
Definition isSpace (c : char) : bool :=
  ((9 <=? c) && (c <=? 13)
  || (c =? 32) || (c =? 160) || (c =? 5760)
  || ((8192 <=? c) && (c <=? 8202))
  || (c =? 8232) || (c =? 8233) || (c =? 8239)
  || (c =? 8287) || (c =? 12288) || (c =? 65279))%N.

Fixpoint trimStart (s : str) : str :=
  match s with
  | c :: s' => if isSpace c then trimStart s' else s
  | [] => []
  end.

Definition trim (s : str) : str := rev (trimStart (rev (trimStart s))).

(** [!s.trim()] *)
Definition blank (s : str) : bool :=
  match trim s with [] => true | _ => false end.

(** [s.split(sep)] for a non-empty separator: cut at the leftmost
    occurrences, one after the other.  [fuel] bounds the number of cuts;
    [split] below supplies enough of it. *)
Fixpoint split_fuel (fuel : nat) (sep s : str) : list str :=
  match fuel with
  | 0 => [s]
  | S f =>
      match find sep s with
      | None => [s]
      | Some i => firstn i s :: split_fuel f sep (skipn (i + length sep) s)
      end
  end.

Definition split (sep s : str) : list str := split_fuel (S (length s)) sep s.

(** [parts.join(glue)]. *)
Fixpoint join (glue : str) (parts : list str) : str :=
  match parts with
  | [] => []
  | [p] => p
  | p :: rest => p ++ glue ++ join glue rest
  end.

(** [s.split(sep).join(glue)], the replace-all idiom of the source. *)
Definition splitJoin (sep glue s : str) : str := join glue (split sep s).

(** Lexicographic order on code units, the default order of
    [Array.prototype.sort] on strings. *)
Fixpoint str_ltb (a b : str) : bool :=
  match a, b with
  | [], [] => false
  | [], _ :: _ => true
  | _ :: _, [] => false
  | x :: a', y :: b' =>
      if N.ltb x y then true
      else if N.ltb y x then false
      else str_ltb a' b'
  end.

Fixpoint insert_sorted (x : str) (l : list str) : list str :=
  match l with
  | [] => [x]
  | y :: l' => if str_ltb y x then y :: insert_sorted x l' else x :: l
  end.

(** [keys.sort()]. *)
Fixpoint sort (l : list str) : list str :=
  match l with
  | [] => []
  | x :: l' => insert_sorted x (sort l')
  end.

End JS.

(** ** Regular expressions

    The source uses only literal classes, sequencing, alternation, greedy
    repetition and the assertions [^], [$] and [\b].  [mlens r prev s]
    lists the lengths of the matches of [r] at the head of [s], in the
    order in which a backtracking matcher tries them; [prev] is the code
    unit before the head ([None] at the start of the input). *)

Module Regex.

Inductive regex : Type :=
| Eps
| Cls (p : char -> bool)
| Seq (a b : regex)
| Alt (a b : regex)
| Star (a : regex)
| Bol
| Eol
| WordB.

Definition Plus (r : regex) : regex := Seq r (Star r).
Definition Opt (r : regex) : regex := Alt r Eps.

Definition isDigit (c : char) : bool := ((48 <=? c) && (c <=? 57))%N.
Definition isUpper (c : char) : bool := ((65 <=? c) && (c <=? 90))%N.
Definition isLower (c : char) : bool := ((97 <=? c) && (c <=? 122))%N.
Definition isAlpha (c : char) : bool := isUpper c || isLower c.
Definition isWord (c : char) : bool :=
  isAlpha c || isDigit c || (c =? 95)%N.
(** [.] without the [s] flag: everything but a line terminator. *)
Definition isDot (c : char) : bool :=
  negb ((c =? 10) || (c =? 13) || (c =? 8232) || (c =? 8233))%N.
Definition oneOf (set : str) (c : char) : bool := existsb (N.eqb c) set.
Definition orb_cls (p q : char -> bool) (c : char) : bool := p c || q c.

Definition toLower (c : char) : char :=
  if isUpper c then (c + 32)%N else c.

(** A literal string, and a literal string under the [i] flag. *)
Fixpoint lits (s : str) : regex :=
  match s with
  | [] => Eps
  | c :: s' => Seq (Cls (N.eqb c)) (lits s')
  end.

Fixpoint lits_ci (s : str) : regex :=
  match s with
  | [] => Eps
  | c :: s' => Seq (Cls (fun x => N.eqb (toLower x) (toLower c))) (lits_ci s')
  end.

Definition isWordOpt (o : option char) : bool :=
  match o with Some c => isWord c | None => false end.

(** The code unit before offset [n] of [s]. *)
Definition lastChar (prev : option char) (s : str) (n : nat) : option char :=
  match n with
  | 0 => prev
  | S k => nth_error s k
  end.

Fixpoint star_lens (m : option char -> str -> list nat) (fuel : nat)
         (prev : option char) (s : str) : list nat :=
  match fuel with
  | 0 => [0]
  | S f =>
      flat_map
        (fun n =>
           match n with
           | 0 => []
           | S _ => List.map (Nat.add n)
                      (star_lens m f (lastChar prev s n) (skipn n s))
           end)
        (m prev s) ++ [0]
  end.

Fixpoint mlens (r : regex) (prev : option char) (s : str) : list nat :=
  match r with
  | Eps => [0]
  | Cls p => match s with
             | c :: _ => if p c then [1] else []
             | [] => []
             end
  | Seq a b =>
      flat_map
        (fun n => List.map (Nat.add n)
                    (mlens b (lastChar prev s n) (skipn n s)))
        (mlens a prev s)
  | Alt a b => mlens a prev s ++ mlens b prev s
  | Star a => star_lens (mlens a) (length s) prev s
  | Bol => match prev with None => [0] | Some _ => [] end
  | Eol => match s with [] => [0] | _ :: _ => [] end
  | WordB => if xorb (isWordOpt prev) (isWordOpt (hd_error s))
             then [0] else []
  end.

(** The leftmost match in [s]: its offset (counted from [pos]) and its
    length. *)
Fixpoint exec_from (r : regex) (prev : option char) (s : str) (pos : nat)
  : option (nat * nat) :=
  match mlens r prev s with
  | n :: _ => Some (pos, n)
  | [] => match s with
          | [] => None
          | c :: s' => exec_from r (Some c) s' (S pos)
          end
  end.

(** [re.test(s)]. *)
Definition test (r : regex) (s : str) : bool :=
  match exec_from r None s 0 with Some _ => true | None => false end.

(** [s.match(re)] with the [g] flag ([|| []] included). *)
Fixpoint matchAll_fuel (fuel : nat) (r : regex) (prev : option char)
         (s : str) : list str :=
  match fuel with
  | 0 => []
  | S f =>
      match exec_from r prev s 0 with
      | None => []
      | Some (i, n) =>
          firstn n (skipn i s) ::
          match n with
          | 0 => match skipn i s with
                 | [] => []
                 | c :: s' => matchAll_fuel f r (Some c) s'
                 end
          | S _ => matchAll_fuel f r (lastChar prev s (i + n))
                                 (skipn (i + n) s)
          end
      end
  end.

Definition matchAll (r : regex) (s : str) : list str :=
  matchAll_fuel (S (length s)) r None s.

(** [s.replace(re, fn)] with the [g] flag; the callback [fn] may update a
    state of type [A] (the counters and maps of the caller). *)
Fixpoint replace_fuel (A : Type) (fuel : nat) (r : regex)
         (fn : A -> str -> A * str) (a : A) (prev : option char) (s : str)
  : A * str :=
  match fuel with
  | 0 => (a, s)
  | S f =>
      match exec_from r prev s 0 with
      | None => (a, s)
      | Some (i, n) =>
          let (a1, rep) := fn a (firstn n (skipn i s)) in
          match n with
          | 0 => match skipn i s with
                 | [] => (a1, firstn i s ++ rep)
                 | c :: s' =>
                     let (a2, out) := replace_fuel f r fn a1 (Some c) s' in
                     (a2, firstn i s ++ rep ++ c :: out)
                 end
          | S _ =>
              let (a2, out) :=
                replace_fuel f r fn a1 (lastChar prev s (i + n))
                             (skipn (i + n) s) in
              (a2, firstn i s ++ rep ++ out)
          end
      end
  end.

Definition replace (A : Type) (r : regex) (fn : A -> str -> A * str)
           (a : A) (s : str) : A * str :=
  replace_fuel (S (length s)) r fn a None s.

End Regex.

(** ** src/utils/currency-detector.js *)

Module CurrencyDetector.
Import Regex.

Local Infix ">>" := Seq (at level 61, right associativity).
Local Infix "<|>" := Alt (at level 62, right associativity).

Definition c1 (a : ascii) : regex := Cls (N.eqb (ch a)).
Definition digit : regex := Cls isDigit.
Definition space : regex := Cls JS.isSpace.
Definition alpha : regex := Cls isAlpha.
Definition word : regex := Cls isWord.
Definition alnum : regex := Cls (orb_cls isAlpha isDigit).
Definition set (s : string) : regex := Cls (oneOf (lit s)).
Definition digitOr (s : string) : regex :=
  Cls (orb_cls isDigit (oneOf (lit s))).

(** [/[\\^_{}]/] *)
Definition re_latex : regex := set "\^_{}".
(** [/[a-zA-Z]\s*\(.*\)/] *)
Definition re_call : regex :=
  alpha >> Star space >> c1 "(" >> Star (Cls isDot) >> c1 ")".
(** [/=/] *)
Definition re_equals : regex := c1 "=".
(** [/[<>]/] *)
Definition re_compare : regex := set "<>".
(** [/[\r\n]\s*[-*+#]/] *)
Definition re_listMarker : regex :=
  Cls (oneOf [c_cr; c_nl]) >> Star space >> set "-*+#".
(** [/[.!?]\s+[A-Z]/] *)
Definition re_sentence : regex := set ".!?" >> Plus space >> Cls isUpper.
(** [/\b[a-zA-Z]{3,}\b/g] *)
Definition re_word3 : regex :=
  WordB >> alpha >> alpha >> alpha >> Star alpha >> WordB.
(** [/[*#`\[\]]/] *)
Definition re_markdown : regex := set "*#`[]".
(** [/^[\d.,]+[,\s]*$/] *)
Definition re_numeric : regex :=
  Bol >> Plus (digitOr ".,")
      >> Star (Cls (orb_cls (N.eqb (ch ",")) JS.isSpace)) >> Eol.
(** [/^[\d.,]+\s*-?\s*$/] *)
Definition re_rangeLead : regex :=
  Bol >> Plus (digitOr ".,") >> Star space >> Opt (c1 "-")
      >> Star space >> Eol.
(** [/^[\d.,]+[kKmMbB]?(?:\/\w+)?[,\s)]*$/] *)
Definition re_unit : regex :=
  Bol >> Plus (digitOr ".,") >> Opt (set "kKmMbB")
      >> Opt (c1 "/" >> Plus word)
      >> Star (Cls (orb_cls (oneOf (lit ",)")) JS.isSpace)) >> Eol.
(** [/^\d+(?:\.\d+)?\/\w+[,\s)]*$/] *)
Definition re_perWord : regex :=
  Bol >> Plus digit >> Opt (c1 "." >> Plus digit) >> c1 "/" >> Plus word
      >> Star (Cls (orb_cls (oneOf (lit ",)")) JS.isSpace)) >> Eol.
(** [/[a-zA-Z]/] *)
Definition re_letter : regex := alpha.
(** [/[a-zA-Z0-9]\s*[+\-*/]\s*[a-zA-Z0-9]/] *)
Definition re_infix : regex :=
  alnum >> Star space >> set "+-*/" >> Star space >> alnum.
(** [/^\d/] *)
Definition re_digitLead : regex := Bol >> digit.
(** [/\b[a-zA-Z]+\b/g] *)
Definition re_word1 : regex := WordB >> Plus alpha >> WordB.
(** [/^[a-z][0-9]*$/i] *)
Definition re_variable : regex := Bol >> alpha >> Star digit >> Eol.
(** [/^[\d.,\s$\-/]+(\s*(per|unit|each|k|m|b|million|billion|thousand))?$/i] *)
Definition re_broad : regex :=
  Bol >> Plus (Cls (orb_cls isDigit
                      (orb_cls (oneOf (lit ".,$-/")) JS.isSpace)))
      >> Opt (Star space >>
              (lits_ci (lit "per") <|> lits_ci (lit "unit")
               <|> lits_ci (lit "each") <|> lits_ci (lit "k")
               <|> lits_ci (lit "m") <|> lits_ci (lit "b")
               <|> lits_ci (lit "million") <|> lits_ci (lit "billion")
               <|> lits_ci (lit "thousand")))
      >> Eol.
(** [/,\s+[a-zA-Z]/] *)
Definition re_commaWord : regex := c1 "," >> Plus space >> alpha.
(** [/:/] *)
Definition re_colon : regex := c1 ":".

Definition toLowerCase (s : str) : str := List.map toLower s.

Definition inSet (set : list str) (w : str) : bool :=
  existsb (str_eqb w) set.

Definition latexCommands : list str :=
  List.map lit
    ["frac"; "sqrt"; "sum"; "prod"; "int"; "lim"; "log"; "sin"; "cos"; "tan";
     "alpha"; "beta"; "gamma"; "delta"; "theta"; "lambda"; "sigma"; "omega";
     "infty"; "partial"; "nabla"; "cdot"; "times"; "div"; "pm"; "mp";
     "leq"; "geq"; "neq"; "approx"; "equiv"; "subset"; "supset";
     "mathbb"; "mathcal"; "mathrm"; "text"; "left"; "right"; "begin"; "end";
     "ln"; "exp"; "pi"]%string.

Definition currencyConnectors : list str :=
  List.map lit ["or"; "to"; "and"; "per"; "a"; "an"; "the"]%string.

(** [looksLikeCurrency(content)]: the first rule that applies decides. *)
Definition looksLikeCurrency (content : str) : bool :=
  if match content with [] => true | _ => JS.blank content end then true
  else if test re_latex content then false
  else if test re_call content then false
  else if test re_equals content then false
  else if test re_compare content then false
  else if test re_listMarker content then true
  else if test re_sentence content then true
  else
    let words := matchAll re_word3 content in
    let englishWords :=
      filter (fun w => negb (inSet latexCommands (toLowerCase w))) words in
    if 2 <=? length englishWords then true
    else if test re_markdown content then true
    else if test re_numeric content then true
    else if test re_rangeLead content then true
    else if test re_unit content then true
    else if test re_perWord content then true
    else if test re_letter content && test re_infix content then false
    else if
      (if test re_digitLead content then
         let wordsInContent := matchAll re_word1 content in
         let nonCurrencyWords :=
           filter (fun w => negb (inSet currencyConnectors (toLowerCase w)))
                  wordsInContent in
         (0 <? length wordsInContent) && (length nonCurrencyWords =? 0)
       else false)
    then true
    else if test re_variable (JS.trim content) then false
    else if test re_broad content then true
    else if
      (if test re_digitLead content then
         test re_commaWord content || test re_colon content
       else false)
    then true
    else if
      (if length content <? 20 then
         let letterContent := filter isAlpha content in
         length letterContent <=? 3
       else false)
    then true
    else length content <? 10.

(** [/^\$[\d.,]+\s*-\s*\$[\d.,]+$/] *)
Definition re_range : regex :=
  Bol >> c1 "$" >> Plus (digitOr ".,") >> Star space >> c1 "-"
      >> Star space >> c1 "$" >> Plus (digitOr ".,") >> Eol.

(** [isCurrencyRange(text)] *)
Definition isCurrencyRange (text : str) : bool := test re_range text.

End CurrencyDetector.

(** ** src/utils/hash.js *)

Module Hash.
Local Open Scope Z_scope.

(** ECMAScript [ToInt32] and [ToUint32]. *)
Definition toInt32 (z : Z) : Z := (z + 2 ^ 31) mod 2 ^ 32 - 2 ^ 31.
Definition toUint32 (z : Z) : Z := z mod 2 ^ 32.

(** One round of the loop: [hash = ((hash << 5) - hash) + char;
    hash = hash & hash]. *)
Definition hashStep (hash : Z) (c : char) : Z :=
  toInt32 (toInt32 (hash * 32) - hash + Z.of_N c).

Definition digitChar (d : Z) : char :=
  if d <? 10 then Z.to_N (48 + d) else Z.to_N (97 + (d - 10)).

Fixpoint toRadix_fuel (fuel : nat) (radix z : Z) (acc : str) : str :=
  match fuel with
  | O => acc
  | S f =>
      let acc' := digitChar (z mod radix) :: acc in
      if z / radix =? 0 then acc' else toRadix_fuel f radix (z / radix) acc'
  end.

(** [n.toString(36)] for [0 <= n < 2^32]. *)
Definition toString36 (z : Z) : str := toRadix_fuel 32 36 z [].
Definition toString16 (z : Z) : str := toRadix_fuel 32 16 z [].

Definition hashBase36 (s : str) : str :=
  match s with
  | [] => lit "0"
  | _ => toString36 (toUint32 (fold_left hashStep s 0))
  end.

Definition hashCode (s : str) : str :=
  match s with
  | [] => lit "0"
  | _ => toString16 (toUint32 (fold_left hashStep s 0))
  end.

End Hash.

(** The base64 codec of the platform ([btoa]/[atob] or [Buffer]) behind
    [encodeBase64] and [decodeBase64] of [src/utils/hash.js]. *)
Record codec : Type := {
  encodeBase64 : str -> str;
  decodeBase64 : str -> str
}.

(** ** src/core/math-protector.js *)

Module MathProtector.

Record delim : Type := {
  left : str;
  right : str;
  display : bool;
  priority : nat
}.

(** One row of the span table ([mathMap]). *)
Record MathInfo : Type := {
  original : str;
  encodedOriginal : str;
  isDisplay : bool;
  innerContent : str;
  delimiter : delim;
  isPending : bool
}.

(** A JavaScript [Map] with string keys: insertion-ordered, one row per
    key; [set] on a key already present overwrites the row in place. *)
Section StrMap.
Variable V : Type.

Definition smap := list (str * V).

Fixpoint map_get (m : smap) (k : str) : option V :=
  match m with
  | [] => None
  | (k', v) :: m' => if str_eqb k k' then Some v else map_get m' k
  end.

Fixpoint map_set (m : smap) (k : str) (v : V) : smap :=
  match m with
  | [] => [(k, v)]
  | (k', v') :: m' =>
      if str_eqb k k' then (k', v) :: m' else (k', v') :: map_set m' k v
  end.

Definition map_keys (m : smap) : list str := List.map fst m.
End StrMap.

Definition mathMap := smap MathInfo.

Record options : Type := {
  renderOnRestore : bool;
  debug : bool
}.

Record protector : Type := {
  counter : nat;
  currencyCounter : nat;
  currencyMap : smap str;
  opts : options
}.

(** [new MathProtector(options)] *)
Definition create (o : options) : protector :=
  {| counter := 0; currencyCounter := 0; currencyMap := []; opts := o |}.

(** [reset()] *)
Definition reset (p : protector) : protector :=
  {| counter := 0; currencyCounter := 0; currencyMap := []; opts := opts p |}.

Fixpoint insertByPriority (d : delim) (l : list delim) : list delim :=
  match l with
  | [] => [d]
  | e :: l' =>
      if priority d <? priority e then d :: l
      else e :: insertByPriority d l'
  end.

(** [.sort((a, b) => a.priority - b.priority)] *)
Definition sortByPriority (l : list delim) : list delim :=
  fold_left (fun acc d => insertByPriority d acc) l [].

Definition d_dollars : delim :=
  {| left := lit "$$"; right := lit "$$"; display := true; priority := 1 |}.
Definition d_bracket : delim :=
  {| left := lit "\["; right := lit "\]"; display := true; priority := 2 |}.
Definition d_paren : delim :=
  {| left := lit "\("; right := lit "\)"; display := false; priority := 3 |}.
Definition d_dollar : delim :=
  {| left := lit "$"; right := lit "$"; display := false; priority := 4 |}.

Definition delimiters : list delim :=
  sortByPriority [d_dollars; d_bracket; d_paren; d_dollar].

(** [isInsideBackticks(content, position)] *)
Definition isInsideBackticks (content : str) (position : nat) : bool :=
  Nat.odd (length (filter (N.eqb c_btick) (firstn position content))).

Import Regex.

(** [/\$(\d[\d,]*(?:\.\d+)?)\s*-\s*\$(\d[\d,]*(?:\.\d+)?)/g] *)
Definition re_amount : regex :=
  Seq (Cls isDigit)
      (Seq (Star (Cls (orb_cls isDigit (N.eqb (ch ",")))))
           (Opt (Seq (Cls (N.eqb (ch "."))) (Plus (Cls isDigit))))).

Definition re_currencyRange : regex :=
  Seq (Cls (N.eqb c_dollar))
  (Seq re_amount
  (Seq (Star (Cls JS.isSpace))
  (Seq (Cls (N.eqb (ch "-")))
  (Seq (Star (Cls JS.isSpace))
  (Seq (Cls (N.eqb c_dollar)) re_amount))))).

(** [/::CUR\d+::/] *)
Definition re_curToken : regex :=
  Seq (lits (lit "::CUR")) (Seq (Plus (Cls isDigit)) (lits (lit "::"))).

Definition curPlaceholder (n : nat) : str :=
  lit "::CUR" ++ decimal n ++ lit "::".
Definition mathPlaceholder (n : nat) : str :=
  lit "::MATH_" ++ decimal n ++ lit "::".
Definition pendingPlaceholder (n : nat) : str :=
  lit "::PENDINGMATH" ++ decimal n ++ lit "::".

(** The callback of Step 1 of [protect]. *)
Definition maskRange (p : protector) (m : str) : protector * str :=
  let placeholder := curPlaceholder (currencyCounter p) in
  ({| counter := counter p;
      currencyCounter := S (currencyCounter p);
      currencyMap := map_set (currencyMap p) placeholder m;
      opts := opts p |},
   placeholder).

(** The variables of the scan loop of [extractAndReplace], with the
    instance counter and the span table it updates. *)
Record scan : Type := {
  result : str;
  searchPos : nat;
  table : mathMap;
  ctr : nat
}.

Inductive flow : Type :=
| Continue (st : scan)
| Break (st : scan).

Definition isDollar (d : delim) : bool := str_eqb (left d) (lit "$").
Definition isDollars (d : delim) : bool := str_eqb (left d) (lit "$$").

Definition precededByBackslash (s : str) (pos : nat) : bool :=
  (0 <? pos) &&
  match JS.charAt s (pos - 1) with
  | Some c => N.eqb c c_bslash
  | None => false
  end.

(** The inner [while (tempPos < result.length)] of the single-dollar
    branch.  The outer [option] is [None] when [fuel] runs out. *)
Fixpoint findCloser (fuel : nat) (res rightD : str)
         (nextParagraphBreak : option nat) (tempPos : nat)
  : option (option nat) :=
  match fuel with
  | 0 => None
  | S f =>
      if tempPos <? length res then
        match JS.indexOf rightD res tempPos with
        | None => Some None
        | Some foundPos =>
            if match nextParagraphBreak with
               | Some b => b <? foundPos
               | None => false
               end
            then Some None
            else if precededByBackslash res foundPos
                 then findCloser f res rightD nextParagraphBreak (foundPos + 1)
                 else Some (Some foundPos)
        end
      else Some None
  end.

(** [afterDelim.split(/[\s\n]/)[0]] *)
Fixpoint firstField (s : str) : str :=
  match s with
  | [] => []
  | c :: s' => if JS.isSpace c then [] else c :: firstField s'
  end.

Definition skipTo (st : scan) (pos : nat) : scan :=
  {| result := result st; searchPos := pos;
     table := table st; ctr := ctr st |}.

(** The search for the right marker ([rightPos]), one branch per kind
    of delimiter; the inner [option] is [None] for [-1]. *)
Definition findRight (d : delim) (res : str) (leftPos : nat)
  : option (option nat) :=
  let tempPos := leftPos + length (left d) in
  if isDollars d then
    if tempPos <? length res
    then Some (JS.indexOf (right d) res tempPos)
    else Some None
  else if isDollar d then
    findCloser (S (length res)) res (right d)
               (JS.indexOf [c_nl; c_nl] res leftPos) tempPos
  else Some (JS.indexOf (right d) res tempPos).

(** One turn of [while (searchPos < result.length)], entered with the
    loop condition true. *)
Definition scan_step (cd : codec) (d : delim) (st : scan) : option flow :=
  let res := result st in
  match JS.indexOf (left d) res (searchPos st) with
  | None => Some (Break st)
  | Some leftPos =>
      if isDollar d && precededByBackslash res leftPos
      then Some (Continue (skipTo st (leftPos + 1)))
      else if isDollar d && isInsideBackticks res leftPos
      then Some (Continue (skipTo st (leftPos + 1)))
      else
        match findRight d res leftPos with
        | None => None
        | Some None =>
            let pendingContent := JS.substringFrom res leftPos in
            let afterDelim :=
              JS.substringFrom pendingContent (length (left d)) in
            if isDollar d &&
               CurrencyDetector.looksLikeCurrency (firstField afterDelim)
            then Some (Continue (skipTo st (leftPos + 1)))
            else
              let sameParagraphContent :=
                JS.indexOf [c_nl; c_nl] res leftPos in
              let checkContent :=
                match sameParagraphContent with
                | Some b => JS.substring res (leftPos + length (left d)) b
                | None => afterDelim
                end in
              if (0 <? length checkContent) &&
                 (JS.includes (lit "\") checkContent
                  || JS.includes (lit "^") checkContent
                  || JS.includes (lit "{") checkContent
                  || JS.includes (lit "begin") checkContent
                  || JS.includes (lit "frac") checkContent)
              then
                let endPos :=
                  match sameParagraphContent with
                  | Some b => b
                  | None => length res
                  end in
                let limitedPendingContent :=
                  JS.substring res leftPos endPos in
                let placeholder := pendingPlaceholder (ctr st) in
                Some (Continue
                  {| result := JS.substring res 0 leftPos ++ placeholder
                               ++ JS.substringFrom res endPos;
                     searchPos := leftPos + length placeholder;
                     table :=
                       map_set (table st) placeholder
                         {| original := limitedPendingContent;
                            encodedOriginal :=
                              encodeBase64 cd limitedPendingContent;
                            isDisplay := display d;
                            innerContent := checkContent;
                            delimiter := d;
                            isPending := true |};
                     ctr := S (ctr st) |})
              else Some (Break st)
        | Some (Some rightPos) =>
            let mathStart := leftPos in
            let mathEnd := rightPos + length (right d) in
            let mathExpression := JS.substring res mathStart mathEnd in
            let inner :=
              JS.substring res (leftPos + length (left d)) rightPos in
            if JS.blank inner
            then Some (Continue (skipTo st mathEnd))
            else if isDollar d &&
                    (JS.includes [c_nl] inner || JS.includes [c_cr] inner)
            then Some (Continue (skipTo st (leftPos + 1)))
            else if test re_curToken inner
            then Some (Continue (skipTo st (leftPos + 1)))
            else if isDollar d && CurrencyDetector.looksLikeCurrency inner
            then Some (Continue (skipTo st (leftPos + 1)))
            else
              let placeholder := mathPlaceholder (ctr st) in
              Some (Continue
                {| result := JS.substring res 0 mathStart ++ placeholder
                             ++ JS.substringFrom res mathEnd;
                   searchPos := mathStart + length placeholder;
                   table :=
                     map_set (table st) placeholder
                       {| original := mathExpression;
                          encodedOriginal := encodeBase64 cd mathExpression;
                          isDisplay := display d;
                          innerContent := inner;
                          delimiter := d;
                          isPending := false |};
                   ctr := S (ctr st) |})
        end
  end.

(** [while (searchPos < result.length) { ... }]: [None] when [fuel] turns
    do not reach the exit. *)
Fixpoint scan_loop (fuel : nat) (cd : codec) (d : delim) (st : scan)
  : option scan :=
  match fuel with
  | 0 => None
  | S f =>
      if searchPos st <? length (result st) then
        match scan_step cd d st with
        | None => None
        | Some (Break st') => Some st'
        | Some (Continue st') => scan_loop f cd d st'
        end
      else Some st
  end.

(** [extractAndReplace(content, delim, mathMap)], with the instance
    counter threaded through. *)
Definition extractAndReplace (cd : codec) (content : str) (d : delim)
           (m : mathMap) (c : nat) : option (str * mathMap * nat) :=
  match scan_loop (S (length content)) cd d
          {| result := content; searchPos := 0; table := m; ctr := c |} with
  | Some st => Some (result st, table st, ctr st)
  | None => None
  end.

(** Step 2 of [protect]: one [extractAndReplace] per delimiter. *)
Fixpoint protectDelims (cd : codec) (ds : list delim) (content : str)
         (m : mathMap) (c : nat) : option (str * mathMap * nat) :=
  match ds with
  | [] => Some (content, m, c)
  | d :: ds' =>
      match extractAndReplace cd content d m c with
      | Some (content', m', c') => protectDelims cd ds' content' m' c'
      | None => None
      end
  end.

(** Step 3 of [protect]: every currency placeholder back to its text. *)
Definition restoreCurrency (cm : smap str) (content : str) : str :=
  fold_left (fun acc kv => JS.splitJoin (fst kv) (snd kv) acc) cm content.

Record protectResult : Type := {
  protected : str;
  spans : mathMap
}.

(** [protect(content)]: the instance after the call and the returned
    object; [None] only if a scan loop does not finish.  Nothing in the
    model throws, so the [try]/[catch] around Step 2 has no branch here. *)
Definition protect (cd : codec) (p : protector) (content : str)
  : option (protector * protectResult) :=
  match content with
  | [] => Some (p, {| protected := []; spans := [] |})
  | _ =>
      let p0 := {| counter := counter p; currencyCounter := 0;
                   currencyMap := []; opts := opts p |} in
      let (p1, masked) :=
        Regex.replace re_currencyRange maskRange p0 content in
      match protectDelims cd delimiters masked [] (counter p1) with
      | None => None
      | Some (scanned, m, c) =>
          Some ({| counter := c;
                   currencyCounter := currencyCounter p1;
                   currencyMap := currencyMap p1;
                   opts := opts p1 |},
                {| protected := restoreCurrency (currencyMap p1) scanned;
                   spans := m |})
      end
  end.

(** The KaTeX library, when present: [renderToString(content,
    {displayMode, ...})]; [None] when it throws. *)
Definition katex := str -> bool -> option str.

(** [renderMathExpression(original, mathInfo, katexLib)] *)
Definition renderMathExpression (orig : str) (mathInfo : MathInfo)
           (katexLib : katex) : str :=
  if JS.blank (innerContent mathInfo) then orig
  else
    match katexLib (innerContent mathInfo) (isDisplay mathInfo) with
    | None => orig
    | Some rendered =>
        if isDisplay mathInfo
        then lit "<div class=" ++ [c_quote] ++ lit "katex-display-wrapper"
             ++ [c_quote] ++ lit ">" ++ rendered ++ lit "</div>"
        else rendered
    end.

Definition nonEmpty (s : str) : bool :=
  match s with [] => false | _ :: _ => true end.

(** [restore(content, mathMap)]; [katexLib] is what [getKaTeX()] finds. *)
Definition restore (cd : codec) (p : protector) (katexLib : option katex)
           (content : str) (m : mathMap) : str :=
  if negb (nonEmpty content) || (length m =? 0) then content
  else
    let sortedPlaceholders := rev (JS.sort (map_keys m)) in
    fold_left
      (fun restored placeholder =>
         match map_get m placeholder with
         | None => restored
         | Some mathInfo =>
             let orig :=
               if nonEmpty (encodedOriginal mathInfo)
               then Some (decodeBase64 cd (encodedOriginal mathInfo))
               else if nonEmpty (original mathInfo)
               then Some (original mathInfo)
               else None in
             match orig with
             | None => restored
             | Some o =>
                 let replacement :=
                   match katexLib with
                   | Some k =>
                       if renderOnRestore (opts p)
                       then renderMathExpression o mathInfo k
                       else o
                   | None => o
                   end in
                 JS.splitJoin placeholder replacement restored
             end
         end)
      sortedPlaceholders content.

End MathProtector.

(** ** The page and the in-place rendering backend

    [Dom] is the state of the target element.  [renderMathInElement],
    when present, mutates it and either returns or throws; [katexCount]
    is [querySelectorAll('.katex').length]. *)

Inductive outcome (Dom : Type) : Type :=
| Returned (d : Dom)
| Threw (d : Dom).
Arguments Returned {Dom} d.
Arguments Threw {Dom} d.

Record backend (Dom : Type) : Type := {
  renderMathInElement : option (Dom -> outcome Dom);
  katexCount : Dom -> nat
}.

(** ** src/handlers/streaming-math-renderer.js *)

Module StreamingMathRenderer.

Record delim : Type := {
  left : str;
  right : str;
  display : bool
}.

Definition delimiters : list delim :=
  [ {| left := lit "$$"; right := lit "$$"; display := true |};
    {| left := lit "$"; right := lit "$"; display := false |};
    {| left := lit "\["; right := lit "\]"; display := true |};
    {| left := lit "\("; right := lit "\)"; display := false |} ].

Record stats : Type := {
  rendersAttempted : nat;
  rendersSkipped : nat;
  rendersExecuted : nat
}.

Record tracker : Type := {
  seenFormulas : list str;
  lastContentHash : str;
  consecutiveSkips : nat;
  lastCharWasWhitespace : bool;
  accumulatedContent : str;
  stat : stats
}.

(** [new StreamingMathRenderer()] *)
Definition create : tracker :=
  {| seenFormulas := []; lastContentHash := []; consecutiveSkips := 0;
     lastCharWasWhitespace := false; accumulatedContent := [];
     stat := {| rendersAttempted := 0; rendersSkipped := 0;
                rendersExecuted := 0 |} |}.

(** [reset()] *)
Definition reset (t : tracker) : tracker := create.

(** A JavaScript [Set] of strings, in insertion order. *)
Definition set_has (s : list str) (x : str) : bool := existsb (str_eqb x) s.
Definition set_add (s : list str) (x : str) : list str :=
  if set_has s x then s else s ++ [x].

Definition isInsideBackticks (text : str) (pos : nat) : bool :=
  Nat.odd (length (filter (N.eqb c_btick) (firstn pos text))).

Definition isDollar (d : delim) : bool := str_eqb (left d) (lit "$").

(** The inner [while (tempPos < cleanContent.length)]. *)
Fixpoint findCloser (fuel : nat) (clean rightD : str) (tempPos : nat)
  : option (option nat) :=
  match fuel with
  | 0 => None
  | S f =>
      if tempPos <? length clean then
        match JS.indexOf rightD clean tempPos with
        | None => Some None
        | Some foundPos =>
            if MathProtector.precededByBackslash clean foundPos
            then findCloser f clean rightD (foundPos + 1)
            else Some (Some foundPos)
        end
      else Some None
  end.

(** The [while (true)] loop of one delimiter: the cursor and the
    signatures pushed so far. *)
Fixpoint sig_loop (fuel : nat) (clean : str) (d : delim)
         (searchPos : nat) (signatures : list str) : option (list str) :=
  match fuel with
  | 0 => None
  | S f =>
      match JS.indexOf (left d) clean searchPos with
      | None => Some signatures
      | Some leftPos =>
          if isDollar d && isInsideBackticks clean leftPos
          then sig_loop f clean d (leftPos + 1) signatures
          else
            let found :=
              if isDollar d
              then findCloser (S (length clean)) clean (right d)
                              (leftPos + length (left d))
              else Some (JS.indexOf (right d) clean
                                    (leftPos + length (left d))) in
            match found with
            | None => None
            | Some None => Some signatures
            | Some (Some rightPos) =>
                let formula :=
                  JS.substring clean (leftPos + length (left d)) rightPos in
                if negb (JS.blank formula) then
                  if isDollar d && CurrencyDetector.looksLikeCurrency formula
                  then sig_loop f clean d (leftPos + 1) signatures
                  else
                    let signature := left d ++ Hash.hashBase36 formula in
                    sig_loop f clean d (rightPos + length (right d))
                             (signatures ++ [signature])
                else
                  sig_loop f clean d (rightPos + length (right d)) signatures
            end
      end
  end.

Fixpoint sig_delims (clean : str) (ds : list delim) (signatures : list str)
  : option (list str) :=
  match ds with
  | [] => Some signatures
  | d :: ds' =>
      match sig_loop (length clean + 2) clean d 0 signatures with
      | Some signatures' => sig_delims clean ds' signatures'
      | None => None
      end
  end.

(** [extractFormulaSignatures(content)] *)
Definition extractFormulaSignatures (content : str) : option (list str) :=
  let cleanContent :=
    snd (Regex.replace MathProtector.re_currencyRange
           (fun (u : unit) (_ : str) => (u, lit "___CURRENCY_RANGE___"))
           tt content) in
  sig_delims cleanContent delimiters [].

Section Render.
Variable Dom : Type.
Variable be : backend Dom.

(** [renderMath(targetElement)]: the element afterwards, the value
    returned and the number of calls made to the backend. *)
Definition renderMath (target : Dom) : Dom * bool * nat :=
  match renderMathInElement be with
  | None => (target, false, 0)
  | Some renderFn =>
      let beforeCount := katexCount be target in
      match renderFn target with
      | Returned target' =>
          (target', beforeCount <? katexCount be target', 1)
      | Threw target' => (target', false, 1)
      end
  end.

Record chunkResult : Type := {
  after : tracker;
  element : Dom;
  returned : bool;
  backendCalls : nat
}.

(** [/\s$/.test(content)] *)
Definition endsWithSpace (content : str) : bool :=
  match rev content with
  | c :: _ => JS.isSpace c
  | [] => false
  end.

(** [processChunk(content, targetElement)] *)
Definition processChunk (t : tracker) (content : str) (target : Dom)
  : option chunkResult :=
  let st1 := {| rendersAttempted := S (rendersAttempted (stat t));
                rendersSkipped := rendersSkipped (stat t);
                rendersExecuted := rendersExecuted (stat t) |} in
  let acc := accumulatedContent t ++ content in
  let ws := endsWithSpace content in
  match extractFormulaSignatures content with
  | None => None
  | Some currentFormulas =>
      let newFormulas :=
        filter (fun sig => negb (set_has (seenFormulas t) sig))
               currentFormulas in
      if length newFormulas =? 0 then
        Some {| after :=
                  {| seenFormulas := seenFormulas t;
                     lastContentHash := lastContentHash t;
                     consecutiveSkips := S (consecutiveSkips t);
                     lastCharWasWhitespace := ws;
                     accumulatedContent := acc;
                     stat := {| rendersAttempted := rendersAttempted st1;
                                rendersSkipped := S (rendersSkipped st1);
                                rendersExecuted := rendersExecuted st1 |}
                  |};
                element := target;
                returned := false;
                backendCalls := 0 |}
      else
        let '(target', rendered, calls) := renderMath target in
        if rendered then
          Some {| after :=
                    {| seenFormulas :=
                         fold_left set_add newFormulas (seenFormulas t);
                       lastContentHash := lastContentHash t;
                       consecutiveSkips := 0;
                       lastCharWasWhitespace := ws;
                       accumulatedContent := acc;
                       stat := {| rendersAttempted := rendersAttempted st1;
                                  rendersSkipped := rendersSkipped st1;
                                  rendersExecuted :=
                                    S (rendersExecuted st1) |} |};
                  element := target';
                  returned := true;
                  backendCalls := calls |}
        else
          Some {| after :=
                    {| seenFormulas := seenFormulas t;
                       lastContentHash := lastContentHash t;
                       consecutiveSkips := consecutiveSkips t;
                       lastCharWasWhitespace := ws;
                       accumulatedContent := acc;
                       stat := st1 |};
                  element := target';
                  returned := false;
                  backendCalls := calls |}
  end.
(** The chunks of a stream handed to [processChunk] one after the other,
on the same target element. *)
Fixpoint processAll (t : tracker) (chunks : list str) (target : Dom)
  : option (tracker * Dom) :=
  match chunks with
  | [] => Some (t, target)
  | c :: cs =>
      match processChunk t c target with
      | Some res => processAll (after res) cs (element res)
      | None => None
      end
  end.
End Render.

End StreamingMathRenderer.

(** ** [StreamRenderer] of src/mertex.js, with
    [IncrementalContentRenderer.appendNewContent] *)

Module StreamRenderer.
Import StreamingMathRenderer.

Section Stream.
Variable Dom : Type.
Variable be : backend Dom.
(** What [appendNewContent] leaves in the target element: the full
    content rendered by [renderMarkdown], followed by the cursor. *)
Variable renderPage : str -> Dom.

Record incremental : Type := {
  lastContent : str;
  renderCount : nat
}.

Record renderer : Type := {
  targetElement : Dom;
  content : str;
  incrementalRenderer : incremental;
  streamingMathRenderer : tracker
}.

(** [new StreamRenderer(targetElement, options)] *)
Definition create (target : Dom) : renderer :=
  {| targetElement := target; content := [];
     incrementalRenderer := {| lastContent := []; renderCount := 0 |};
     streamingMathRenderer := StreamingMathRenderer.create |}.

(** [appendNewContent(targetElement, fullContent, renderMarkdown)] *)
Definition appendNewContent (inc : incremental) (target : Dom)
           (fullContent : str) : incremental * Dom * bool :=
  if negb (MathProtector.nonEmpty fullContent) then (inc, target, false)
  else if str_eqb fullContent (lastContent inc) then (inc, target, false)
  else ({| lastContent := fullContent;
           renderCount := S (renderCount inc) |},
        renderPage fullContent, true).

(** [appendContent(chunk)] *)
Definition appendContent (r : renderer) (chunk : str)
  : option (renderer * bool) :=
  if negb (MathProtector.nonEmpty chunk) then Some (r, false)
  else
    let content' := content r ++ chunk in
    let '(inc', target', updated) :=
      appendNewContent (incrementalRenderer r) (targetElement r) content' in
    if updated then
      match processChunk be (streamingMathRenderer r) content' target' with
      | None => None
      | Some res =>
          Some ({| targetElement := element res; content := content';
                   incrementalRenderer := inc';
                   streamingMathRenderer := after res |}, updated)
      end
    else
      Some ({| targetElement := target'; content := content';
               incrementalRenderer := inc';
               streamingMathRenderer := streamingMathRenderer r |},
            updated).

(** A stream of chunks appended one after the other. *)
Fixpoint appendAll (r : renderer) (chunks : list str) : option renderer :=
  match chunks with
  | [] => Some r
  | c :: cs =>
      match appendContent r c with
      | Some (r', _) => appendAll r' cs
      | None => None
      end
  end.
End Stream.

End StreamRenderer.

(** ** src/handlers/mermaid-handler.js, src/handlers/katex-handler.js

    Both handlers cut fenced blocks out of the text with a pattern of
    the form [/```word\s*\n([\s\S]*?)```/gi]: an opening, a lazy group
    and the closing fence. *)

Module Fence.
Import JS Regex.

(** [s.replace(re, rep)] with the [g] flag, for a replacement text
    without [$]. *)
Definition replaceAll (r : regex) (rep s : str) : str :=
  snd (Regex.replace r (fun (a : unit) (_ : str) => (a, rep)) tt s).

Definition fence : str := lit "```".

(** [```word\s*\n] under the [i] flag. *)
Definition fenceOpen (word : string) : regex :=
  Seq (lits_ci (fence ++ lit word)) (Seq (Star (Cls isSpace))
                                         (Cls (N.eqb c_nl))).

(** The lazy group [([\s\S]*?)] before the closing fence: for each way
    of matching the opening, in the order of the backtracking matcher,
    the group ends at the first closing fence, if there is one.  The
    result is the length of the whole match and the text of the
    group. *)
Fixpoint firstClosed (s : str) (opens : list nat) : option (nat * str) :=
  match opens with
  | [] => None
  | n :: rest =>
      match find fence (skipn n s) with
      | Some j => Some (n + j + length fence, firstn j (skipn n s))
      | None => firstClosed s rest
      end
  end.

Definition matchBlock (word : string) (prev : option char) (s : str)
  : option (nat * str) :=
  firstClosed s (mlens (fenceOpen word) prev s).

(** The leftmost block of [s]: its offset (counted from [pos]), its
    length and its group. *)
Fixpoint execBlock (word : string) (prev : option char) (s : str)
         (pos : nat) : option (nat * nat * str) :=
  match matchBlock word prev s with
  | Some (n, code) => Some (pos, n, code)
  | None => match s with
            | [] => None
            | c :: s' => execBlock word (Some c) s' (S pos)
            end
  end.

(** [s.replace(re, (match, code) => ...)] with the [g] flag; the
    callback updates the map of the handler.  A block is never empty,
    so the search resumes behind it. *)
Fixpoint replaceBlocks_fuel (A : Type) (fuel : nat) (word : string)
         (fn : A -> str -> A * str) (a : A) (prev : option char) (s : str)
  : A * str :=
  match fuel with
  | 0 => (a, s)
  | S f =>
      match execBlock word prev s 0 with
      | None => (a, s)
      | Some (i, n, code) =>
          let (a1, rep) := fn a code in
          let (a2, out) :=
            replaceBlocks_fuel f word fn a1 (lastChar prev s (i + n))
                               (skipn (i + n) s) in
          (a2, firstn i s ++ rep ++ out)
      end
  end.

Definition replaceBlocks (A : Type) (word : string)
           (fn : A -> str -> A * str) (a : A) (s : str) : A * str :=
  replaceBlocks_fuel (S (length s)) word fn a None s.

(** [<div class="cls" data-attr="id"></div>] between two line feeds. *)
Definition placeholder (cls attr : string) (id : str) : str :=
  [c_nl] ++ lit "<div class=" ++ [c_quote] ++ lit cls ++ [c_quote]
         ++ lit " " ++ lit attr ++ lit "=" ++ [c_quote] ++ id ++ [c_quote]
         ++ lit "></div>" ++ [c_nl].

End Fence.

Module MermaidHandler.
Import JS Regex Fence.

Definition mermaidMap := list (str * str).

Record protectResult : Type := {
  protected : str;
  mermaidMapOf : mermaidMap
}.

Definition ESCAPED_NEWLINE : str := lit "::ESCAPED_NEWLINE::".

(** [normalizeNewlines(text)] *)
Definition normalizeNewlines (text : str) : str :=
  match text with
  | [] => text
  | _ =>
      let normalized := replaceAll (lits (lit "\\n")) ESCAPED_NEWLINE text in
      let normalized := replaceAll (lits (lit "\n")) [c_nl] normalized in
      replaceAll (lits ESCAPED_NEWLINE) (lit "\n") normalized
  end.

(** [line.trimEnd()] *)
Definition trimEnd (s : str) : str := rev (trimStart (rev s)).

(** The callback of [protect]. *)
Definition onBlock (m : mermaidMap) (code : str) : mermaidMap * str :=
  let sanitizedCode :=
    trim (join [c_nl] (List.map trimEnd (split [c_nl] code))) in
  let id := lit "MERMAID_" ++ Hash.hashCode sanitizedCode in
  (MathProtector.map_set m id sanitizedCode,
   placeholder "mermaid-placeholder" "data-mermaid-id" id).

(** [protect(text)] *)
Definition protect (text : str) : protectResult :=
  let normalizedText := normalizeNewlines text in
  let (m, protectedText) := replaceBlocks "mermaid" onBlock [] normalizedText in
  {| protected := protectedText; mermaidMapOf := m |}.

(** [hasMermaidBlocks(text)] *)
Definition hasMermaidBlocks (text : str) : bool :=
  test (lits_ci (lit "```mermaid")) text.

End MermaidHandler.

Module KaTeXHandler.
Import JS Regex Fence.

Record block : Type := {
  code : str;
  display : bool
}.

Definition katexMap := list (str * block).

Record protectResult : Type := {
  protected : str;
  katexMapOf : katexMap
}.

(** The callback of [protect]. *)
Definition onBlock (m : katexMap) (code : str) : katexMap * str :=
  let trimmedCode := trim code in
  let id := lit "KATEX_" ++ Hash.hashCode trimmedCode in
  (MathProtector.map_set m id {| code := trimmedCode; display := true |},
   placeholder "katex-placeholder" "data-katex-id" id).

(** [protect(text)] *)
Definition protect (text : str) : protectResult :=
  let (m, protectedText) := replaceBlocks "katex" onBlock [] text in
  {| protected := protectedText; katexMapOf := m |}.

(** [hasKaTeXBlocks(text)] *)
Definition hasKaTeXBlocks (text : str) : bool :=
  test (lits_ci (lit "```katex")) text.

End KaTeXHandler.

(** ** Vocabulary of the statements *)

Module Props.
Import MathProtector.

(** A token whose number is [n]. *)
Definition tokenNumbered (k : str) (n : nat) : Prop :=
  k = mathPlaceholder n \/ k = pendingPlaceholder n.

(** One turn of the scan loop moves the cursor forward and shortens the
    text that is still to be scanned. *)
Definition step_advances (cd : codec) (d : delim) (st : scan) : Prop :=
  searchPos st < length (result st) ->
  match scan_step cd d st with
  | Some (Continue st') =>
      searchPos st < searchPos st' /\
      length (result st') - searchPos st' <
      length (result st) - searchPos st
  | Some (Break _) => True
  | None => False
  end.

(** The texts of a table row: [original] and [innerContent]. *)
Definition rowFields (i : MathInfo) : list str :=
  [original i; innerContent i].

(** The display flags of the rows named by [tokens], listed in the order
    in which the tokens occur in the protected text. *)
Definition displayFlags (m : mathMap) (tokens : list str) : list (option bool) :=
  List.map (fun k => option_map isDisplay (map_get m k)) tokens.

(** A currency mask [::CUR<n>::] occurs in [s]. *)
Definition hasCurrencyMask (s : str) : bool := Regex.test re_curToken s.

(** The contents delivered to the tracker when [chunks] are appended one
    after the other: the growing prefixes of the stream. *)
Fixpoint prefixesFrom (acc : str) (chunks : list str) : list str :=
  match chunks with
  | [] => []
  | c :: cs => (acc ++ c) :: prefixesFrom (acc ++ c) cs
  end.

Definition prefixes (chunks : list str) : list str := prefixesFrom [] chunks.

(** The three families of placeholders and the word each begins with. *)
Inductive kind : Type := KMath | KPending | KCur.

Definition kword (k : kind) : str :=
  match k with
  | KMath => lit "MATH_"
  | KPending => lit "PENDINGMATH"
  | KCur => lit "CUR"
  end.

(** A text free of the names of the placeholders: nowhere does it hold
    MATH_, PENDINGMATH or CUR followed by a digit. *)
Definition clean (s : str) : Prop :=
  forall k d, Regex.isDigit d = true ->
              JS.includes (kword k ++ [d]) s = false.

(** The same, as a test. *)
Definition cleanb (s : str) : bool :=
  forallb
    (fun k =>
       forallb (fun d => negb (JS.includes (kword k ++ [d]) s))
               (lit "0123456789"))
    [KMath; KPending; KCur].

(** Signature [s] is extracted from the content [c]. *)
Definition extracted (c s : str) : Prop :=
  exists sigs,
    StreamingMathRenderer.extractFormulaSignatures c = Some sigs /\
    In s sigs.

(** The backend is present and, on every page that [renderMarkdown] has
    just written from a content that holds a formula, it returns and has
    rendered something new. *)
Definition rendersFreshPages (Dom : Type) (be : backend Dom)
           (renderPage : str -> Dom) : Prop :=
  exists f, renderMathInElement be = Some f /\
    forall content s, extracted content s ->
      exists d',
        f (renderPage content) = Returned d' /\
        katexCount be (renderPage content) < katexCount be d'.

(** The seen-set of the tracker of a stream renderer. *)
Definition seen (Dom : Type) (r : StreamRenderer.renderer Dom) : list str :=
  StreamingMathRenderer.seenFormulas (StreamRenderer.streamingMathRenderer r).

(** Every match of the pattern [r] consumes a code unit with the
    property [P]. *)
Fixpoint needs (P : char -> Prop) (r : Regex.regex) : Prop :=
  match r with
  | Regex.Cls q => forall c, q c = true -> P c
  | Regex.Seq a b => needs P a \/ needs P b
  | Regex.Alt a b => needs P a /\ needs P b
  | _ => False
  end.

(** The code units of a plain amount: digits, dots and commas. *)
Definition amountChar (c : char) : bool :=
  Regex.isDigit c || (c =? ch ".")%N || (c =? ch ",")%N.

(** The polynomial hash of a string: [31 * h + c] over its code units. *)
Definition poly31 (s : str) : Z :=
  fold_left (fun h c => 31 * h + Z.of_N c)%Z s 0%Z.

(** The value of a digit of [toString(radix)]: [0-9], then [a-z]. *)
Definition digitValue (c : char) : Z :=
  if Regex.isDigit c then (Z.of_N c - 48)%Z else (Z.of_N c - 87)%Z.

(** The number that a string of such digits denotes. *)
Definition parseRadix (radix : Z) (s : str) : Z :=
  fold_left (fun acc c => acc * radix + digitValue c)%Z s 0%Z.

Definition isHexDigit (c : char) : bool :=
  Regex.isDigit c || ((97 <=? c) && (c <=? 102))%N.

Definition isBase36Digit (c : char) : bool :=
  Regex.isDigit c || Regex.isLower c.

(** The test that makes an unterminated span a pending one: its content
    is not empty and holds a backslash, a caret, an opening brace or one
    of the words [begin] and [frac]. *)
Definition mathLike (s : str) : bool :=
  (0 <? length s) &&
  (JS.includes (lit "\") s
   || JS.includes (lit "^") s
   || JS.includes (lit "{") s
   || JS.includes (lit "begin") s
   || JS.includes (lit "frac") s).

(** The text of a span, put together again from its markers and its
    inner content; a pending span has no right marker. *)
Definition spelled (i : MathInfo) : str :=
  left (delimiter i) ++ innerContent i ++
  (if isPending i then [] else right (delimiter i)).

(** Every dollar sign of [s] follows a backslash. *)
Definition dollarsEscaped (s : str) : Prop :=
  forall a b, s = a ++ c_dollar :: b -> exists a', a = a' ++ [c_bslash].

(** What the scan of delimiter [d] stores in a row. *)
Definition rowOf (cd : codec) (d : delim) (i : MathInfo) : Prop :=
  delimiter i = d /\
  isDisplay i = display d /\
  encodedOriginal i = encodeBase64 cd (original i) /\
  original i = spelled i /\
  if isPending i
  then mathLike (innerContent i) = true /\
       JS.includes [c_nl; c_nl] (original i) = false /\
       (isDollar d = true ->
        CurrencyDetector.looksLikeCurrency (firstField (innerContent i))
        = false)
  else JS.blank (innerContent i) = false /\
       Regex.test re_curToken (innerContent i) = false /\
       (isDollar d = false ->
        JS.includes (right d) (innerContent i) = false) /\
       (isDollar d = true ->
        JS.includes [c_nl] (innerContent i) = false /\
        JS.includes [c_cr] (innerContent i) = false /\
        CurrencyDetector.looksLikeCurrency (innerContent i) = false /\
        (right d = [c_dollar] -> dollarsEscaped (innerContent i))).


(** A pattern without the assertions [^], [$] and [\b]. *)
Fixpoint noLook (r : Regex.regex) : Prop :=
  match r with
  | Regex.Eps | Regex.Cls _ => True
  | Regex.Seq a b | Regex.Alt a b => noLook a /\ noLook b
  | Regex.Star a => noLook a
  | Regex.Bol | Regex.Eol | Regex.WordB => False
  end.

(** Every code unit that a match of [r] consumes has the property [P]. *)
Fixpoint within (P : char -> Prop) (r : Regex.regex) : Prop :=
  match r with
  | Regex.Cls q => forall c, q c = true -> P c
  | Regex.Seq a b | Regex.Alt a b => within P a /\ within P b
  | Regex.Star a => within P a
  | _ => True
  end.

(** The pattern [r] matches the whole of [s]. *)
Definition full (r : Regex.regex) (prev : option char) (s : str) : Prop :=
  In (length s) (Regex.mlens r prev s).

(** A digit, a dot or a comma, as the class [[\d.,]] has them. *)
Definition amountP (c : char) : Prop :=
  Regex.orb_cls Regex.isDigit (Regex.oneOf (lit ".,")) c = true.

(** Two code units that the [i] flag does not tell apart. *)
Definition sameLetter (x c : char) : bool :=
  N.eqb (Regex.toLower x) (Regex.toLower c).

(** [w] stands at the head of [s], up to the case of the letters. *)
Fixpoint prefixci (w s : str) : bool :=
  match w, s with
  | [], _ => true
  | c :: w', x :: s' => sameLetter x c && prefixci w' s'
  | _ :: _, [] => false
  end.

(** [w] stands nowhere in [s], up to the case of the letters. *)
Definition absentci (w s : str) : Prop :=
  forall j, prefixci w (skipn j s) = false.

End Props.

(** A codec that keeps the text as it is. *)
Definition rawCodec : codec :=
  {| encodeBase64 := fun s => s; decodeBase64 := fun s => s |}.

(** A page that counts its rendered formulas, and a backend that renders
    the one formula of the page unless it is rendered already. *)
Definition countingBackend : backend nat :=
  {| renderMathInElement := Some (fun d => Returned (Nat.max d 1));
     katexCount := fun d => d |}.


(** [renderMarkdown] leaves nothing rendered by KaTeX in the page. *)
Definition freshPage (content : str) : nat := 0.

(** A tracker that has seen the formula [x^2] between single dollars. *)
Definition seenSquare : StreamingMathRenderer.tracker :=
  {| StreamingMathRenderer.seenFormulas :=
       [lit "$" ++ Hash.hashBase36 (lit "x^2")];
     StreamingMathRenderer.lastContentHash := [];
     StreamingMathRenderer.consecutiveSkips := 0;
     StreamingMathRenderer.lastCharWasWhitespace := false;
     StreamingMathRenderer.accumulatedContent := lit "$x^2$";
     StreamingMathRenderer.stat :=
       {| StreamingMathRenderer.rendersAttempted := 1;
          StreamingMathRenderer.rendersSkipped := 0;
          StreamingMathRenderer.rendersExecuted := 1 |} |}.

(** A text with the four kinds of span, a currency range and a price. *)
Definition mixedText : str :=
  lit "$a$ then $$b$$ then \[d\] and \(f\) cost $50-$100, not $5".

Definition plainOptions : MathProtector.options :=
  {| MathProtector.renderOnRestore := false; MathProtector.debug := false |}.
Definition defaultOptions : MathProtector.options :=
  {| MathProtector.renderOnRestore := true; MathProtector.debug := false |}.

(** A text with a complete span between single dollars and a pending
    one. *)
Definition squareAndPending : str := lit "$x^2$ and \(y^".

(** A table with one row, for the span [$x^2$]. *)
Definition squareRow : MathProtector.mathMap :=
  [(lit "::MATH_0::",
    {| MathProtector.original := lit "$x^2$";
       MathProtector.encodedOriginal := lit "$x^2$";
       MathProtector.isDisplay := false;
       MathProtector.innerContent := lit "x^2";
       MathProtector.delimiter := MathProtector.d_dollar;
       MathProtector.isPending := false |})].

(** A fenced formula, [```KaTeX], a line with [E=mc^2] and the closing
    fence. *)
Definition fencedFormula : str :=
  lit "```KaTeX  " ++ [c_nl] ++ lit "  E=mc^2 " ++ [c_nl] ++ lit "```".

(** A fenced diagram of two lines, written with the escape [\n] after
    the first of them, and its code as the handler stores it. *)
Definition fencedDiagram : str :=
  lit "```mermaid" ++ [c_nl] ++ lit "graph TD  \n  A-->B " ++ [c_nl]
                   ++ lit "```".

Definition fencedDiagramCode : str :=
  lit "graph TD" ++ [c_nl] ++ lit "  A-->B".

(** * Properties *)

(** ** The worked examples of the specification *)

Module Examples.
Import MathProtector Props.

(** The classifier on the two inputs the specification names, and on
    inputs of the unit tests of the repository. *)
Example classify_50 : CurrencyDetector.looksLikeCurrency (lit "50") = true.
Proof. vm_compute. reflexivity. Qed.

Example classify_square :
  CurrencyDetector.looksLikeCurrency (lit "x^2") = false.
Proof. vm_compute. reflexivity. Qed.

Example classify_unit_tests :
  List.map (fun s => CurrencyDetector.looksLikeCurrency (lit s))
    ["50/unit) ## **Impact on Operations**"; "y = mx + b"; "E = mc^2";
     "25, "; "P_0 = \$100"; "x + y"; "50-"; "a"]%string
  = [true; false; false; true; false; false; true; false].
Proof. vm_compute. reflexivity. Qed.

(** Unit tests of the repository: an escaped dollar inside a span, a
    dollar inside inline code, and an unfinished span. *)
Example protect_unit_tests :
  forall cd : codec,
    List.map
      (fun s =>
         match protect cd (create defaultOptions) (lit s) with
         | Some (_, r) =>
             Some (protected r,
                   List.map (fun kv => innerContent (snd kv)) (spans r))
         | None => None
         end)
      ["where $P_0 = \$100$"; "Use `$HOME` variable"; "$x^";
       "Budget: $100, formula: $y = mx + b$"]%string
    = [Some (lit "where ::MATH_0::", [lit "P_0 = \$100"]);
       Some (lit "Use `$HOME` variable", []);
       Some (lit "::PENDINGMATH0::", [lit "x^"]);
       Some (lit "Budget: $100, formula: ::MATH_0::", [lit "y = mx + b"])].
Proof. intros cd. vm_compute. reflexivity. Qed.

(** C4: on "The equation $x^2$ costs $50" the span table has exactly one
    row, for [$x^2$] with inner content [x^2]; the trailing [$50] stays
    in the text and yields no row, complete or pending. *)
Theorem protect_equation_and_price :
  forall (cd : codec) (o : options),
    protect cd (create o) (lit "The equation $x^2$ costs $50") =
    Some ({| counter := 1; currencyCounter := 0; currencyMap := [];
             opts := o |},
          {| protected := lit "The equation ::MATH_0:: costs $50";
             spans :=
               [(lit "::MATH_0::",
                 {| original := lit "$x^2$";
                    encodedOriginal := encodeBase64 cd (lit "$x^2$");
                    isDisplay := false;
                    innerContent := lit "x^2";
                    delimiter := d_dollar;
                    isPending := false |})] |}).
Proof.
  intros cd o. vm_compute. reflexivity.
Qed.

(** C5: six spans on the mixed-delimiter example; the tokens stand in the
    text in the order 3, 0, 4, 1, 5, 2, so that in document order the
    second and the fourth span are display-mode and the others inline;
    the delimiters are scanned in the order $$, \[, \(, $. *)
Theorem protect_six_spans :
  forall (cd : codec) (o : options),
    exists p r,
      protect cd (create o)
        (lit "$a$ then $$b$$ then $c$ then \[d\] then $e$ then \(f\)")
      = Some (p, r) /\
      length (spans r) = 6 /\
      protected r =
        lit "::MATH_3:: then ::MATH_0:: then ::MATH_4:: then ::MATH_1:: then ::MATH_5:: then ::MATH_2::" /\
      List.map (fun kv => (fst kv, original (snd kv), isPending (snd kv)))
               (spans r) =
        [(lit "::MATH_0::", lit "$$b$$", false);
         (lit "::MATH_1::", lit "\[d\]", false);
         (lit "::MATH_2::", lit "\(f\)", false);
         (lit "::MATH_3::", lit "$a$", false);
         (lit "::MATH_4::", lit "$c$", false);
         (lit "::MATH_5::", lit "$e$", false)] /\
      displayFlags (spans r)
        [lit "::MATH_3::"; lit "::MATH_0::"; lit "::MATH_4::";
         lit "::MATH_1::"; lit "::MATH_5::"; lit "::MATH_2::"] =
        [Some false; Some true; Some false; Some true; Some false;
         Some false] /\
      List.map left delimiters = [lit "$$"; lit "\["; lit "\("; lit "$"].
Proof.
  intros cd o. eexists. eexists.
  split; [vm_compute; reflexivity|].
  repeat split; vm_compute; reflexivity.
Qed.

(** C6: "Range: $50-$100" yields an empty span table, and [protect]
    followed by [restore] without rendering gives the input back. *)
Theorem protect_currency_range :
  forall (cd : codec) (o : options) (katexLib : option katex),
    exists p r,
      protect cd (create o) (lit "Range: $50-$100") = Some (p, r) /\
      spans r = [] /\
      protected r = lit "Range: $50-$100" /\
      currencyMap p = [(lit "::CUR0::", lit "$50-$100")] /\
      restore cd p katexLib (protected r) (spans r) = lit "Range: $50-$100".
Proof.
  intros cd o k. eexists. eexists.
  split; [vm_compute; reflexivity|].
  repeat split; vm_compute; reflexivity.
Qed.

End Examples.

(** ** Facts about the string primitives *)

Module StringFacts.
Import JS.

Lemma char_eqb_eq (a b : char) : char_eqb a b = true <-> a = b.
Proof. unfold char_eqb. apply N.eqb_eq. Qed.

Lemma char_eqb_refl (a : char) : char_eqb a a = true.
Proof. apply char_eqb_eq. reflexivity. Qed.

Lemma str_eqb_eq (a b : str) : str_eqb a b = true <-> a = b.
Proof.
  revert b. induction a as [|x a IH]; intros [|y b]; simpl;
    try (split; [discriminate|discriminate]); try tauto.
  rewrite andb_true_iff, char_eqb_eq, IH.
  split; [intros [-> ->]; reflexivity | intros H; inversion H; auto].
Qed.

Lemma str_eqb_refl (a : str) : str_eqb a a = true.
Proof. apply str_eqb_eq. reflexivity. Qed.

Lemma str_eqb_neq (a b : str) : a <> b -> str_eqb a b = false.
Proof.
  intros H. destruct (str_eqb a b) eqn:E; [|reflexivity].
  apply str_eqb_eq in E. contradiction.
Qed.

Lemma prefixb_app (p t : str) : prefixb p (p ++ t) = true.
Proof.
  induction p as [|x p IH]; simpl; [reflexivity|].
  rewrite char_eqb_refl. exact IH.
Qed.

Lemma prefixb_true (p s : str) :
  prefixb p s = true -> s = p ++ skipn (length p) s.
Proof.
  revert s. induction p as [|x p IH]; intros s H; simpl in *.
  - reflexivity.
  - destruct s as [|y s]; [discriminate|].
    apply andb_true_iff in H. destruct H as [H1 H2].
    apply char_eqb_eq in H1. subst y. simpl. f_equal. apply IH, H2.
Qed.

Lemma prefixb_length (p s : str) :
  prefixb p s = true -> length p <= length s.
Proof.
  intros H. apply prefixb_true in H.
  apply (f_equal (@length char)) in H. rewrite length_app in H. lia.
Qed.

Lemma find_bound (n s : str) (i : nat) :
  find n s = Some i -> i + length n <= length s.
Proof.
  revert i. induction s as [|c s IH]; intros i; simpl.
  - destruct (prefixb n []) eqn:E; [|discriminate].
    intros H. inversion H. apply prefixb_length in E. simpl in *. lia.
  - destruct (prefixb n (c :: s)) eqn:E.
    + intros H. inversion H. apply prefixb_length in E. simpl in *. lia.
    + destruct (find n s) as [j|]; simpl; [|discriminate].
      intros H. inversion H. specialize (IH j eq_refl). lia.
Qed.

Lemma find_prefix (n s : str) (i : nat) :
  find n s = Some i -> prefixb n (skipn i s) = true.
Proof.
  revert i. induction s as [|c s IH]; intros i; simpl.
  - destruct (prefixb n []) eqn:E; [|discriminate].
    intros H. inversion H. exact E.
  - destruct (prefixb n (c :: s)) eqn:E.
    + intros H. inversion H. exact E.
    + destruct (find n s) as [j|]; simpl; [|discriminate].
      intros H. inversion H. simpl. apply IH. reflexivity.
Qed.

Lemma find_first (n s : str) (i : nat) :
  find n s = Some i -> forall j, j < i -> prefixb n (skipn j s) = false.
Proof.
  revert i. induction s as [|c s IH]; intros i; simpl.
  - destruct (prefixb n []) eqn:E; [|discriminate].
    intros H. inversion H. lia.
  - destruct (prefixb n (c :: s)) eqn:E.
    + intros H. inversion H. lia.
    + destruct (find n s) as [k|]; simpl; [|discriminate].
      intros H. inversion H. intros [|j] Hj; simpl; [exact E|].
      apply (IH k eq_refl). lia.
Qed.

Lemma find_none (n s : str) :
  find n s = None -> forall j, prefixb n (skipn j s) = false.
Proof.
  induction s as [|c s IH]; simpl.
  - destruct (prefixb n []) eqn:E; [discriminate|].
    intros _ [|j]; exact E.
  - destruct (prefixb n (c :: s)) eqn:E; [discriminate|].
    destruct (find n s) as [k|]; simpl; [discriminate|].
    intros _ [|j]; simpl; [exact E|]. apply IH. reflexivity.
Qed.

Lemma indexOf_bound (n s : str) (from i : nat) :
  indexOf n s from = Some i ->
  Nat.min from (length s) <= i /\ i + length n <= length s.
Proof.
  unfold indexOf. destruct (find n (skipn from s)) as [j|] eqn:E;
    simpl; [|discriminate].
  intros H. inversion H. apply find_bound in E.
  rewrite length_skipn in E. lia.
Qed.

End StringFacts.

(** ** The fuel of the matcher is enough *)

Module Fuel.
Import Regex.

Definition bounded (m : option char -> str -> list nat) : Prop :=
  forall prev s n, In n (m prev s) -> n <= length s.

Lemma star_lens_bound (m : option char -> str -> list nat) :
  bounded m ->
  forall fuel prev s n, In n (star_lens m fuel prev s) -> n <= length s.
Proof.
  intros Hm. induction fuel as [|f IH]; intros prev s n; simpl.
  - intros [<-|[]]. lia.
  - rewrite in_app_iff, in_flat_map. intros [[k [Hk Hn]]|[<-|[]]]; [|lia].
    destruct k as [|k]; [destruct Hn|].
    apply in_map_iff in Hn. destruct Hn as [j [<- Hj]].
    apply IH in Hj. apply Hm in Hk. rewrite length_skipn in Hj. lia.
Qed.

Lemma mlens_bound (r : regex) : bounded (mlens r).
Proof.
  induction r as [|p|a IHa b IHb|a IHa b IHb|a IHa| | |];
    intros prev s n; simpl.
  - intros [<-|[]]. lia.
  - destruct s as [|c s]; [intros []|].
    destruct (p c); [|intros []]. intros [<-|[]]. simpl. lia.
  - rewrite in_flat_map. intros [k [Hk Hn]].
    apply in_map_iff in Hn. destruct Hn as [j [<- Hj]].
    apply IHa in Hk. apply IHb in Hj. rewrite length_skipn in Hj. lia.
  - rewrite in_app_iff. intros [H|H]; [apply IHa in H|apply IHb in H]; lia.
  - apply star_lens_bound, IHa.
  - destruct prev; [intros []|]. intros [<-|[]]. lia.
  - destruct s; [|intros []]. intros [<-|[]]. lia.
  - destruct (xorb _ _); [|intros []]. intros [<-|[]]. lia.
Qed.

Lemma flat_map_ext_in (A B : Type) (f g : A -> list B) (l : list A) :
  (forall x, In x l -> f x = g x) -> flat_map f l = flat_map g l.
Proof.
  induction l as [|x l IH]; intros H; simpl; [reflexivity|].
  rewrite (H x (or_introl eq_refl)). f_equal. apply IH.
  intros y Hy. apply H. right. exact Hy.
Qed.

(** Greedy repetition never needs more turns than the input has code
    units. *)
Lemma star_lens_enough (m : option char -> str -> list nat) :
  bounded m ->
  forall f1 f2 prev s,
    length s <= f1 -> length s <= f2 ->
    star_lens m f1 prev s = star_lens m f2 prev s.
Proof.
  intros Hm.
  assert (Hempty : forall f prev, star_lens m f prev [] = [0]).
  { intros [|f] prev; simpl; [reflexivity|].
    replace (flat_map _ (m prev [])) with (@nil nat); [reflexivity|].
    symmetry. rewrite <- (flat_map_ext_in (fun _ => @nil nat)).
    - induction (m prev []); simpl; auto.
    - intros k Hk. apply Hm in Hk. simpl in Hk.
      destruct k; [reflexivity|lia]. }
  induction f1 as [|f1 IH]; intros f2 prev s H1 H2.
  - destruct s; [|simpl in H1; lia]. rewrite !Hempty. reflexivity.
  - destruct f2 as [|f2].
    + destruct s; [|simpl in H2; lia]. rewrite !Hempty. reflexivity.
    + simpl. f_equal. apply flat_map_ext_in. intros k Hk.
      destruct k as [|k]; [reflexivity|]. f_equal.
      apply Hm in Hk. apply IH; rewrite length_skipn; lia.
Qed.

Lemma exec_from_bound (r : regex) :
  forall s prev pos i n,
    exec_from r prev s pos = Some (i, n) ->
    pos <= i /\ i - pos + n <= length s.
Proof.
  induction s as [|c s IH]; intros prev pos i n; simpl.
  - destruct (mlens r prev []) as [|k l] eqn:E; [discriminate|].
    intros H. inversion H. subst.
    assert (Hk : In n (mlens r prev [])) by (rewrite E; left; reflexivity).
    apply mlens_bound in Hk. simpl in Hk. lia.
  - destruct (mlens r prev (c :: s)) as [|k l] eqn:E.
    + intros H. apply IH in H. lia.
    + intros H. inversion H. subst.
      assert (Hk : In n (mlens r prev (c :: s)))
        by (rewrite E; left; reflexivity).
      apply mlens_bound in Hk. simpl in Hk. lia.
Qed.

(** The cursor of [match] and [replace] with the [g] flag moves forward
    at every match, so as many turns as the input has code units, and
    one more, are enough. *)
Lemma matchAll_fuel_enough (r : regex) :
  forall f1 f2 prev s,
    length s < f1 -> length s < f2 ->
    matchAll_fuel f1 r prev s = matchAll_fuel f2 r prev s.
Proof.
  induction f1 as [|f1 IH]; intros f2 prev s H1 H2; [lia|].
  destruct f2 as [|f2]; [lia|]. simpl.
  destruct (exec_from r prev s 0) as [[i n]|] eqn:Ex; [|reflexivity].
  apply exec_from_bound in Ex.
  f_equal. destruct n as [|n].
  - destruct (skipn i s) as [|c s'] eqn:E; [reflexivity|].
    apply IH; apply (f_equal (@length char)) in E;
      rewrite length_skipn in E; simpl in E; lia.
  - apply IH; rewrite length_skipn; lia.
Qed.

Lemma replace_fuel_enough (A : Type) (r : regex)
      (fn : A -> str -> A * str) :
  forall f1 f2 a prev s,
    length s < f1 -> length s < f2 ->
    replace_fuel f1 r fn a prev s = replace_fuel f2 r fn a prev s.
Proof.
  induction f1 as [|f1 IH]; intros f2 a prev s H1 H2; [lia|].
  destruct f2 as [|f2]; [lia|]. simpl.
  destruct (exec_from r prev s 0) as [[i n]|] eqn:Ex; [|reflexivity].
  apply exec_from_bound in Ex.
  destruct (fn a (firstn n (skipn i s))) as [a1 rep].
  destruct n as [|n].
  - destruct (skipn i s) as [|c s'] eqn:E; [reflexivity|].
    rewrite (IH f2 a1 (Some c) s'); [reflexivity| |];
      apply (f_equal (@length char)) in E;
      rewrite length_skipn in E; simpl in E; lia.
  - rewrite (IH f2 a1 (lastChar prev s (i + S n)) (skipn (i + S n) s));
      [reflexivity| |]; rewrite length_skipn; lia.
Qed.

End Fuel.

(** ** Termination of the scan *)

Module Termination.
Import MathProtector Props StringFacts.

(** What the scan needs of a delimiter: both markers are non-empty and
    the left one does not begin with a line feed. *)
Definition wf_delim (d : delim) : Prop :=
  0 < length (left d) /\ 0 < length (right d) /\
  hd_error (left d) <> Some c_nl.

Lemma delimiters_wf : Forall wf_delim delimiters.
Proof.
  repeat constructor; simpl; try lia; discriminate.
Qed.

Lemma findCloser_total (fuel : nat) (res r : str) (pb : option nat)
      (t : nat) :
  length res - t < fuel -> findCloser fuel res r pb t <> None.
Proof.
  revert t. induction fuel as [|f IH]; intros t Hf; [lia|].
  simpl. destruct (t <? length res) eqn:Et; [|discriminate].
  apply Nat.ltb_lt in Et.
  destruct (JS.indexOf r res t) as [fp|] eqn:Ei; [|discriminate].
  apply indexOf_bound in Ei.
  destruct (match pb with Some b => b <? fp | None => false end);
    [discriminate|].
  destruct (precededByBackslash res fp); [|discriminate].
  apply IH. lia.
Qed.

Lemma findCloser_bound (fuel : nat) (res r : str) (pb : option nat)
      (t rp : nat) :
  findCloser fuel res r pb t = Some (Some rp) ->
  t <= rp /\ rp + length r <= length res.
Proof.
  revert t. induction fuel as [|f IH]; intros t; simpl; [discriminate|].
  destruct (t <? length res) eqn:Et; [|discriminate].
  apply Nat.ltb_lt in Et.
  destruct (JS.indexOf r res t) as [fp|] eqn:Ei; [|discriminate].
  apply indexOf_bound in Ei.
  destruct (match pb with Some b => b <? fp | None => false end);
    [discriminate|].
  destruct (precededByBackslash res fp).
  - intros H. apply IH in H. lia.
  - intros H. inversion H. subst. lia.
Qed.

Lemma skipn_min (s : str) (from j : nat) :
  skipn (Nat.min from (length s) + j) s = skipn j (skipn from s).
Proof.
  rewrite skipn_skipn.
  destruct (Nat.le_gt_cases from (length s)).
  - rewrite Nat.min_l by lia. f_equal. lia.
  - rewrite Nat.min_r by lia.
    rewrite !skipn_all2 by lia. reflexivity.
Qed.

Lemma indexOf_prefix (n s : str) (from i : nat) :
  JS.indexOf n s from = Some i -> JS.prefixb n (skipn i s) = true.
Proof.
  unfold JS.indexOf. destruct (JS.find n (skipn from s)) as [j|] eqn:E;
    simpl; [|discriminate].
  intros H. inversion H. rewrite skipn_min. apply find_prefix, E.
Qed.

Lemma paragraph_after_left (d : delim) (res : str) (leftPos b : nat) :
  wf_delim d ->
  JS.prefixb (left d) (skipn leftPos res) = true ->
  JS.indexOf [c_nl; c_nl] res leftPos = Some b ->
  leftPos < b.
Proof.
  intros (Hl & _ & Hnl) Hp Hi.
  pose proof (indexOf_bound _ _ _ Hi) as [Hb1 Hb2].
  pose proof (prefixb_length _ _ Hp) as Hlen. rewrite length_skipn in Hlen.
  assert (leftPos <= b) by lia.
  destruct (Nat.eq_dec leftPos b) as [->|]; [|lia].
  exfalso.
  apply indexOf_prefix in Hi.
  destruct (skipn b res) as [|c r]; [discriminate|].
  destruct (left d) as [|x l]; [simpl in Hl; lia|].
  cbn [JS.prefixb hd_error] in Hp, Hi, Hnl.
  apply andb_true_iff in Hp. destruct Hp as [Hp _].
  apply andb_true_iff in Hi. destruct Hi as [E _].
  apply char_eqb_eq in Hp. apply char_eqb_eq in E. subst. congruence.
Qed.

Lemma findRight_total (d : delim) (res : str) (leftPos : nat) :
  findRight d res leftPos <> None.
Proof.
  unfold findRight.
  destruct (isDollars d).
  - destruct (_ <? _); discriminate.
  - destruct (isDollar d); [|discriminate].
    apply findCloser_total. lia.
Qed.

Lemma findRight_bound (d : delim) (res : str) (leftPos rp : nat) :
  leftPos + length (left d) <= length res ->
  findRight d res leftPos = Some (Some rp) ->
  leftPos + length (left d) <= rp /\ rp + length (right d) <= length res.
Proof.
  unfold findRight. intros Hl.
  destruct (isDollars d).
  - destruct (_ <? _); [|discriminate].
    intros H. inversion H as [H1]. apply indexOf_bound in H1. lia.
  - destruct (isDollar d).
    + apply findCloser_bound.
    + intros H. inversion H as [H1]. apply indexOf_bound in H1. lia.
Qed.

Lemma substring_0 (s : str) (a : nat) : JS.substring s 0 a = firstn a s.
Proof.
  unfold JS.substring. rewrite Nat.min_0_l, Nat.max_0_l, Nat.sub_0_r.
  reflexivity.
Qed.

Lemma splice_measure (res ph : str) (a e : nat) :
  a <= length res -> e <= length res ->
  length (JS.substring res 0 a ++ ph ++ JS.substringFrom res e)
  - (a + length ph) = length res - e.
Proof.
  intros Ha He. rewrite substring_0. unfold JS.substringFrom.
  rewrite !length_app, length_firstn, length_skipn. lia.
Qed.

Lemma placeholder_nonempty (n : nat) :
  0 < length (mathPlaceholder n) /\ 0 < length (pendingPlaceholder n).
Proof.
  unfold mathPlaceholder, pendingPlaceholder.
  rewrite !length_app. simpl. lia.
Qed.

Lemma scan_step_advances (cd : codec) (d : delim) (st : scan) :
  wf_delim d -> step_advances cd d st.
Proof.
  intros Hwf Hlt. unfold scan_step.
  destruct (JS.indexOf (left d) (result st) (searchPos st)) as [leftPos|] eqn:El;
    [|exact I].
  pose proof (indexOf_bound _ _ _ El) as [Hb1 Hb2].
  pose proof (indexOf_prefix _ _ _ El) as Hpre.
  assert (Hs : searchPos st <= leftPos) by lia.
  destruct Hwf as (Hl & Hr & Hnl).
  assert (Hskip : forall (q : nat), searchPos st < q -> q <= length (result st) ->
     searchPos st < searchPos (skipTo st q) /\
     length (result (skipTo st q)) - searchPos (skipTo st q) <
     length (result st) - searchPos st).
  { intros q H1 H2. simpl. lia. }
  destruct (isDollar d && precededByBackslash (result st) leftPos);
    [apply Hskip; lia|].
  destruct (isDollar d && isInsideBackticks (result st) leftPos);
    [apply Hskip; lia|].
  pose proof (findRight_total d (result st) leftPos) as Htot.
  destruct (findRight d (result st) leftPos) as [[rp|]|] eqn:Ef;
    [| |congruence].
  - apply findRight_bound in Ef; [|lia].
    destruct (JS.blank _); [apply Hskip; lia|].
    destruct (isDollar d && _); [apply Hskip; lia|].
    destruct (Regex.test _ _); [apply Hskip; lia|].
    destruct (isDollar d && _); [apply Hskip; lia|].
    cbn [result searchPos].
    pose proof (placeholder_nonempty (ctr st)) as [Hp _].
    split; [lia|].
    rewrite splice_measure by lia. lia.
  - destruct (isDollar d && _); [apply Hskip; lia|].
    destruct (_ && _); [|exact I].
    cbn [result searchPos].
    pose proof (placeholder_nonempty (ctr st)) as [_ Hp].
    split; [lia|].
    destruct (JS.indexOf [c_nl; c_nl] (result st) leftPos) as [b|] eqn:Eb.
    + pose proof (@paragraph_after_left d (result st) leftPos b
                    (conj Hl (conj Hr Hnl)) Hpre Eb).
      apply indexOf_bound in Eb. simpl in Eb.
      rewrite splice_measure by lia. lia.
    + rewrite splice_measure by lia. lia.
Qed.

Lemma scan_loop_total (cd : codec) (d : delim) :
  wf_delim d ->
  forall (fuel : nat) (st : scan),
    length (result st) - searchPos st < fuel ->
    exists st', scan_loop fuel cd d st = Some st'.
Proof.
  intros Hwf. induction fuel as [|f IH]; intros st Hf; [lia|].
  simpl. destruct (searchPos st <? length (result st)) eqn:E;
    [|eexists; reflexivity].
  apply Nat.ltb_lt in E.
  pose proof (@scan_step_advances cd d st Hwf E) as Hadv.
  destruct (scan_step cd d st) as [[st'|st']|]; [| |contradiction].
  - apply IH. lia.
  - eexists; reflexivity.
Qed.

Lemma extractAndReplace_total (cd : codec) (d : delim) (content : str)
      (m : mathMap) (c : nat) :
  wf_delim d -> exists out, extractAndReplace cd content d m c = Some out.
Proof.
  intros Hwf. unfold extractAndReplace.
  destruct (@scan_loop_total cd d Hwf (S (length content))
              {| result := content; searchPos := 0; table := m; ctr := c |})
    as [st' ->]; [simpl; lia|].
  eexists; reflexivity.
Qed.

Lemma protectDelims_total (cd : codec) (ds : list delim) :
  Forall wf_delim ds ->
  forall (content : str) (m : mathMap) (c : nat),
    exists out, protectDelims cd ds content m c = Some out.
Proof.
  induction 1 as [|d ds Hd _ IH]; intros content m c; simpl.
  - eexists; reflexivity.
  - destruct (@extractAndReplace_total cd d content m c Hd)
      as [[[content' m'] c'] ->].
    apply IH.
Qed.

(** C10: [protect] returns on every input, and every turn of the scan
    loop of each of the four delimiters moves the cursor forward while
    the text still to be scanned gets shorter. *)
Theorem protect_terminates :
  (forall (cd : codec) (p : protector) (content : str),
      exists out, protect cd p content = Some out) /\
  (forall (cd : codec) (st : scan),
      Forall (fun d => step_advances cd d st) delimiters).
Proof.
  split.
  - intros cd p content. unfold protect.
    destruct content as [|c content]; [eexists; reflexivity|].
    destruct (Regex.replace _ _ _ _) as [p1 masked].
    destruct (@protectDelims_total cd delimiters delimiters_wf masked []
                (counter p1)) as [[[scanned m] c'] ->].
    eexists; reflexivity.
  - intros cd st.
    pose proof delimiters_wf as H.
    induction H as [|d ds Hd _ IH]; constructor; auto.
    apply scan_step_advances, Hd.
Qed.

End Termination.

(** ** The placeholder strings *)

Module Tokens.
Import MathProtector Props StringFacts.

Lemma ch_inj (a b : ascii) : ch a = ch b -> a = b.
Proof.
  unfold ch. intros H.
  rewrite <- (ascii_N_embedding a), <- (ascii_N_embedding b), H.
  reflexivity.
Qed.

Lemma lit_inj (a b : string) : lit a = lit b -> a = b.
Proof.
  unfold lit. intros H.
  rewrite <- (string_of_list_ascii_of_string a),
          <- (string_of_list_ascii_of_string b).
  f_equal. revert H.
  generalize (list_ascii_of_string a) (list_ascii_of_string b).
  induction l as [|x l IH]; intros [|y l']; simpl; intros H;
    try discriminate; [reflexivity|].
  inversion H as [[H1 H2]]. apply ch_inj in H1. subst. f_equal. auto.
Qed.

Lemma decimal_inj (n m : nat) : decimal n = decimal m -> n = m.
Proof.
  unfold decimal. intros H. apply lit_inj in H.
  assert (E : Some (Nat.to_uint n) = Some (Nat.to_uint m)).
  { rewrite <- !NilEmpty.usu, H. reflexivity. }
  inversion E as [E'].
  rewrite <- (Unsigned.of_to n), <- (Unsigned.of_to m), E'. reflexivity.
Qed.

Lemma uint_digits (d : Decimal.uint) :
  Forall (fun c => Regex.isDigit c = true) (lit (NilEmpty.string_of_uint d)).
Proof.
  induction d; simpl; constructor; auto.
Qed.

Lemma decimal_digits (n : nat) :
  Forall (fun c => Regex.isDigit c = true) (decimal n).
Proof. apply uint_digits. Qed.

Lemma mathPlaceholder_inj (n m : nat) :
  mathPlaceholder n = mathPlaceholder m -> n = m.
Proof.
  unfold mathPlaceholder. intros H.
  apply app_inv_head in H. apply app_inv_tail in H.
  apply decimal_inj, H.
Qed.

Lemma pendingPlaceholder_inj (n m : nat) :
  pendingPlaceholder n = pendingPlaceholder m -> n = m.
Proof.
  unfold pendingPlaceholder. intros H.
  apply app_inv_head in H. apply app_inv_tail in H.
  apply decimal_inj, H.
Qed.

Lemma math_not_pending (n m : nat) :
  mathPlaceholder n <> pendingPlaceholder m.
Proof.
  unfold mathPlaceholder, pendingPlaceholder. cbn. discriminate.
Qed.

Lemma tokenNumbered_inj (k : str) (n m : nat) :
  tokenNumbered k n -> tokenNumbered k m -> n = m.
Proof.
  intros [-> | ->] [H | H].
  - apply mathPlaceholder_inj, H.
  - exfalso. apply (math_not_pending H).
  - exfalso. symmetry in H. apply (math_not_pending H).
  - apply pendingPlaceholder_inj, H.
Qed.

End Tokens.

(** ** One turn of the scan loop, by cases *)

Module ScanFacts.
Import MathProtector Props StringFacts Termination.

(** The three ways in which a turn of the scan loop can end: leave the
    loop, move the cursor, or capture the text between [a] and [e] under
    a fresh placeholder. *)
Inductive step_case (cd : codec) (d : delim) (st : scan) : flow -> Prop :=
| case_break : step_case cd d st (Break st)
| case_skip (q : nat) :
    searchPos st < q -> q <= length (result st) ->
    step_case cd d st (Continue (skipTo st q))
| case_capture (a e : nat) (ph : str) (info : MathInfo) :
    searchPos st <= a -> a < e -> e <= length (result st) ->
    JS.prefixb (left d) (skipn a (result st)) = true ->
    (if isPending info
     then ph = pendingPlaceholder (ctr st) /\
          (e = length (result st) \/
           JS.prefixb [c_nl; c_nl] (skipn e (result st)) = true)
     else ph = mathPlaceholder (ctr st) /\
          exists rp, e = rp + length (right d) /\
                     JS.prefixb (right d) (skipn rp (result st)) = true) ->
    original info = JS.substring (result st) a e ->
    encodedOriginal info = encodeBase64 cd (original info) ->
    step_case cd d st
      (Continue {| result := firstn a (result st) ++ ph
                             ++ skipn e (result st);
                   searchPos := a + length ph;
                   table := map_set (table st) ph info;
                   ctr := S (ctr st) |}).

Lemma findCloser_prefix (fuel : nat) (res r : str) (pb : option nat)
      (t rp : nat) :
  findCloser fuel res r pb t = Some (Some rp) ->
  JS.prefixb r (skipn rp res) = true.
Proof.
  revert t. induction fuel as [|f IH]; intros t; simpl; [discriminate|].
  destruct (t <? length res); [|discriminate].
  destruct (JS.indexOf r res t) as [fp|] eqn:Ei; [|discriminate].
  destruct (match pb with Some b => b <? fp | None => false end);
    [discriminate|].
  destruct (precededByBackslash res fp).
  - apply IH.
  - intros H. inversion H. subst. apply (indexOf_prefix _ _ _ Ei).
Qed.

Lemma findRight_prefix (d : delim) (res : str) (leftPos rp : nat) :
  findRight d res leftPos = Some (Some rp) ->
  JS.prefixb (right d) (skipn rp res) = true.
Proof.
  unfold findRight.
  destruct (isDollars d).
  - destruct (_ <? _); [|discriminate].
    intros H. inversion H as [H1]. apply (indexOf_prefix _ _ _ H1).
  - destruct (isDollar d).
    + apply findCloser_prefix.
    + intros H. inversion H as [H1]. apply (indexOf_prefix _ _ _ H1).
Qed.

Lemma some_inj (A : Type) (a b : A) : Some a = Some b -> a = b.
Proof. intros H. injection H. auto. Qed.

Lemma scan_step_cases (cd : codec) (d : delim) (st : scan) (out : flow) :
  wf_delim d ->
  searchPos st < length (result st) ->
  scan_step cd d st = Some out ->
  step_case cd d st out.
Proof.
  intros Hwf Hlt. unfold scan_step.
  destruct (JS.indexOf (left d) (result st) (searchPos st))
    as [leftPos|] eqn:El.
  2:{ intros H. inversion H. constructor. }
  pose proof (indexOf_bound _ _ _ El) as [Hb1 Hb2].
  pose proof (indexOf_prefix _ _ _ El) as Hpre.
  assert (Hs : searchPos st <= leftPos) by lia.
  pose proof Hwf as (Hl & Hr & Hnl).
  assert (Hskip : forall q, searchPos st < q -> q <= length (result st) ->
            Some (Continue (skipTo st q)) = Some out ->
            step_case cd d st out).
  { intros q H1 H2 H. inversion H. constructor; assumption. }
  destruct (isDollar d && precededByBackslash (result st) leftPos);
    [apply Hskip; lia|].
  destruct (isDollar d && isInsideBackticks (result st) leftPos);
    [apply Hskip; lia|].
  destruct (findRight d (result st) leftPos) as [[rp|]|] eqn:Ef;
    [| |discriminate].
  - pose proof Ef as Ef'. apply findRight_bound in Ef'; [|lia].
    destruct (JS.blank _); [apply Hskip; lia|].
    destruct (isDollar d && _); [apply Hskip; lia|].
    destruct (Regex.test _ _); [apply Hskip; lia|].
    destruct (isDollar d && _); [apply Hskip; lia|].
    intros H. apply some_inj in H. subst out. rewrite substring_0.
    apply case_capture; cbn [isPending original encodedOriginal];
      try lia; auto.
    split; [reflexivity|]. exists rp. split; [reflexivity|].
    apply (findRight_prefix _ _ _ Ef).
  - destruct (isDollar d && _); [apply Hskip; lia|].
    destruct (_ && _).
    2:{ intros H. inversion H. constructor. }
    intros H. apply some_inj in H. subst out. rewrite substring_0.
    destruct (JS.indexOf [c_nl; c_nl] (result st) leftPos) as [b|] eqn:Eb.
    + pose proof (@paragraph_after_left d (result st) leftPos b Hwf Hpre Eb).
      pose proof (indexOf_bound _ _ _ Eb) as [Hc1 Hc2]. simpl in Hc2.
      apply case_capture; cbn [isPending original encodedOriginal];
        try lia; auto.
      split; [reflexivity|]. right. apply (indexOf_prefix _ _ _ Eb).
    + apply case_capture; cbn [isPending original encodedOriginal];
        try lia; auto.
Qed.
End ScanFacts.

(** ** Token numbering *)

Module Numbering.
Import MathProtector Props StringFacts Termination Tokens ScanFacts.

(** The rows of [m] carry the numbers [c0], [c0 + 1], ... in insertion
    order, and [c] is the next number. *)
Definition numbered (c0 : nat) (m : mathMap) (c : nat) : Prop :=
  c = c0 + length m /\
  forall i k, nth_error (map_keys m) i = Some k -> tokenNumbered k (c0 + i).

Lemma map_get_key (V : Type) (m : smap V) (k : str) (v : V) :
  map_get m k = Some v -> In k (map_keys m).
Proof.
  induction m as [|[k' v'] m IH]; simpl; [discriminate|].
  destruct (str_eqb k k') eqn:E.
  - apply str_eqb_eq in E. auto.
  - auto.
Qed.

Lemma map_set_fresh (V : Type) (m : smap V) (k : str) (v : V) :
  map_get m k = None -> map_set m k v = m ++ [(k, v)].
Proof.
  induction m as [|[k' v'] m IH]; simpl; [reflexivity|].
  destruct (str_eqb k k'); [discriminate|].
  intros H. rewrite IH by assumption. reflexivity.
Qed.

Lemma map_get_app (V : Type) (m m' : smap V) (k : str) (v : V) :
  map_get m k = Some v -> map_get (m ++ m') k = Some v.
Proof.
  induction m as [|[k' v'] m IH]; simpl; [discriminate|].
  destruct (str_eqb k k'); auto.
Qed.

Lemma numbered_fresh (c0 : nat) (m : mathMap) (c : nat) (k : str) :
  numbered c0 m c -> tokenNumbered k c -> map_get m k = None.
Proof.
  intros [Hc Hk] Ht.
  destruct (map_get m k) as [v|] eqn:E; [|reflexivity].
  apply map_get_key in E. apply In_nth_error in E. destruct E as [i Hi].
  pose proof (Hk i k Hi) as Hn.
  pose proof (@tokenNumbered_inj k _ _ Hn Ht) as Heq.
  assert (i < length (map_keys m)).
  { apply nth_error_Some. rewrite Hi. discriminate. }
  unfold map_keys in *. rewrite length_map in *. lia.
Qed.

Lemma numbered_set (c0 : nat) (m : mathMap) (c : nat) (k : str)
      (v : MathInfo) :
  numbered c0 m c -> tokenNumbered k c ->
  map_set m k v = m ++ [(k, v)] /\ numbered c0 (m ++ [(k, v)]) (S c).
Proof.
  intros Hn Ht. pose proof (@numbered_fresh c0 m c k Hn Ht) as Hf.
  split; [apply map_set_fresh, Hf|].
  destruct Hn as [Hc Hk]. split.
  - rewrite length_app. simpl. lia.
  - intros i k' Hi. unfold map_keys in *. rewrite map_app in Hi.
    destruct (Nat.lt_ge_cases i (length (List.map fst m))) as [Hlt|Hge].
    + rewrite nth_error_app1 in Hi by assumption. auto.
    + rewrite nth_error_app2 in Hi by assumption.
      rewrite length_map in *.
      destruct (i - length m) as [|j] eqn:Ej; simpl in Hi.
      * inversion Hi. subst k'. replace (c0 + i) with c by lia. exact Ht.
      * destruct j; discriminate.
Qed.

Lemma step_numbered (cd : codec) (d : delim) (st : scan) (out : flow)
      (c0 : nat) :
  step_case cd d st out ->
  numbered c0 (table st) (ctr st) ->
  match out with
  | Continue st' | Break st' =>
      numbered c0 (table st') (ctr st') /\
      exists extra, table st' = table st ++ extra
  end.
Proof.
  intros Hc Hn. destruct Hc as [|q H1 H2|a e ph info H1 H2 H3 H4 H5 H6 H7].
  - split; [assumption|]. exists []. rewrite app_nil_r. reflexivity.
  - split; [assumption|]. exists []. rewrite app_nil_r. reflexivity.
  - assert (Ht : tokenNumbered ph (ctr st)).
    { destruct (isPending info); destruct H5 as [-> _];
        [right|left]; reflexivity. }
    destruct (@numbered_set c0 _ _ ph info Hn Ht) as [Hs Hn'].
    cbn [table ctr]. rewrite Hs. split; [assumption|].
    eexists; reflexivity.
Qed.

Lemma scan_loop_numbered (cd : codec) (d : delim) (c0 : nat) :
  wf_delim d ->
  forall (fuel : nat) (st st' : scan),
    scan_loop fuel cd d st = Some st' ->
    numbered c0 (table st) (ctr st) ->
    numbered c0 (table st') (ctr st') /\
    exists extra, table st' = table st ++ extra.
Proof.
  intros Hwf. induction fuel as [|f IH]; intros st st'; simpl;
    [discriminate|].
  destruct (searchPos st <? length (result st)) eqn:E.
  2:{ intros H Hn. inversion H. subst. split; [assumption|].
      exists []. rewrite app_nil_r. reflexivity. }
  apply Nat.ltb_lt in E.
  destruct (scan_step cd d st) as [out|] eqn:Es; [|discriminate].
  pose proof (@scan_step_cases cd d st out Hwf E Es) as Hc.
  intros H Hn. pose proof (@step_numbered cd d st out c0 Hc Hn) as Hstep.
  destruct out as [st1|st1].
  - destruct Hstep as [Hn1 [x1 Hx1]].
    destruct (IH _ _ H Hn1) as [Hn2 [x2 Hx2]].
    split; [assumption|]. exists (x1 ++ x2).
    rewrite Hx2, Hx1, app_assoc. reflexivity.
  - inversion H. subst. exact Hstep.
Qed.

Lemma protectDelims_numbered (cd : codec) (c0 : nat) (ds : list delim) :
  Forall wf_delim ds ->
  forall (content : str) (m : mathMap) (c : nat) (content' : str)
         (m' : mathMap) (c' : nat),
    protectDelims cd ds content m c = Some (content', m', c') ->
    numbered c0 m c ->
    numbered c0 m' c' /\ exists extra, m' = m ++ extra.
Proof.
  induction 1 as [|d ds Hd _ IH]; intros content m c content' m' c'; simpl.
  - intros H Hn. inversion H. subst. split; [assumption|].
    exists []. rewrite app_nil_r. reflexivity.
  - unfold extractAndReplace.
    destruct (scan_loop _ cd d _) as [st1|] eqn:El; [|discriminate].
    intros H Hn.
    destruct (@scan_loop_numbered cd d c0 Hd _ _ _ El Hn) as [Hn1 [x1 Hx1]].
    destruct (IH _ _ _ _ _ _ H Hn1) as [Hn2 [x2 Hx2]].
    split; [assumption|]. exists (x1 ++ x2).
    rewrite Hx2. simpl in Hx1. rewrite Hx1, app_assoc. reflexivity.
Qed.

Lemma replace_keeps_counter (fuel : nat) (p p' : protector)
      (prev : option char) (s out : str) :
  Regex.replace_fuel fuel re_currencyRange maskRange p prev s = (p', out) ->
  counter p' = counter p /\ opts p' = opts p.
Proof.
  revert p prev s out. induction fuel as [|f IH]; intros p prev s out; simpl.
  - intros H. inversion H. auto.
  - destruct (Regex.exec_from _ _ _ _) as [[i n]|].
    2:{ intros H. inversion H. auto. }
    destruct n as [|n].
    + destruct (skipn i s) as [|c s'].
      * intros H. inversion H. auto.
      * destruct (Regex.replace_fuel f _ _ _ _ _) as [a2 o2] eqn:E.
        intros H. inversion H. subst. apply IH in E. simpl in E. exact E.
    + destruct (Regex.replace_fuel f _ _ _ _ _) as [a2 o2] eqn:E.
      intros H. inversion H. subst. apply IH in E. simpl in E. exact E.
Qed.


(** The counter is 0 on a new instance and after [reset()]. *)
Lemma counter_starts_at_zero (o : options) (p : protector) :
  counter (create o) = 0 /\ counter (reset p) = 0.
Proof. split; reflexivity. Qed.



End Numbering.

(** ** Currency masks *)

Module CurrencyMasks.
Import MathProtector Props.

(** C3 fails on the code: an unterminated [\(] span swallows the mask of
    a currency range that follows it in the paragraph; the mask is then
    out of reach of Step 3 and stays in the span table, and [restore]
    writes it into the output. *)
Theorem pending_span_keeps_currency_mask :
  forall (cd : codec) (o : options),
    exists p info,
      protect cd (create o) (lit "\(x^2 costs $5-$10") =
        Some (p, {| protected := lit "::PENDINGMATH0::";
                    spans := [(lit "::PENDINGMATH0::", info)] |}) /\
      original info = lit "\(x^2 costs ::CUR0::" /\
      innerContent info = lit "x^2 costs ::CUR0::" /\
      isPending info = true /\
      currencyMap p = [(lit "::CUR0::", lit "$5-$10")] /\
      List.map hasCurrencyMask (rowFields info) = [true; true].
Proof.
  intros cd o. eexists. eexists.
  split; [vm_compute; reflexivity|].
  repeat split; vm_compute; reflexivity.
Qed.

End CurrencyMasks.

(** ** The streaming tracker *)

Module Streaming.
Import StreamingMathRenderer Props StringFacts.

Lemma closerSearch_total (fuel : nat) (clean r : str) (t : nat) :
  length clean - t < fuel -> findCloser fuel clean r t <> None.
Proof.
  revert t. induction fuel as [|f IH]; intros t Hf; [lia|].
  simpl. destruct (t <? length clean) eqn:Et; [|discriminate].
  apply Nat.ltb_lt in Et.
  destruct (JS.indexOf r clean t) as [fp|] eqn:Ei; [|discriminate].
  apply indexOf_bound in Ei.
  destruct (MathProtector.precededByBackslash clean fp); [|discriminate].
  apply IH. lia.
Qed.

Lemma closerSearch_bound (fuel : nat) (clean r : str) (t rp : nat) :
  findCloser fuel clean r t = Some (Some rp) ->
  t <= rp /\ rp + length r <= length clean.
Proof.
  revert t. induction fuel as [|f IH]; intros t; simpl; [discriminate|].
  destruct (t <? length clean) eqn:Et; [|discriminate].
  apply Nat.ltb_lt in Et.
  destruct (JS.indexOf r clean t) as [fp|] eqn:Ei; [|discriminate].
  apply indexOf_bound in Ei.
  destruct (MathProtector.precededByBackslash clean fp).
  - intros H. apply IH in H. lia.
  - intros H. inversion H. subst. lia.
Qed.

Definition wf_streamDelim (d : delim) : Prop :=
  0 < length (left d) /\ 0 < length (right d).

Lemma streamDelimiters_wf : Forall wf_streamDelim delimiters.
Proof. repeat constructor; simpl; lia. Qed.

Lemma sig_loop_total (clean : str) (d : delim) :
  wf_streamDelim d ->
  forall (fuel searchPos : nat) (sigs : list str),
    length clean - searchPos < fuel ->
    exists out, sig_loop fuel clean d searchPos sigs = Some out.
Proof.
  intros [Hl Hr]. induction fuel as [|f IH]; intros sp sigs Hf; [lia|].
  simpl.
  destruct (JS.indexOf (left d) clean sp) as [leftPos|] eqn:El;
    [|eexists; reflexivity].
  apply indexOf_bound in El.
  destruct (isDollar d && isInsideBackticks clean leftPos);
    [apply IH; lia|].
  assert (Hfound : forall found,
    found = (if isDollar d
             then findCloser (S (length clean)) clean (right d)
                             (leftPos + length (left d))
             else Some (JS.indexOf (right d) clean
                                   (leftPos + length (left d)))) ->
    found <> None /\
    forall rp, found = Some (Some rp) ->
               leftPos + length (left d) <= rp /\
               rp + length (right d) <= length clean).
  { intros found ->. destruct (isDollar d).
    - split; [apply closerSearch_total; lia|].
      intros rp H. apply closerSearch_bound in H. exact H.
    - split; [discriminate|].
      intros rp H. inversion H as [H1]. apply indexOf_bound in H1. lia. }
  destruct (Hfound _ eq_refl) as [Hne Hb].
  destruct (if isDollar d then _ else _) as [[rp|]|];
    [| eexists; reflexivity | congruence].
  specialize (Hb rp eq_refl).
  destruct (negb (JS.blank _)).
  - destruct (isDollar d && _); apply IH; lia.
  - apply IH; lia.
Qed.

Lemma sig_delims_total (clean : str) (ds : list delim) :
  Forall wf_streamDelim ds ->
  forall sigs, exists out, sig_delims clean ds sigs = Some out.
Proof.
  induction 1 as [|d ds Hd _ IH]; intros sigs; simpl.
  - eexists; reflexivity.
  - destruct (@sig_loop_total clean d Hd (length clean + 2) 0 sigs)
      as [out ->]; [lia|].
    apply IH.
Qed.

Lemma extractFormulaSignatures_total (content : str) :
  exists sigs, extractFormulaSignatures content = Some sigs.
Proof.
  unfold extractFormulaSignatures. apply sig_delims_total, streamDelimiters_wf.
Qed.

Lemma set_has_In (s : list str) (x : str) :
  set_has s x = true <-> In x s.
Proof.
  unfold set_has. rewrite existsb_exists. split.
  - intros [y [Hy E]]. apply str_eqb_eq in E. subst. exact Hy.
  - intros H. exists x. split; [exact H|apply str_eqb_refl].
Qed.

Lemma set_add_In (s : list str) (x y : str) :
  In y (set_add s x) <-> In y s \/ y = x.
Proof.
  unfold set_add. destruct (set_has s x) eqn:E.
  - apply set_has_In in E. split; [auto|]. intros [H| ->]; auto.
  - rewrite in_app_iff. simpl. intuition congruence.
Qed.

Lemma fold_set_add_In (new s : list str) (y : str) :
  In y (fold_left set_add new s) <-> In y s \/ In y new.
Proof.
  revert s. induction new as [|x new IH]; intros s; simpl.
  - tauto.
  - rewrite IH, set_add_In. intuition congruence.
Qed.

Section Chunks.
Variable Dom : Type.
Variable be : backend Dom.

(** C7: a chunk all of whose signatures are in the seen-set is skipped:
    [processChunk] returns false, counts one skip, leaves the execute
    counter and the seen-set as they were and makes no call to the
    rendering backend. *)
Theorem duplicate_chunk_is_skipped (t : tracker) (content : str)
        (target : Dom) :
  (forall sigs, extractFormulaSignatures content = Some sigs ->
                forall s, In s sigs -> set_has (seenFormulas t) s = true) ->
  exists res,
    processChunk be t content target = Some res /\
    returned res = false /\
    rendersSkipped (stat (after res)) = S (rendersSkipped (stat t)) /\
    rendersExecuted (stat (after res)) = rendersExecuted (stat t) /\
    seenFormulas (after res) = seenFormulas t /\
    backendCalls res = 0 /\
    element res = target.
Proof.
  intros Hseen. unfold processChunk.
  destruct (extractFormulaSignatures_total content) as [sigs Hs].
  rewrite Hs. specialize (Hseen sigs Hs).
  assert (Hnil : filter (fun sig => negb (set_has (seenFormulas t) sig)) sigs
                 = []).
  { clear Hs. induction sigs as [|x sigs IH]; simpl; [reflexivity|].
    rewrite (Hseen x (or_introl eq_refl)). simpl.
    apply IH. intros s Hin. apply Hseen. right. exact Hin. }
  rewrite Hnil. simpl. eexists. split; [reflexivity|].
  simpl. repeat split; reflexivity.
Qed.


End Chunks.

Lemma duplicate_chunk_witness :
  exists res,
    processChunk countingBackend seenSquare (lit "$x^2$") 1 = Some res /\
    returned res = false /\
    rendersSkipped (stat (after res)) = S (rendersSkipped (stat seenSquare)) /\
    rendersExecuted (stat (after res)) = rendersExecuted (stat seenSquare) /\
    seenFormulas (after res) = seenFormulas seenSquare /\
    backendCalls res = 0 /\
    element res = 1.
Proof.
  apply (@duplicate_chunk_is_skipped nat countingBackend seenSquare
           (lit "$x^2$") 1).
  intros sigs H s Hin. vm_compute in H. inversion H. subst sigs.
  destruct Hin as [<-|[]]. vm_compute. reflexivity.
Defined.



End Streaming.

(** ** Chunked and whole delivery *)

Module Chunking.
Import StreamingMathRenderer StreamRenderer Props StringFacts Streaming.

Lemma filter_nil (A : Type) (f : A -> bool) (l : list A) :
  length (filter f l) = 0 -> forall x, In x l -> f x = false.
Proof.
  induction l as [|y l IH]; simpl; [tauto|].
  destruct (f y) eqn:E; simpl; [discriminate|].
  intros H x [<-|Hin]; auto.
Qed.

Lemma last_prefix (acc : str) (chunks : list str) :
  chunks <> [] -> In (acc ++ concat chunks) (prefixesFrom acc chunks).
Proof.
  revert acc. induction chunks as [|c cs IH]; intros acc Hne; [congruence|].
  simpl. destruct cs as [|c' cs].
  - left. simpl. rewrite app_nil_r. reflexivity.
  - right. rewrite app_assoc. apply IH. discriminate.
Qed.

Section Stream.
Variable Dom : Type.
Variable be : backend Dom.
Variable renderPage : str -> Dom.

Lemma processChunk_seen (t : tracker) (c : str) :
  rendersFreshPages be renderPage ->
  exists res,
    processChunk be t c (renderPage c) = Some res /\
    forall s, In s (seenFormulas (after res)) <->
              In s (seenFormulas t) \/ extracted c s.
Proof.
  intros [f [Hf Hr]]. unfold processChunk, renderMath, extracted.
  destruct (extractFormulaSignatures_total c) as [sigs Hs]. rewrite Hs.
  destruct (length (filter _ sigs) =? 0) eqn:El.
  - apply Nat.eqb_eq in El. eexists. split; [reflexivity|]. simpl.
    intros s. split; [auto|]. intros [H|[sigs' [E Hin]]]; [exact H|].
    inversion E. subst sigs'.
    pose proof (filter_nil _ _ El s Hin) as Hn.
    apply negb_false_iff in Hn. apply set_has_In, Hn.
  - assert (Hex : exists s0, In s0 sigs).
    { destruct (filter (fun sig => negb (set_has (seenFormulas t) sig)) sigs)
        as [|s0 rest] eqn:Ef; [discriminate|].
      exists s0.
      apply (proj1 (filter_In
                      (fun sig => negb (set_has (seenFormulas t) sig))
                      s0 sigs)).
      rewrite Ef. left. reflexivity. }
    destruct Hex as [s0 Hs0].
    rewrite Hf.
    destruct (Hr c s0 (ex_intro _ sigs (conj Hs Hs0))) as [d' [-> Hlt]].
    apply Nat.ltb_lt in Hlt. rewrite Hlt.
    eexists. split; [reflexivity|]. simpl.
    intros s. rewrite fold_set_add_In, filter_In. split.
    + intros [H|[H _]]; [auto|]. right. exists sigs. auto.
    + intros [H|[sigs' [E Hin]]]; [auto|].
      inversion E. subst sigs'.
      destruct (set_has (seenFormulas t) s) eqn:Eh.
      * left. apply set_has_In, Eh.
      * right. split; [exact Hin|reflexivity].
Qed.

Lemma appendContent_seen (r : renderer Dom) (chunk : str) :
  rendersFreshPages be renderPage ->
  lastContent (incrementalRenderer r) = content r ->
  chunk <> [] ->
  exists r',
    appendContent be renderPage r chunk = Some (r', true) /\
    content r' = content r ++ chunk /\
    lastContent (incrementalRenderer r') = content r' /\
    forall s, In s (seen r') <->
              In s (seen r) \/ extracted (content r ++ chunk) s.
Proof.
  intros Hb Hinv Hne. unfold appendContent, appendNewContent.
  destruct chunk as [|x chunk]; [congruence|].
  cbn [MathProtector.nonEmpty negb].
  assert (E1 : MathProtector.nonEmpty (content r ++ x :: chunk) = true).
  { destruct (content r); reflexivity. }
  rewrite E1. cbn [negb].
  assert (E2 : str_eqb (content r ++ x :: chunk)
                       (lastContent (incrementalRenderer r)) = false).
  { apply str_eqb_neq. rewrite Hinv. intros H.
    apply (f_equal (@length char)) in H. rewrite length_app in H.
    simpl in H. lia. }
  rewrite E2.
  destruct (processChunk_seen (streamingMathRenderer r)
              (content r ++ x :: chunk) Hb) as [res [-> Hseen]].
  eexists. split; [reflexivity|]. simpl.
  split; [reflexivity|]. split; [reflexivity|]. exact Hseen.
Qed.

Lemma appendAll_seen (chunks : list str) :
  rendersFreshPages be renderPage ->
  Forall (fun c => c <> []) chunks ->
  forall r, lastContent (incrementalRenderer r) = content r ->
  exists r',
    appendAll be renderPage r chunks = Some r' /\
    forall s, In s (seen r') <->
              In s (seen r) \/
              exists c, In c (prefixesFrom (content r) chunks) /\
                        extracted c s.
Proof.
  intros Hb. induction 1 as [|c cs Hc _ IH]; intros r Hinv; simpl.
  - eexists. split; [reflexivity|]. intros s. split; [auto|].
    intros [H|[c [[] _]]]. exact H.
  - destruct (appendContent_seen r Hb Hinv Hc) as [r1 [-> [Hc1 [Hi1 Hs1]]]].
    destruct (IH r1 Hi1) as [r' [-> Hs']].
    eexists. split; [reflexivity|].
    intros s. rewrite Hs', Hs1, Hc1. split.
    + intros [[H|H]|[c' [Hin He]]]; eauto 7.
    + intros [H|[c' [[<-|Hin] He]]]; eauto 7.
Qed.

(** C8, amended: when the chunks are appended through [appendContent],
    which hands the tracker the content received so far, the final
    seen-set holds every signature that whole delivery records; the two
    sets are equal when no intermediate prefix yields a signature that
    the whole content does not. *)
Theorem chunked_delivery_covers_whole (target : Dom) (chunks : list str) :
  rendersFreshPages be renderPage ->
  Forall (fun c => c <> []) chunks ->
  chunks <> [] ->
  exists r r1,
    appendAll be renderPage (create target) chunks = Some r /\
    appendAll be renderPage (create target) [concat chunks] = Some r1 /\
    (forall s, In s (seen r1) -> In s (seen r)) /\
    ((forall c s, In c (prefixes chunks) -> extracted c s ->
                  extracted (concat chunks) s) ->
     forall s, In s (seen r) -> In s (seen r1)).
Proof.
  intros Hb Hne Hnil.
  destruct (appendAll_seen Hb Hne (create target) eq_refl) as [r [Hr Hs]].
  assert (Hw : concat chunks <> []).
  { destruct chunks as [|c cs]; [congruence|].
    inversion Hne as [|? ? Hc _]. simpl. destruct c; [congruence|discriminate]. }
  assert (Hne1 : Forall (fun c : str => c <> []) [concat chunks]).
  { constructor; [exact Hw|constructor]. }
  destruct (appendAll_seen Hb Hne1 (create target) eq_refl)
    as [r1 [Hr1 Hs1]].
  exists r, r1. split; [exact Hr|]. split; [exact Hr1|].
  split.
  - intros s H. apply Hs1 in H. apply Hs.
    destruct H as [[]|[c [[<-|[]] He]]].
    right. exists (concat chunks). split; [|exact He].
    apply (last_prefix [] Hnil).
  - intros Hsub s H. apply Hs in H. apply Hs1.
    destruct H as [[]|[c [Hin He]]].
    right. exists (concat chunks). split; [left; reflexivity|].
    apply (Hsub c s Hin He).
Qed.

End Stream.

Lemma chunked_delivery_witness :
  exists r r1,
    appendAll countingBackend freshPage (create 0) [lit "$x^"; lit "2$"]
      = Some r /\
    appendAll countingBackend freshPage (create 0)
      [concat [lit "$x^"; lit "2$"]] = Some r1 /\
    (forall s, In s (seen r1) -> In s (seen r)) /\
    ((forall c s, In c (prefixes [lit "$x^"; lit "2$"]) ->
                  extracted c s ->
                  extracted (concat [lit "$x^"; lit "2$"]) s) ->
     forall s, In s (seen r) -> In s (seen r1)).
Proof.
  apply (@chunked_delivery_covers_whole nat countingBackend freshPage 0
           [lit "$x^"; lit "2$"]).
  - eexists. split; [reflexivity|]. intros content s _. exists 1.
    split; [reflexivity|]. unfold freshPage. simpl. lia.
  - repeat constructor; discriminate.
  - discriminate.
Defined.

(** C8 as stated fails.  Handed to [processChunk] one by one, the chunks
    "$x^" and "2$" leave the seen-set empty, the whole "$x^2$" does not.
    Appended through [appendContent], the prefix "$x=$5-$" of
    "$x=$5-$6" yields the signature of [x=], which the whole content,
    whose currency range is masked, never yields. *)
Lemma chunked_delivery_differs :
  (exists t d t' d',
      processAll countingBackend StreamingMathRenderer.create
                 [lit "$x^"; lit "2$"] 0 = Some (t, d) /\
      seenFormulas t = [] /\
      processAll countingBackend StreamingMathRenderer.create
                 [lit "$x^2$"] 0 = Some (t', d') /\
      seenFormulas t' = [lit "$" ++ Hash.hashBase36 (lit "x^2")]) /\
  (exists r r1,
      appendAll countingBackend freshPage (create 0)
                [lit "$x=$5-$"; lit "6"] = Some r /\
      seen r = [lit "$" ++ Hash.hashBase36 (lit "x=")] /\
      appendAll countingBackend freshPage (create 0)
                [lit "$x=$5-$6"] = Some r1 /\
      seen r1 = []).
Proof.
  split.
  - do 4 eexists. split; [vm_compute; reflexivity|].
    split; [reflexivity|]. split; [vm_compute; reflexivity|].
    vm_compute. reflexivity.
  - do 2 eexists. split; [vm_compute; reflexivity|].
    split; [vm_compute; reflexivity|]. split; [vm_compute; reflexivity|].
    reflexivity.
Qed.

End Chunking.

(** ** Replacing every occurrence: [split] followed by [join] *)

Module SplitJoin.
Import JS StringFacts.

Lemma prefixb_nil_false (k : str) : k <> [] -> prefixb k [] = false.
Proof. destruct k; [congruence|reflexivity]. Qed.

Lemma prefixb_iff (p s : str) :
  prefixb p s = true <-> exists t, s = p ++ t.
Proof.
  split.
  - intros H. exists (skipn (length p) s). apply prefixb_true, H.
  - intros [t ->]. apply prefixb_app.
Qed.

Lemma find_hit (w s : str) : prefixb w s = true -> find w s = Some 0.
Proof. intros H. destruct s; simpl; rewrite H; reflexivity. Qed.

Lemma includes_iff (w s : str) :
  includes w s = true <-> exists a b, s = a ++ w ++ b.
Proof.
  unfold includes. split.
  - destruct (find w s) as [i|] eqn:E; [|discriminate]. intros _.
    apply find_prefix in E. apply prefixb_true in E.
    exists (firstn i s), (skipn (length w) (skipn i s)).
    rewrite <- E. symmetry. apply firstn_skipn.
  - intros [a [b ->]]. induction a as [|x a IH].
    + simpl. rewrite (find_hit _ _ (prefixb_app w b)). reflexivity.
    + cbn [app find]. destruct (prefixb w (x :: a ++ w ++ b)); [reflexivity|].
      destruct (find w (a ++ w ++ b)); [reflexivity|discriminate].
Qed.

Lemma includes_false_app (w a b : str) :
  includes w (a ++ b) = false ->
  includes w a = false /\ includes w b = false.
Proof.
  intros H. split.
  - destruct (includes w a) eqn:E; [|reflexivity].
    apply includes_iff in E. destruct E as [x [y ->]].
    rewrite <- H. symmetry. apply includes_iff.
    exists x, (y ++ b). rewrite <- !app_assoc. reflexivity.
  - destruct (includes w b) eqn:E; [|reflexivity].
    apply includes_iff in E. destruct E as [x [y ->]].
    rewrite <- H. symmetry. apply includes_iff.
    exists (a ++ x), y. rewrite <- !app_assoc. reflexivity.
Qed.

Lemma includes_false_prefix (w s : str) :
  includes w s = false -> prefixb w s = false.
Proof.
  intros H. destruct (prefixb w s) eqn:E; [|reflexivity].
  apply prefixb_iff in E. destruct E as [t ->].
  rewrite <- H. symmetry. apply includes_iff. exists [], t. reflexivity.
Qed.

Lemma split_fuel_nonempty (fuel : nat) (k s : str) :
  split_fuel fuel k s <> [].
Proof.
  destruct fuel; simpl; [discriminate|].
  destruct (find k s); discriminate.
Qed.

Lemma join_cons (o p : str) (rest : list str) :
  rest <> [] -> join o (p :: rest) = p ++ o ++ join o rest.
Proof. destruct rest; [congruence|reflexivity]. Qed.

Lemma split_fuel_enough (k : str) :
  k <> [] ->
  forall (f1 f2 : nat) (s : str),
    length s < f1 -> length s < f2 ->
    split_fuel f1 k s = split_fuel f2 k s.
Proof.
  intros Hk. induction f1 as [|f1 IH]; intros f2 s H1 H2; [lia|].
  destruct f2 as [|f2]; [lia|]. simpl.
  destruct (find k s) as [i|] eqn:E; [|reflexivity].
  apply find_bound in E. f_equal.
  assert (0 < length k) by (destruct k; [congruence|simpl; lia]).
  apply IH; rewrite length_skipn; lia.
Qed.

Section Replace.
Variables k o : str.
Hypothesis k_nonempty : k <> [].

Lemma splitJoin_nil : splitJoin k o [] = [].
Proof.
  unfold splitJoin, split. simpl.
  rewrite (prefixb_nil_false k_nonempty). reflexivity.
Qed.

Lemma split_fuel_S (f : nat) (s : str) :
  split_fuel (S f) k s =
  match find k s with
  | None => [s]
  | Some i => firstn i s :: split_fuel f k (skipn (i + length k) s)
  end.
Proof. reflexivity. Qed.

Lemma k_length : 0 < length k.
Proof. destruct k; [congruence|simpl; lia]. Qed.

Lemma split_hit (s : str) :
  prefixb k s = true -> split k s = [] :: split k (skipn (length k) s).
Proof.
  intros H. unfold split. rewrite split_fuel_S, (find_hit _ _ H).
  pose proof (prefixb_length _ _ H) as Hlen. pose proof k_length.
  cbn [firstn Nat.add]. f_equal.
  apply split_fuel_enough; [assumption| |]; rewrite length_skipn; lia.
Qed.

Lemma split_miss (c : char) (s : str) :
  prefixb k (c :: s) = false ->
  match split k s with
  | p :: rest => split k (c :: s) = (c :: p) :: rest
  | [] => False
  end.
Proof.
  intros H. unfold split. rewrite !split_fuel_S.
  cbn [find]. rewrite H.
  destruct (find k s) as [i|] eqn:E; cbn [option_map]; [|reflexivity].
  pose proof (find_bound _ _ E) as Hb. pose proof k_length.
  cbn [firstn Nat.add skipn]. f_equal.
  apply split_fuel_enough; [assumption| |]; rewrite length_skipn;
    cbn [length]; lia.
Qed.

Lemma splitJoin_hit (s : str) :
  prefixb k s = true ->
  splitJoin k o s = o ++ splitJoin k o (skipn (length k) s).
Proof.
  intros H. unfold splitJoin. rewrite (split_hit _ H).
  rewrite join_cons by (unfold split; apply split_fuel_nonempty).
  reflexivity.
Qed.

Lemma splitJoin_miss (c : char) (s : str) :
  prefixb k (c :: s) = false ->
  splitJoin k o (c :: s) = c :: splitJoin k o s.
Proof.
  intros H. unfold splitJoin. pose proof (split_miss _ _ H) as Hm.
  destruct (split k s) as [|p rest]; [contradiction|].
  rewrite Hm. destruct rest; reflexivity.
Qed.

Lemma splitJoin_pass (u s : str) :
  (forall q, q < length u -> prefixb k (skipn q u ++ s) = false) ->
  splitJoin k o (u ++ s) = u ++ splitJoin k o s.
Proof.
  induction u as [|c u IH]; intros H; [reflexivity|].
  cbn [app]. rewrite splitJoin_miss.
  - f_equal. apply IH. intros q Hq. apply (H (S q)). simpl. lia.
  - apply (H 0). simpl. lia.
Qed.

End Replace.

End SplitJoin.

(** ** Texts with placeholders *)

Module Shape.
Import MathProtector Props StringFacts Tokens SplitJoin.

Definition tok (k : kind) (n : nat) : str :=
  c_colon :: c_colon :: (kword k ++ decimal n) ++ [c_colon; c_colon].

Definition token (t : str) : Prop := exists k n, t = tok k n.

(** The code units placeholders are made of. *)
Definition tokchar (c : char) : bool := N.eqb c c_colon || Regex.isWord c.

Lemma mathPlaceholder_tok (n : nat) : mathPlaceholder n = tok KMath n.
Proof.
  unfold mathPlaceholder, tok. cbn [kword].
  change (lit "::MATH_") with (c_colon :: c_colon :: lit "MATH_").
  change (lit "::") with [c_colon; c_colon].
  cbn [app]. rewrite <- app_assoc. reflexivity.
Qed.

Lemma pendingPlaceholder_tok (n : nat) :
  pendingPlaceholder n = tok KPending n.
Proof.
  unfold pendingPlaceholder, tok. cbn [kword].
  change (lit "::PENDINGMATH") with (c_colon :: c_colon :: lit "PENDINGMATH").
  change (lit "::") with [c_colon; c_colon].
  cbn [app]. rewrite <- app_assoc. reflexivity.
Qed.

Lemma curPlaceholder_tok (n : nat) : curPlaceholder n = tok KCur n.
Proof.
  unfold curPlaceholder, tok. cbn [kword].
  change (lit "::CUR") with (c_colon :: c_colon :: lit "CUR").
  change (lit "::") with [c_colon; c_colon].
  cbn [app]. rewrite <- app_assoc. reflexivity.
Qed.

Definition plain (c : char) : Prop := c <> c_colon.

Lemma kword_plain (k : kind) : Forall plain (kword k).
Proof. destruct k; repeat constructor; discriminate. Qed.

Lemma digit_plain (c : char) : Regex.isDigit c = true -> plain c.
Proof. intros H ->. discriminate. Qed.

Lemma body_plain (k : kind) (n : nat) : Forall plain (kword k ++ decimal n).
Proof.
  apply Forall_app. split; [apply kword_plain|].
  eapply Forall_impl; [|apply decimal_digits]. apply digit_plain.
Qed.

Lemma kword_cons (k : kind) : exists c w, kword k = c :: w /\ plain c.
Proof. destruct k; do 2 eexists; (split; [reflexivity|discriminate]). Qed.

Lemma name_plain (k : kind) (d : char) :
  Regex.isDigit d = true -> Forall plain (kword k ++ [d]).
Proof.
  intros Hd. apply Forall_app. split; [apply kword_plain|].
  constructor; [apply digit_plain, Hd|constructor].
Qed.

Lemma decimal_cons (n : nat) :
  exists d rest, decimal n = d :: rest /\ Regex.isDigit d = true.
Proof.
  unfold decimal.
  assert (Hn : Nat.to_uint n <> Decimal.Nil).
  { pose proof (Unsigned.to_of (Nat.to_uint n)) as H.
    rewrite Unsigned.of_to in H. rewrite H.
    apply DecimalFacts.unorm_nonnil. }
  destruct (Nat.to_uint n); [congruence| | | | | | | | | |];
    do 2 eexists; (split; [reflexivity|reflexivity]).
Qed.

Lemma digit_In (d : char) :
  Regex.isDigit d = true -> In d (lit "0123456789").
Proof.
  unfold Regex.isDigit. rewrite andb_true_iff, !N.leb_le. intros [H1 H2].
  assert (H : (d = 48 \/ d = 49 \/ d = 50 \/ d = 51 \/ d = 52 \/
               d = 53 \/ d = 54 \/ d = 55 \/ d = 56 \/ d = 57)%N) by lia.
  cbn. intuition.
Qed.

Lemma cleanb_sound (s : str) : cleanb s = true -> clean s.
Proof.
  unfold cleanb. intros H k d Hd. rewrite forallb_forall in H.
  assert (Hk : In k [KMath; KPending; KCur]).
  { destruct k; simpl; auto. }
  specialize (H k Hk). rewrite forallb_forall in H.
  apply negb_true_iff, H, digit_In, Hd.
Qed.

Lemma tok_tokchar (k : kind) (n : nat) :
  Forall (fun c => tokchar c = true) (tok k n).
Proof.
  unfold tok. repeat (constructor; [reflexivity|]).
  apply Forall_app. split; [|repeat constructor].
  apply Forall_app. split.
  - destruct k; repeat constructor.
  - eapply Forall_impl; [|apply decimal_digits].
    intros c H. unfold tokchar, Regex.isWord. rewrite H.
    rewrite !orb_true_r. reflexivity.
Qed.

Lemma tok_length (k : kind) (n : nat) : 4 < length (tok k n).
Proof.
  unfold tok. cbn [length]. rewrite !length_app.
  destruct k; simpl; lia.
Qed.

Lemma clean_app (a b : str) : clean (a ++ b) -> clean a /\ clean b.
Proof.
  intros H. split; intros k d Hd; specialize (H k d Hd);
    apply includes_false_app in H; tauto.
Qed.

Lemma clean_tail (c : char) (s : str) : clean (c :: s) -> clean s.
Proof. intros H. apply (clean_app [c] s) in H. tauto. Qed.

Lemma clean_name (k : kind) (d : char) (s : str) :
  clean s -> Regex.isDigit d = true ->
  JS.prefixb (kword k ++ [d]) s = false.
Proof. intros Hc Hd. apply includes_false_prefix, Hc, Hd. Qed.

Lemma clean_colon (s : str) : clean s -> clean (c_colon :: s).
Proof.
  intros H k d Hd. specialize (H k d Hd).
  unfold JS.includes in *. cbn [JS.find].
  replace (JS.prefixb (kword k ++ [d]) (c_colon :: s)) with false
    by (destruct k; reflexivity).
  destruct (JS.find (kword k ++ [d]) s); [discriminate|reflexivity].
Qed.

Lemma token_not_clean (t : str) (a b : str) :
  token t -> ~ clean (a ++ t ++ b).
Proof.
  intros [k [n ->]] Hc.
  destruct (decimal_cons n) as [d [rest [En Hd]]].
  specialize (Hc k d Hd).
  assert (Hi : JS.includes (kword k ++ [d]) (a ++ tok k n ++ b) = true).
  { apply includes_iff.
    exists (a ++ [c_colon; c_colon]), (rest ++ [c_colon; c_colon] ++ b).
    unfold tok. rewrite En. cbn [app]. rewrite <- !app_assoc.
    cbn [app]. reflexivity. }
  congruence.
Qed.

(** A placeholder name at the head of a text, read off the head of a
    placeholder body. *)
Lemma body_name (k : kind) (n : nat) (s P : str) :
  JS.prefixb (kword k ++ decimal n ++ s) P = true ->
  exists d, Regex.isDigit d = true /\
            JS.prefixb (kword k ++ [d]) P = true.
Proof.
  intros H. destruct (decimal_cons n) as [d [rest [En Hd]]].
  exists d. split; [exact Hd|].
  apply prefixb_iff in H. destruct H as [t ->].
  apply prefixb_iff. exists (rest ++ s ++ t).
  rewrite En, <- !app_assoc. reflexivity.
Qed.

Section Shapes.
Variable f : str -> option str.

(** [shape P T]: the text [P] is the text [T] with some stretches
    replaced by placeholders that [f] maps back to those stretches. *)
Inductive shape : str -> str -> Prop :=
| sh_nil : shape [] []
| sh_chr (c : char) (P T : str) : shape P T -> shape (c :: P) (c :: T)
| sh_tok (t o P T : str) :
    token t -> f t = Some o -> shape P T -> shape (t ++ P) (o ++ T).

Lemma shape_text (s P T : str) : shape P T -> shape (s ++ P) (s ++ T).
Proof. intros H. induction s; simpl; [exact H|constructor; exact IHs]. Qed.

Lemma shape_id (s : str) : shape s s.
Proof.
  rewrite <- (app_nil_r s). apply shape_text. constructor.
Qed.

Lemma shape_app (P1 T1 P2 T2 : str) :
  shape P1 T1 -> shape P2 T2 -> shape (P1 ++ P2) (T1 ++ T2).
Proof.
  intros H1 H2. induction H1; simpl.
  - exact H2.
  - constructor. exact IHshape.
  - rewrite <- !app_assoc. constructor; assumption.
Qed.

Lemma shape_cons_inv (c : char) (P T : str) :
  shape (c :: P) T ->
  (exists T', T = c :: T' /\ shape P T') \/
  (c = c_colon /\
   exists t o P0 T0, token t /\ f t = Some o /\ c :: P = t ++ P0 /\
                     T = o ++ T0 /\ shape P0 T0).
Proof.
  intros H. inversion H as [|c' P' T' H1|t o P0 T0 Ht Hf H1 E]; subst.
  - left. eauto.
  - right. split.
    + destruct Ht as [k [n ->]]. unfold tok in E. cbn [app] in E.
      inversion E. reflexivity.
    + exists t, o, P0, T0. auto.
Qed.

(** A stretch without colons at the head of [P] is at the head of [T]. *)
Lemma shape_plain_prefix (w : str) :
  Forall plain w ->
  forall P T, shape P T -> JS.prefixb w P = true -> JS.prefixb w T = true.
Proof.
  induction 1 as [|x w Hx _ IH]; intros P T Hs Hp; [reflexivity|].
  destruct P as [|c P]; [discriminate|].
  cbn [JS.prefixb] in Hp. apply andb_true_iff in Hp. destruct Hp as [E Hp].
  apply char_eqb_eq in E. subst c.
  apply shape_cons_inv in Hs. destruct Hs as [[T' [-> Hs]]|[E _]].
  - cbn [JS.prefixb]. rewrite char_eqb_refl. apply (IH _ _ Hs Hp).
  - contradiction.
Qed.

(** No placeholder starts at a code unit copied from a clean text. *)
Lemma no_token_at_text (c : char) (P T k : str) :
  shape P T -> clean (c :: T) -> token k ->
  JS.prefixb k (c :: P) = false.
Proof.
  intros Hs Hc [kk [n ->]].
  destruct (JS.prefixb (tok kk n) (c :: P)) eqn:E; [|reflexivity].
  exfalso. unfold tok in E. cbn [JS.prefixb] in E.
  apply andb_true_iff in E. destruct E as [_ E].
  destruct P as [|c2 P2]; [discriminate|].
  apply andb_true_iff in E. destruct E as [E2 E].
  apply char_eqb_eq in E2. subst c2.
  rewrite <- app_assoc in E.
  destruct (body_name _ _ _ _ E) as [d [Hd Hk]].
  apply shape_cons_inv in Hs.
  destruct Hs as [[T' [-> Hs]]|[_ [t [o [P0 [T0 [Ht [_ [Et _]]]]]]]]].
  - pose proof (shape_plain_prefix (@name_plain kk d Hd) Hs Hk) as Hk'.
    do 2 apply clean_tail in Hc.
    rewrite (@clean_name kk d _ Hc Hd) in Hk'. discriminate.
  - destruct Ht as [k2 [n2 ->]]. unfold tok in Et. cbn [app] in Et.
    injection Et as Et'. rewrite Et' in Hk.
    destruct (kword_cons kk) as [x [w [Ew Hx]]]. rewrite Ew in Hk.
    cbn [app JS.prefixb] in Hk. apply andb_true_iff in Hk.
    destruct Hk as [Hk _]. apply char_eqb_eq in Hk. apply Hx, Hk.
Qed.

Lemma body_prefix_eq (b1 : str) :
  Forall plain b1 ->
  forall (b2 s : str),
    Forall plain b2 ->
    JS.prefixb (b1 ++ [c_colon; c_colon]) (b2 ++ c_colon :: c_colon :: s)
    = true ->
    b1 = b2.
Proof.
  induction 1 as [|x b1 Hx _ IH]; intros b2 s H2 Hp.
  - destruct b2 as [|y b2]; [reflexivity|].
    inversion H2 as [|? ? Hy _]. cbn [app JS.prefixb] in Hp.
    apply andb_true_iff in Hp. destruct Hp as [E _].
    apply char_eqb_eq in E. exfalso. apply Hy. symmetry. exact E.
  - destruct b2 as [|y b2]; cbn [app JS.prefixb] in Hp;
      apply andb_true_iff in Hp; destruct Hp as [E Hp];
      apply char_eqb_eq in E.
    + exfalso. apply Hx, E.
    + subst y. inversion H2. f_equal. eapply IH; eassumption.
Qed.

Lemma tok_prefix_free (k k' : kind) (n n' : nat) (s : str) :
  JS.prefixb (tok k n) (tok k' n' ++ s) = true -> tok k n = tok k' n'.
Proof.
  unfold tok. cbn [app JS.prefixb]. rewrite !char_eqb_refl. cbn [andb].
  rewrite <- (app_assoc _ [c_colon; c_colon] s). cbn [app].
  intros H. apply body_prefix_eq in H; try apply body_plain.
  rewrite H. reflexivity.
Qed.

Lemma tok_nonempty (k : kind) (n : nat) : tok k n <> [].
Proof. discriminate. Qed.

Lemma plain_no_tok (k : kind) (n : nat) (u s : str) :
  Forall plain u ->
  forall q, q < length u -> JS.prefixb (tok k n) (skipn q u ++ s) = false.
Proof.
  induction 1 as [|x u Hx _ IH]; intros q Hq; [simpl in Hq; lia|].
  destruct q as [|q].
  - cbn [skipn app tok JS.prefixb].
    destruct (char_eqb c_colon x) eqn:E; [|reflexivity].
    apply char_eqb_eq in E. exfalso. apply Hx. symmetry. exact E.
  - apply IH. simpl in Hq. lia.
Qed.

(** Replacing [k] leaves another placeholder [t] as it is. *)
Lemma token_pass (k o t P T : str) :
  token k -> token t -> t <> k -> shape P T -> clean T ->
  JS.splitJoin k o (t ++ P) = t ++ JS.splitJoin k o P.
Proof.
  intros [kk [nk ->]] [kt [nt ->]] Hne Hs Hc.
  pose proof (@tok_nonempty kk nk) as Hk.
  assert (H0 : JS.prefixb (tok kk nk) (tok kt nt ++ P) = false).
  { destruct (JS.prefixb (tok kk nk) (tok kt nt ++ P)) eqn:E;
      [|reflexivity].
    apply tok_prefix_free in E. congruence. }
  assert (H1 : forall s, JS.prefixb (tok kk nk)
                 (c_colon :: (kword kt ++ decimal nt) ++ s) = false).
  { intros s. destruct (kword_cons kt) as [x [w [Ew Hx]]]. rewrite Ew.
    cbn [app tok JS.prefixb]. rewrite char_eqb_refl. cbn [andb].
    destruct (char_eqb c_colon x) eqn:E; [|reflexivity].
    apply char_eqb_eq in E. exfalso. apply Hx. symmetry. exact E. }
  assert (H3 : JS.prefixb (tok kk nk) (c_colon :: c_colon :: P) = false).
  { destruct (JS.prefixb (tok kk nk) (c_colon :: c_colon :: P)) eqn:E;
      [|reflexivity]. exfalso.
    unfold tok in E. cbn [JS.prefixb] in E. rewrite !char_eqb_refl in E.
    cbn [andb] in E. rewrite <- app_assoc in E.
    destruct (body_name _ _ _ _ E) as [d [Hd Hp]].
    pose proof (shape_plain_prefix (@name_plain kk d Hd) Hs Hp) as Hp'.
    rewrite (@clean_name kk d _ Hc Hd) in Hp'. discriminate. }
  assert (H4 : JS.prefixb (tok kk nk) (c_colon :: P) = false).
  { apply (@no_token_at_text c_colon P T); [assumption| |].
    - apply clean_colon, Hc.
    - exists kk, nk. reflexivity. }
  assert (Et : tok kt nt ++ P =
               c_colon :: c_colon ::
               (kword kt ++ decimal nt) ++ c_colon :: c_colon :: P).
  { unfold tok. cbn [app]. rewrite <- app_assoc. reflexivity. }
  rewrite Et in H0 |- *.
  rewrite (@splitJoin_miss (tok kk nk) o Hk) by exact H0.
  rewrite (@splitJoin_miss (tok kk nk) o Hk) by apply H1.
  rewrite (@splitJoin_pass (tok kk nk) o Hk).
  2:{ intros q Hq. apply plain_no_tok; [apply body_plain|exact Hq]. }
  rewrite (@splitJoin_miss (tok kk nk) o Hk) by exact H3.
  rewrite (@splitJoin_miss (tok kk nk) o Hk) by exact H4.
  symmetry. unfold tok at 1. cbn [app]. rewrite <- app_assoc. reflexivity.
Qed.

End Shapes.

(** [f] without the placeholder [k]. *)
Definition without (f : str -> option str) (k : str) (t : str)
  : option str :=
  if str_eqb t k then None else f t.

Lemma shape_weaken (f g : str -> option str) (P T : str) :
  (forall t o, f t = Some o -> g t = Some o) ->
  shape f P T -> shape g P T.
Proof.
  intros Hfg H. induction H.
  - constructor.
  - constructor. assumption.
  - constructor; auto.
Qed.


(** One round of [restore] (or of Step 3 of [protect]): every occurrence
    of the placeholder [k] gives way to its text [o]. *)
Lemma restore_step (f : str -> option str) (k o : str) :
  token k ->
  (forall o', f k = Some o' -> o' = o) ->
  forall P T, shape f P T -> clean T ->
              shape (without f k) (JS.splitJoin k o P) T.
Proof.
  intros Hk Hfk P T Hs. 
  assert (Hne : k <> []).
  { destruct Hk as [kk [n ->]]. apply tok_nonempty. }
  induction Hs as [|c P T Hs IH|t o' P T Ht Hf Hs IH]; intros Hc.
  - rewrite (@splitJoin_nil k o Hne). constructor.
  - rewrite (@splitJoin_miss k o Hne).
    + constructor. apply IH. apply (@clean_tail c T Hc).
    + apply (@no_token_at_text f c P T k Hs Hc Hk).
  - apply clean_app in Hc. destruct Hc as [_ Hc].
    destruct (str_eqb t k) eqn:E.
    + apply str_eqb_eq in E. subst t.
      rewrite (Hfk _ Hf).
      rewrite (@splitJoin_hit k o Hne) by apply prefixb_app.
      rewrite skipn_app, skipn_all, Nat.sub_diag. cbn [app skipn].
      apply shape_text. apply IH, Hc.
    + assert (Hne' : t <> k).
      { intros ->. rewrite str_eqb_refl in E. discriminate. }
      rewrite (@token_pass f k o t P T Hk Ht Hne' Hs Hc).
      constructor; [assumption| |apply IH, Hc].
      unfold without. rewrite E. exact Hf.
Qed.

End Shape.

(** ** Capturing a stretch of text *)

Module Capture.
Import MathProtector Props StringFacts Tokens SplitJoin Shape.

(** Offset [p] of [R] does not fall inside a placeholder: it is an end of
    [R], or the code unit at [p] or the one before it is none a
    placeholder is made of. *)
Definition boundary (R : str) (p : nat) : Prop :=
  p = 0 \/ length R <= p \/
  (exists c, nth_error R p = Some c /\ tokchar c = false) \/
  (exists c, 0 < p /\ nth_error R (p - 1) = Some c /\ tokchar c = false).

Lemma boundary_chr (c : char) (P : str) (p : nat) :
  boundary (c :: P) (S p) -> boundary P p.
Proof.
  intros [H|[H|[[x [H1 H2]]|[x [H0 [H1 H2]]]]]].
  - discriminate.
  - right. left. simpl in H. lia.
  - right. right. left. exists x. auto.
  - destruct p as [|p]; [left; reflexivity|].
    right. right. right. exists x. split; [lia|].
    simpl in *. rewrite Nat.sub_0_r. auto.
Qed.

Lemma tokchar_nth (t : str) (i : nat) (c : char) :
  token t -> nth_error t i = Some c -> tokchar c = true.
Proof.
  intros [k [n ->]] H. apply nth_error_In in H.
  pose proof (tok_tokchar k n) as Hall.
  rewrite Forall_forall in Hall. apply Hall, H.
Qed.

Lemma boundary_tok (t P : str) (p : nat) :
  token t -> boundary (t ++ P) p ->
  p = 0 \/ (length t <= p /\ boundary P (p - length t)).
Proof.
  intros Ht [H|[H|[[x [H1 H2]]|[x [H0 [H1 H2]]]]]].
  - left. exact H.
  - right. rewrite length_app in H. split; [lia|].
    right. left. lia.
  - destruct (Nat.lt_ge_cases p (length t)) as [Hlt|Hge].
    + rewrite nth_error_app1 in H1 by assumption.
      rewrite (tokchar_nth _ Ht H1) in H2. discriminate.
    + right. split; [assumption|].
      rewrite nth_error_app2 in H1 by assumption.
      right. right. left. exists x. auto.
  - destruct (Nat.lt_ge_cases (p - 1) (length t)) as [Hlt|Hge].
    + rewrite nth_error_app1 in H1 by assumption.
      rewrite (tokchar_nth _ Ht H1) in H2. discriminate.
    + right. split; [lia|].
      rewrite nth_error_app2 in H1 by assumption.
      right. right. right. exists x. split; [lia|].
      replace (p - length t - 1) with (p - 1 - length t) by lia. auto.
Qed.

Lemma boundary_skipn (R : str) (a e : nat) :
  a <= e -> boundary R e -> boundary (skipn a R) (e - a).
Proof.
  intros Hae [H|[H|[[x [H1 H2]]|[x [H0 [H1 H2]]]]]].
  - left. lia.
  - right. left. rewrite length_skipn. lia.
  - right. right. left. exists x. rewrite nth_error_skipn.
    replace (a + (e - a)) with e by lia. auto.
  - destruct (Nat.eq_dec a e) as [->|Hne]; [left; lia|].
    right. right. right. exists x. split; [lia|].
    rewrite nth_error_skipn.
    replace (a + (e - a - 1)) with (e - 1) by lia. auto.
Qed.

Section Split.
Variable f : str -> option str.

Lemma shape_split (R T : str) :
  shape f R T ->
  forall p, boundary R p ->
  exists T1 T2, T = T1 ++ T2 /\
                shape f (firstn p R) T1 /\ shape f (skipn p R) T2.
Proof.
  induction 1 as [|c P T Hs IH|t o P T Ht Hf Hs IH]; intros p Hb.
  - exists [], []. rewrite firstn_nil, skipn_nil.
    repeat split; constructor.
  - destruct p as [|p].
    + exists [], (c :: T). repeat split; constructor; assumption.
    + apply boundary_chr in Hb. destruct (IH p Hb) as [T1 [T2 [-> [H1 H2]]]].
      exists (c :: T1), T2. repeat split; [constructor|]; assumption.
  - destruct (boundary_tok _ Ht Hb) as [->|[Hle Hb']].
    + exists [], (o ++ T). repeat split; constructor; assumption.
    + destruct (IH _ Hb') as [T1 [T2 [-> [H1 H2]]]].
      exists (o ++ T1), T2. rewrite app_assoc. split; [reflexivity|].
      rewrite firstn_app, skipn_app.
      rewrite firstn_all2, skipn_all2 by assumption. cbn [app].
      split; [constructor|]; assumption.
Qed.

Lemma shape_clean_eq (R T : str) : shape f R T -> clean R -> R = T.
Proof.
  induction 1 as [|c P T Hs IH|t o P T Ht Hf Hs IH]; intros Hc.
  - reflexivity.
  - f_equal. apply IH. apply (clean_tail Hc).
  - exfalso. apply (@token_not_clean t [] P Ht). exact Hc.
Qed.

End Split.

(** Replacing a clean stretch between two boundaries by a placeholder
    that maps to it. *)
Lemma capture_shape (f g : str -> option str) (R T ph : str) (a e : nat) :
  shape f R T ->
  a <= e -> boundary R a -> boundary R e ->
  clean (JS.substring R a e) ->
  token ph -> g ph = Some (JS.substring R a e) ->
  (forall t o, f t = Some o -> g t = Some o) ->
  shape g (firstn a R ++ ph ++ skipn e R) T.
Proof.
  intros Hs Hae Ha He Hc Ht Hg Hfg.
  destruct (shape_split Hs Ha) as [T1 [T2 [-> [H1 H2]]]].
  destruct (shape_split H2 (boundary_skipn Hae He)) as [Ta [Tb [-> [H3 H4]]]].
  assert (Esub : JS.substring R a e = firstn (e - a) (skipn a R)).
  { unfold JS.substring. rewrite Nat.min_l, Nat.max_r by lia. reflexivity. }
  rewrite Esub in Hc, Hg.
  pose proof (shape_clean_eq H3 Hc) as Eo. rewrite Eo in Hg.
  rewrite skipn_skipn in H4. replace (e - a + a) with e in H4 by lia.
  apply shape_app; [apply (shape_weaken _ Hfg H1)|].
  constructor; [assumption|assumption|apply (shape_weaken _ Hfg H4)].
Qed.

End Capture.

(** ** The round trip *)

Module RoundTrip.
Import MathProtector Props StringFacts Termination Tokens ScanFacts.
Import Numbering SplitJoin Shape Capture.

(** The markers of a delimiter begin and end with code units that no
    placeholder contains. *)
Definition edge_delim (d : delim) : Prop :=
  (exists c l, left d = c :: l /\ tokchar c = false) /\
  (exists l c, right d = l ++ [c] /\ tokchar c = false).

Lemma delimiters_edge : Forall edge_delim delimiters.
Proof.
  repeat constructor.
  - exists c_dollar, [c_dollar]. split; reflexivity.
  - exists [c_dollar], c_dollar. split; reflexivity.
  - exists c_bslash, (lit "["). split; reflexivity.
  - exists [c_bslash], (ch "]"). split; reflexivity.
  - exists c_bslash, (lit "("). split; reflexivity.
  - exists [c_bslash], (ch ")"). split; reflexivity.
  - exists c_dollar, []. split; reflexivity.
  - exists [], c_dollar. split; reflexivity.
Qed.

Lemma prefix_nth (w R : str) (i j : nat) (c : char) :
  JS.prefixb w (skipn i R) = true -> nth_error w j = Some c ->
  nth_error R (i + j) = Some c.
Proof.
  intros Hp Hn. apply prefixb_true in Hp.
  rewrite <- nth_error_skipn, Hp.
  rewrite nth_error_app1; [exact Hn|].
  apply nth_error_Some. rewrite Hn. discriminate.
Qed.

(** What a placeholder stands for while the scan runs: a currency mask
    for the range it hides, a token for the text its row holds. *)
Definition lookup (cm : smap str) (m : mathMap) (t : str) : option str :=
  match map_get cm t with
  | Some o => Some o
  | None => option_map original (map_get m t)
  end.

(** The keys of the currency map are the masks 0, 1, ... in order. *)
Definition curInv (cm : smap str) (c : nat) : Prop :=
  map_keys cm = List.map curPlaceholder (seq 0 c).

Lemma curPlaceholder_inj (n m : nat) :
  curPlaceholder n = curPlaceholder m -> n = m.
Proof.
  unfold curPlaceholder. intros H.
  apply app_inv_head in H. apply app_inv_tail in H.
  apply decimal_inj, H.
Qed.

Lemma tokenNumbered_token (k : str) (n : nat) :
  tokenNumbered k n -> token k.
Proof.
  intros [-> | ->].
  - exists KMath, n. apply mathPlaceholder_tok.
  - exists KPending, n. apply pendingPlaceholder_tok.
Qed.

Lemma cur_not_numbered (n m : nat) : ~ tokenNumbered (curPlaceholder n) m.
Proof.
  unfold tokenNumbered, curPlaceholder, mathPlaceholder, pendingPlaceholder.
  cbn. intros [H|H]; discriminate.
Qed.

Lemma curInv_get (cm : smap str) (c : nat) (k o : str) :
  curInv cm c -> map_get cm k = Some o -> exists n, k = curPlaceholder n.
Proof.
  intros Hi Hg. apply map_get_key in Hg. rewrite Hi in Hg.
  apply in_map_iff in Hg. destruct Hg as [n [<- _]]. eauto.
Qed.

Lemma curInv_numbered_none (cm : smap str) (c : nat) (k : str) (n : nat) :
  curInv cm c -> tokenNumbered k n -> map_get cm k = None.
Proof.
  intros Hi Ht. destruct (map_get cm k) as [o|] eqn:E; [|reflexivity].
  destruct (@curInv_get cm c k o Hi E) as [i ->].
  exfalso. apply (@cur_not_numbered i n Ht).
Qed.

Lemma curInv_fresh (cm : smap str) (c : nat) :
  curInv cm c -> map_get cm (curPlaceholder c) = None.
Proof.
  intros Hi. destruct (map_get cm (curPlaceholder c)) as [o|] eqn:E;
    [|reflexivity].
  apply map_get_key in E. rewrite Hi in E. apply in_map_iff in E.
  destruct E as [n [En Hn]]. apply curPlaceholder_inj in En.
  apply in_seq in Hn. lia.
Qed.

Lemma curInv_set (cm : smap str) (c : nat) (o : str) :
  curInv cm c ->
  map_set cm (curPlaceholder c) o = cm ++ [(curPlaceholder c, o)] /\
  curInv (cm ++ [(curPlaceholder c, o)]) (S c).
Proof.
  intros Hi. split; [apply map_set_fresh, curInv_fresh, Hi|].
  unfold curInv, map_keys in *. rewrite map_app, Hi, seq_S, map_app.
  reflexivity.
Qed.

Lemma map_get_last (V : Type) (m : smap V) (k : str) (v : V) :
  map_get m k = None -> map_get (m ++ [(k, v)]) k = Some v.
Proof.
  induction m as [|[k' v'] m IH]; simpl.
  - rewrite str_eqb_refl. reflexivity.
  - destruct (str_eqb k k'); [discriminate|]. exact IH.
Qed.

Lemma pair_inj (A B : Type) (a c : A) (b d : B) :
  (a, b) = (c, d) -> a = c /\ b = d.
Proof. intros H. injection H. auto. Qed.

(** Step 1 of [protect] leaves a text in which each mask stands for the
    range it replaced. *)
Lemma premask_shape (fuel : nat) :
  forall (p p' : protector) (prev : option char) (s out : str),
    Regex.replace_fuel fuel re_currencyRange maskRange p prev s = (p', out) ->
    curInv (currencyMap p) (currencyCounter p) ->
    curInv (currencyMap p') (currencyCounter p') /\
    (forall k o, map_get (currencyMap p) k = Some o ->
                 map_get (currencyMap p') k = Some o) /\
    shape (map_get (currencyMap p')) out s.
Proof.
  induction fuel as [|f IH]; intros p p' prev s out H Hi;
    cbn [Regex.replace_fuel] in H.
  - apply pair_inj in H. destruct H as [<- <-].
    repeat split; auto. apply shape_id.
  - destruct (Regex.exec_from re_currencyRange prev s 0) as [[i n]|].
    2:{ apply pair_inj in H. destruct H as [<- <-].
        repeat split; auto. apply shape_id. }
    change (maskRange p (firstn n (skipn i s)))
      with ({| counter := counter p;
               currencyCounter := S (currencyCounter p);
               currencyMap :=
                 map_set (currencyMap p)
                   (curPlaceholder (currencyCounter p))
                   (firstn n (skipn i s));
               opts := opts p |},
            curPlaceholder (currencyCounter p)) in H.
    cbv beta iota in H.
    destruct (@curInv_set (currencyMap p) (currencyCounter p)
                (firstn n (skipn i s)) Hi) as [Eset Hi1].
    set (p1 := {| counter := counter p;
                  currencyCounter := S (currencyCounter p);
                  currencyMap :=
                    map_set (currencyMap p)
                      (curPlaceholder (currencyCounter p))
                      (firstn n (skipn i s));
                  opts := opts p |}) in *.
    assert (Hi1' : curInv (currencyMap p1) (currencyCounter p1)).
    { subst p1. cbn [currencyMap currencyCounter]. rewrite Eset. exact Hi1. }
    assert (Hget1 : map_get (currencyMap p1)
                      (curPlaceholder (currencyCounter p))
                    = Some (firstn n (skipn i s))).
    { subst p1. cbn [currencyMap]. rewrite Eset.
      apply map_get_last. apply (@curInv_fresh _ _ Hi). }
    assert (Hmono1 : forall k o, map_get (currencyMap p) k = Some o ->
                                 map_get (currencyMap p1) k = Some o).
    { intros k o Hk. subst p1. cbn [currencyMap]. rewrite Eset.
      apply map_get_app, Hk. }
    assert (Htok : token (curPlaceholder (currencyCounter p))).
    { exists KCur, (currencyCounter p). apply curPlaceholder_tok. }
    clearbody p1. clear Eset Hi1.
    destruct n as [|n].
    + destruct (skipn i s) as [|c s'] eqn:Es.
      * apply pair_inj in H. destruct H as [<- <-].
        split; [exact Hi1'|]. split; [exact Hmono1|].
        rewrite <- (firstn_skipn i s) at 2. rewrite Es.
        apply shape_app; [apply shape_id|].
        rewrite <- (app_nil_r (curPlaceholder (currencyCounter p))).
        apply (@sh_tok _ _ [] [] []); [exact Htok|exact Hget1|constructor].
      * destruct (Regex.replace_fuel f re_currencyRange maskRange p1
                    (Some c) s') as [a2 o2] eqn:Er.
        apply pair_inj in H. destruct H as [<- <-].
        destruct (IH _ _ _ _ _ Er Hi1') as [Hi2 [Hmono2 Hs2]].
        split; [exact Hi2|]. split; [auto|].
        rewrite <- (firstn_skipn i s) at 2. rewrite Es.
        apply shape_app; [apply shape_id|].
        apply (@sh_tok _ _ [] (c :: o2) (c :: s'));
          [exact Htok|apply Hmono2, Hget1|].
        constructor. exact Hs2.
    + destruct (Regex.replace_fuel f re_currencyRange maskRange p1
                  (Regex.lastChar prev s (i + S n)) (skipn (i + S n) s))
        as [a2 o2] eqn:Er.
      apply pair_inj in H. destruct H as [<- <-].
      destruct (IH _ _ _ _ _ Er Hi1') as [Hi2 [Hmono2 Hs2]].
      split; [exact Hi2|]. split; [auto|].
      rewrite <- (firstn_skipn i s) at 2.
      apply shape_app; [apply shape_id|].
      rewrite <- (firstn_skipn (S n) (skipn i s)).
      rewrite skipn_skipn. rewrite (Nat.add_comm (S n) i).
      constructor; [exact Htok|apply Hmono2, Hget1|exact Hs2].
Qed.

(** Every row keeps the captured text, which is not empty, next to its
    encoding. *)
Definition rowsOk (cd : codec) (m : mathMap) : Prop :=
  forall k i, In (k, i) m ->
    encodedOriginal i = encodeBase64 cd (original i) /\ original i <> [].

Definition state_of (out : flow) : scan :=
  match out with Continue st | Break st => st end.

Lemma lookup_grows (cm : smap str) (m extra : mathMap) (t o : str) :
  lookup cm m t = Some o -> lookup cm (m ++ extra) t = Some o.
Proof.
  unfold lookup. destruct (map_get cm t); [auto|].
  destruct (map_get m t) as [i|] eqn:E; [|discriminate].
  rewrite (map_get_app _ extra _ E). auto.
Qed.

Lemma substring_length (R : str) (a e : nat) :
  a <= e -> e <= length R -> length (JS.substring R a e) = e - a.
Proof.
  intros H1 H2. unfold JS.substring.
  rewrite Nat.min_l, Nat.max_r by lia.
  rewrite length_firstn, length_skipn. lia.
Qed.

Lemma step_shape (cd : codec) (d : delim) (cm : smap str) (c c0 : nat)
      (T : str) (st : scan) (out : flow) :
  step_case cd d st out -> edge_delim d -> curInv cm c ->
  numbered c0 (table st) (ctr st) -> rowsOk cd (table st) ->
  shape (lookup cm (table st)) (result st) T ->
  (forall k i, In (k, i) (table (state_of out)) -> clean (original i)) ->
  rowsOk cd (table (state_of out)) /\
  shape (lookup cm (table (state_of out))) (result (state_of out)) T.
Proof.
  intros Hcase [[cl [ll [El Hcl]]] [lr [cr [Er Hcr]]]] Hcur Hnum Hrows Hs Hclean.
  destruct Hcase as [|q H1 H2|a e ph info H1 H2 H3 H4 H5 H6 H7];
    cbn [state_of] in *; try (split; assumption).
  assert (Ht : tokenNumbered ph (ctr st)).
  { destruct (isPending info); destruct H5 as [-> _];
      [right|left]; reflexivity. }
  destruct (@numbered_set c0 _ _ ph info Hnum Ht) as [Eset Hnum'].
  pose proof (@numbered_fresh c0 _ _ ph Hnum Ht) as Hfresh.
  cbn [table result] in *. rewrite Eset in *.
  split.
  - intros k i Hin. apply in_app_or in Hin. destruct Hin as [Hin|[Hin|[]]].
    + apply (Hrows k i Hin).
    + inversion Hin. subst. split; [assumption|].
      rewrite H6. intros E. apply (f_equal (@length char)) in E.
      rewrite substring_length in E by lia. simpl in E. lia.
  - assert (Hcl' : clean (JS.substring (result st) a e)).
    { rewrite <- H6. apply (Hclean ph info).
      apply in_or_app. right. left. reflexivity. }
    apply (@capture_shape (lookup cm (table st))); try assumption.
    + lia.
    + right. right. left. exists cl. split; [|exact Hcl].
      rewrite <- (Nat.add_0_r a). apply (@prefix_nth (left d)).
      * exact H4.
      * rewrite El. reflexivity.
    + destruct (isPending info).
      * destruct H5 as [_ [->|Hp]]; [right; left; lia|].
        right. right. left. exists c_nl. split; [|reflexivity].
        rewrite <- (Nat.add_0_r e). apply (@prefix_nth [c_nl; c_nl]).
        -- exact Hp.
        -- reflexivity.
      * destruct H5 as [_ [rp [-> Hp]]].
        right. right. right. exists cr. split; [|split; [|exact Hcr]].
        -- rewrite Er, length_app. simpl. lia.
        -- replace (rp + length (right d) - 1) with (rp + length lr)
             by (rewrite Er, length_app; simpl; lia).
           apply (@prefix_nth (right d)); [exact Hp|].
           rewrite Er, nth_error_app2 by lia.
           rewrite Nat.sub_diag. reflexivity.
    + apply (tokenNumbered_token Ht).
    + unfold lookup. rewrite (@curInv_numbered_none cm c ph _ Hcur Ht).
      rewrite (@map_get_last _ (table st) ph info Hfresh). cbn [option_map]. rewrite H6.
      reflexivity.
    + intros t o. apply lookup_grows.
Qed.

Lemma scan_loop_shape (cd : codec) (d : delim) (cm : smap str) (c c0 : nat)
      (T : str) :
  wf_delim d -> edge_delim d -> curInv cm c ->
  forall (fuel : nat) (st st' : scan),
    scan_loop fuel cd d st = Some st' ->
    numbered c0 (table st) (ctr st) -> rowsOk cd (table st) ->
    shape (lookup cm (table st)) (result st) T ->
    (forall k i, In (k, i) (table st') -> clean (original i)) ->
    rowsOk cd (table st') /\ shape (lookup cm (table st')) (result st') T.
Proof.
  intros Hwf Hedge Hcur. induction fuel as [|f IH]; intros st st' Hl;
    cbn [scan_loop] in Hl; [discriminate|].
  destruct (searchPos st <? length (result st)) eqn:E.
  2:{ apply some_inj in Hl. subst st'. auto. }
  apply Nat.ltb_lt in E.
  destruct (scan_step cd d st) as [out|] eqn:Es; [|discriminate].
  pose proof (@scan_step_cases cd d st out Hwf E Es) as Hc.
  intros Hnum Hrows Hs Hclean.
  pose proof (@step_numbered cd d st out c0 Hc Hnum) as Hstep.
  destruct out as [st1|st1].
  - destruct Hstep as [Hn1 _].
    destruct (@scan_loop_numbered cd d c0 Hwf f st1 st' Hl Hn1)
      as [_ [extra Hx]].
    destruct (@step_shape cd d cm c c0 T st (Continue st1) Hc Hedge Hcur
                Hnum Hrows Hs) as [Hr1 Hs1].
    { cbn [state_of]. intros k i Hin. apply (Hclean k i).
      rewrite Hx. apply in_or_app. left. exact Hin. }
    apply (IH st1 st' Hl Hn1 Hr1 Hs1 Hclean).
  - apply some_inj in Hl. subst st'.
    apply (@step_shape cd d cm c c0 T st (Break st1) Hc Hedge Hcur
             Hnum Hrows Hs Hclean).
Qed.

Lemma protectDelims_shape (cd : codec) (cm : smap str) (c c0 : nat)
      (T : str) (ds : list delim) :
  Forall wf_delim ds -> Forall edge_delim ds -> curInv cm c ->
  forall (content : str) (m : mathMap) (n : nat) (content' : str)
         (m' : mathMap) (n' : nat),
    protectDelims cd ds content m n = Some (content', m', n') ->
    numbered c0 m n -> rowsOk cd m ->
    shape (lookup cm m) content T ->
    (forall k i, In (k, i) m' -> clean (original i)) ->
    rowsOk cd m' /\ shape (lookup cm m') content' T.
Proof.
  intros Hwf. induction Hwf as [|d ds Hd Hds IH]; intros Hedge Hcur
    content m n content' m' n' Hp Hnum Hrows Hs Hclean;
    cbn [protectDelims] in Hp.
  - apply some_inj in Hp. inversion Hp. subst. auto.
  - inversion Hedge as [|? ? He Hes]. subst.
    unfold extractAndReplace in Hp.
    destruct (scan_loop (S (length content)) cd d
                {| result := content; searchPos := 0;
                   table := m; ctr := n |}) as [st1|] eqn:El;
      [|discriminate].
    destruct (@scan_loop_numbered cd d c0 Hd _ _ _ El Hnum) as [Hn1 _].
    destruct (@protectDelims_numbered cd c0 ds Hds _ _ _ _ _ _ Hp Hn1)
      as [_ [extra Hx]].
    destruct (@scan_loop_shape cd d cm c c0 T Hd He Hcur _ _ _ El
                Hnum Hrows Hs) as [Hr1 Hs1].
    { intros k i Hin. apply (Hclean k i). rewrite Hx.
      apply in_or_app. left. exact Hin. }
    apply (IH Hes Hcur _ _ _ _ _ _ Hp Hn1 Hr1 Hs1 Hclean).
Qed.

(** [f] without the placeholders [ks]. *)
Definition withoutAll (f : str -> option str) (ks : list str) (t : str)
  : option str :=
  if existsb (str_eqb t) ks then None else f t.

Lemma withoutAll_cons (f : str -> option str) (k : str) (ks : list str)
      (t o : str) :
  withoutAll (without f k) ks t = Some o ->
  withoutAll f (k :: ks) t = Some o.
Proof.
  unfold withoutAll, without. cbn [existsb].
  destruct (existsb (str_eqb t) ks); [discriminate|].
  destruct (str_eqb t k); [discriminate|]. auto.
Qed.

Lemma existsb_In (t : str) (ks : list str) :
  existsb (str_eqb t) ks = true <-> In t ks.
Proof.
  rewrite existsb_exists. split.
  - intros [x [Hx E]]. apply str_eqb_eq in E. subst. exact Hx.
  - intros H. exists t. split; [exact H|apply str_eqb_refl].
Qed.

(** Step 3 of [protect]. *)
Lemma unmask_shape (L : list (str * str)) :
  forall (f : str -> option str) (P T : str),
    (forall k o, In (k, o) L ->
                 token k /\ forall o', f k = Some o' -> o' = o) ->
    shape f P T -> clean T ->
    shape (withoutAll f (List.map fst L))
          (fold_left (fun acc kv => JS.splitJoin (fst kv) (snd kv) acc) L P)
          T.
Proof.
  induction L as [|[k o] L IH]; intros f P T HL Hs Hc; cbn [fold_left].
  - apply (@shape_weaken f (withoutAll f []) P T); [|exact Hs].
    intros t o H. exact H.
  - destruct (HL k o (or_introl eq_refl)) as [Hk Hf].
    pose proof (@restore_step f k o Hk Hf P T Hs Hc) as Hs1.
    cbn [fst snd List.map].
    apply (@shape_weaken (withoutAll (without f k) (List.map fst L))
                          (withoutAll f (k :: List.map fst L))).
    + intros t o0. apply withoutAll_cons.
    + apply IH; [|exact Hs1|exact Hc].
      intros k' o' Hin. destruct (HL k' o' (or_intror Hin)) as [Hk' Hf'].
      split; [exact Hk'|]. intros o'' H. apply Hf'.
      unfold without in H. destruct (str_eqb k' k); [discriminate|exact H].
Qed.

Lemma map_get_In (V : Type) (m : smap V) (k : str) (v : V) :
  map_get m k = Some v -> In (k, v) m.
Proof.
  induction m as [|[k' v'] m IH]; simpl; [discriminate|].
  destruct (str_eqb k k') eqn:E.
  - apply str_eqb_eq in E. intros H. inversion H. subst. auto.
  - auto.
Qed.

Lemma map_get_unique (V : Type) (m : smap V) (k : str) (v : V) :
  NoDup (map_keys m) -> In (k, v) m -> map_get m k = Some v.
Proof.
  induction m as [|[k' v'] m IH]; simpl; [tauto|].
  intros Hnd [H|H].
  - inversion H. subst. rewrite str_eqb_refl. reflexivity.
  - inversion Hnd as [|? ? Hnot Hnd']. subst.
    destruct (str_eqb k k') eqn:E.
    + apply str_eqb_eq in E. subst. exfalso. apply Hnot.
      apply (in_map fst) in H. exact H.
    + apply IH; assumption.
Qed.

Lemma curInv_NoDup (cm : smap str) (c : nat) :
  curInv cm c -> NoDup (map_keys cm).
Proof.
  intros ->. apply Stdlib.Lists.Finite.Injective_map_NoDup; [|apply seq_NoDup].
  intros x y. apply curPlaceholder_inj.
Qed.

Lemma insert_sorted_In (x y : str) (l : list str) :
  In y (JS.insert_sorted x l) <-> y = x \/ In y l.
Proof.
  induction l as [|z l IH]; simpl.
  - intuition congruence.
  - destruct (JS.str_ltb z x); simpl; rewrite ?IH; intuition congruence.
Qed.

Lemma sort_In (y : str) (l : list str) : In y (JS.sort l) <-> In y l.
Proof.
  induction l as [|x l IH]; simpl; [tauto|].
  rewrite insert_sorted_In, IH. intuition congruence.
Qed.


Section Restore.
Variable cd : codec.
Hypothesis codec_roundtrip : forall s, decodeBase64 cd (encodeBase64 cd s) = s.
Variable q : protector.
Variable katexLib : option katex.
Hypothesis rendering_disabled :
  renderOnRestore (opts q) = false \/ katexLib = None.
Variable m : mathMap.
Hypothesis rows : rowsOk cd m.
Hypothesis keys_tokens : forall k i, map_get m k = Some i -> token k.

Definition rowText (t : str) : option str :=
  option_map original (map_get m t).


End Restore.

Lemma lookup_nil (cm : smap str) (t o : str) :
  map_get cm t = Some o -> lookup cm [] t = Some o.
Proof. unfold lookup. intros ->. reflexivity. Qed.




End RoundTrip.

(** ** Facts about the matcher *)

Module RegexFacts.
Import Regex Props StringFacts.

Lemma firstn_In_le (s : str) (k n : nat) (c : char) :
  k <= n -> In c (firstn k s) -> In c (firstn n s).
Proof.
  revert k n. induction s as [|x s IH]; intros k n Hle.
  - rewrite !firstn_nil. auto.
  - destruct k as [|k]; [intros []|]. destruct n as [|n]; [lia|].
    simpl. intros [H|H]; [auto|]. right. apply (IH k n); [lia|exact H].
Qed.

Lemma firstn_In_skip (s : str) (k j : nat) (c : char) :
  In c (firstn j (skipn k s)) -> In c (firstn (k + j) s).
Proof.
  revert k. induction s as [|x s IH]; intros k.
  - rewrite skipn_nil, !firstn_nil. auto.
  - destruct k as [|k]; [auto|]. simpl. intros H. right. apply IH, H.
Qed.

Lemma firstn_In (s : str) (n : nat) (c : char) :
  In c (firstn n s) -> In c s.
Proof.
  intros H. rewrite <- (firstn_skipn n s). apply in_or_app. left. exact H.
Qed.

Lemma skipn_In (s : str) (n : nat) (c : char) :
  In c (skipn n s) -> In c s.
Proof.
  intros H. rewrite <- (firstn_skipn n s). apply in_or_app. right. exact H.
Qed.

Lemma needs_sound (P : char -> Prop) (r : regex) :
  needs P r ->
  forall prev s n, In n (mlens r prev s) -> exists c, In c (firstn n s) /\ P c.
Proof.
  induction r as [|p|a IHa b IHb|a IHa b IHb|a IHa| | |];
    simpl; intros H prev s n Hin; try contradiction.
  - destruct s as [|c s]; [contradiction|].
    destruct (p c) eqn:E; [|contradiction].
    destruct Hin as [<-|[]]. exists c. split; [left; reflexivity|auto].
  - apply in_flat_map in Hin. destruct Hin as [k [Hk Hin]].
    apply in_map_iff in Hin. destruct Hin as [j [<- Hj]].
    destruct H as [H|H].
    + destruct (IHa H _ _ _ Hk) as [c [Hc HP]]. exists c. split; [|exact HP].
      apply (@firstn_In_le s k (k + j) c); [lia|exact Hc].
    + destruct (IHb H _ _ _ Hj) as [c [Hc HP]]. exists c. split; [|exact HP].
      apply firstn_In_skip, Hc.
  - destruct H as [Ha Hb]. apply in_app_iff in Hin.
    destruct Hin as [Hin|Hin]; eauto.
Qed.

(** A pattern that needs a code unit the text does not hold matches
    nowhere in it. *)
Lemma exec_from_needs (P : char -> Prop) (r : regex) :
  needs P r ->
  forall s prev pos,
    (forall c, In c s -> ~ P c) -> exec_from r prev s pos = None.
Proof.
  intros Hn. induction s as [|x s IH]; intros prev pos Hs; simpl.
  - destruct (mlens r prev []) as [|n l] eqn:E; [reflexivity|].
    destruct (@needs_sound P r Hn prev [] n) as [c [Hc _]];
      [rewrite E; left; reflexivity|].
    rewrite firstn_nil in Hc. destruct Hc.
  - destruct (mlens r prev (x :: s)) as [|n l] eqn:E.
    + apply IH. intros c Hc. apply Hs. right. exact Hc.
    + destruct (@needs_sound P r Hn prev (x :: s) n) as [c [Hc HP]];
        [rewrite E; left; reflexivity|].
      exfalso. apply (Hs c); [|exact HP]. apply (firstn_In _ _ _ Hc).
Qed.

Lemma test_needs (P : char -> Prop) (r : regex) (s : str) :
  needs P r -> (forall c, In c s -> ~ P c) -> test r s = false.
Proof.
  intros Hn Hs. unfold test. rewrite (@exec_from_needs P r Hn s None 0 Hs).
  reflexivity.
Qed.

Lemma matchAll_needs (P : char -> Prop) (r : regex) (s : str) :
  needs P r -> (forall c, In c s -> ~ P c) -> matchAll r s = [].
Proof.
  intros Hn Hs. unfold matchAll. simpl.
  rewrite (@exec_from_needs P r Hn s None 0 Hs). reflexivity.
Qed.

Lemma replace_needs (A : Type) (P : char -> Prop) (r : regex)
      (fn : A -> str -> A * str) (a : A) (s : str) :
  needs P r -> (forall c, In c s -> ~ P c) -> replace r fn a s = (a, s).
Proof.
  intros Hn Hs. unfold replace. simpl.
  rewrite (@exec_from_needs P r Hn s None 0 Hs). reflexivity.
Qed.

(** A match at the head of the text is a match of [test]. *)
Lemma test_at_start (r : regex) (s : str) (n : nat) :
  In n (mlens r None s) -> test r s = true.
Proof.
  intros H. unfold test.
  destruct s as [|x s]; simpl;
    destruct (mlens r None _) as [|k l]; try reflexivity; destruct H.
Qed.

(** A match anywhere in the text is found by the search. *)
Lemma exec_from_some (r : regex) :
  forall (i : nat) (s : str) (prev : option char) (pos n : nat),
    In n (mlens r (lastChar prev s i) (skipn i s)) -> i <= length s ->
    exec_from r prev s pos <> None.
Proof.
  induction i as [|i IH]; intros s prev pos n Hin Hle.
  - simpl in Hin. destruct s as [|x s]; simpl;
      destruct (mlens r prev _) as [|k l]; try discriminate; destruct Hin.
  - destruct s as [|x s]; [simpl in Hle; lia|].
    cbn [exec_from]. destruct (mlens r prev (x :: s)); [|discriminate].
    apply (IH s (Some x) (S pos) n); [|simpl in Hle; lia].
    cbn [skipn lastChar nth_error] in Hin.
    destruct i as [|i]; exact Hin.
Qed.

Lemma test_somewhere (r : regex) (a b : str) (n : nat) :
  In n (mlens r (lastChar None (a ++ b) (length a)) b) -> test r (a ++ b) = true.
Proof.
  intros H. unfold test.
  destruct (exec_from r None (a ++ b) 0) eqn:E; [reflexivity|].
  exfalso. revert E. apply (@exec_from_some r (length a) (a ++ b) None 0 n).
  - rewrite skipn_app, skipn_all, Nat.sub_diag. exact H.
  - rewrite length_app. lia.
Qed.

Lemma mlens_seq_intro (a b : regex) (prev : option char) (s : str)
      (k j : nat) :
  In k (mlens a prev s) ->
  In j (mlens b (lastChar prev s k) (skipn k s)) ->
  In (k + j) (mlens (Seq a b) prev s).
Proof.
  intros Hk Hj. cbn [mlens]. apply in_flat_map. exists k.
  split; [exact Hk|]. apply in_map, Hj.
Qed.

Lemma star_lens_zero (m : option char -> str -> list nat) (f : nat)
      (prev : option char) (s : str) :
  In 0 (star_lens m f prev s).
Proof.
  destruct f; simpl; [auto|]. apply in_or_app. right. left. reflexivity.
Qed.

(** Greedy repetition of a class can take a whole run of the class. *)
Lemma star_cls_run (p : char -> bool) :
  forall (u t : str) (prev : option char) (f : nat),
    length u <= f -> forallb p u = true ->
    In (length u) (star_lens (mlens (Cls p)) f prev (u ++ t)).
Proof.
  induction u as [|c u IH]; intros t prev f Hf Hp.
  - apply star_lens_zero.
  - destruct f as [|f]; [simpl in Hf; lia|].
    cbn [forallb] in Hp. apply andb_true_iff in Hp. destruct Hp as [Hc Hu].
    cbn [star_lens app mlens]. rewrite Hc. cbn [flat_map].
    apply in_or_app. left. rewrite app_nil_r.
    change (length (c :: u)) with (1 + length u).
    apply in_map. cbn [skipn]. apply IH; [simpl in Hf; lia|exact Hu].
Qed.

Lemma mlens_star_run (p : char -> bool) (u t : str) (prev : option char) :
  forallb p u = true -> In (length u) (mlens (Star (Cls p)) prev (u ++ t)).
Proof.
  intros H. cbn [mlens]. apply star_cls_run; [|exact H].
  rewrite length_app. lia.
Qed.

(** An anchored pattern matches at the start of the text or nowhere. *)
Lemma exec_from_bol_inner (r : regex) :
  forall s c pos, exec_from (Seq Bol r) (Some c) s pos = None.
Proof.
  induction s as [|x s IH]; intros c pos; simpl; [reflexivity|apply IH].
Qed.

Lemma map_add0 (l : list nat) : List.map (Nat.add 0) l = l.
Proof. induction l as [|x l IH]; [reflexivity|]. cbn [List.map]. f_equal. exact IH. Qed.

Lemma test_bol (r : regex) (s : str) :
  test (Seq Bol r) s = match mlens r None s with [] => false | _ => true end.
Proof.
  unfold test.
  destruct s as [|x s]; cbn [exec_from mlens flat_map lastChar skipn];
    rewrite app_nil_r, map_add0.
  - destruct (mlens r None []); reflexivity.
  - destruct (mlens r None (x :: s)); [|reflexivity].
    rewrite exec_from_bol_inner. reflexivity.
Qed.

End RegexFacts.

(** ** The currency classifier *)

Module Classifier.
Import Regex CurrencyDetector Props StringFacts RegexFacts.

(** Decide a boolean combination of comparisons of code units. *)
Ltac literal :=
  repeat match goal with
         | |- context [lit ?a] =>
             let v := eval vm_compute in (lit a) in change (lit a) with v
         | |- context [ch ?a] =>
             let v := eval vm_compute in (ch a) in change (ch a) with v
         end.

Ltac classes :=
  unfold orb_cls, oneOf, isWord, isAlpha, isUpper, isLower, isDigit,
    JS.isSpace, char_eqb;
  literal; cbn [existsb];
  repeat (match goal with
          | |- context [N.leb ?a ?b] => destruct (N.leb_spec a b)
          | |- context [N.eqb ?a ?b] => destruct (N.eqb_spec a b)
          end; try lia; cbn [andb orb negb]);
  try reflexivity; try discriminate;
  try (intros; reflexivity); try (intros; discriminate).

Lemma trimStart_keeps (c : char) (s : str) :
  In c s -> JS.isSpace c = false -> In c (JS.trimStart s).
Proof.
  induction s as [|x s IH]; intros Hin Hc; [destruct Hin|].
  simpl. destruct (JS.isSpace x) eqn:E.
  - destruct Hin as [->|Hin]; [congruence|]. apply IH; assumption.
  - exact Hin.
Qed.

(** A text that holds a code unit other than white space is not blank. *)
Lemma blank_false (c : char) (s : str) :
  In c s -> JS.isSpace c = false -> JS.blank s = false.
Proof.
  intros Hin Hc. unfold JS.blank, JS.trim.
  assert (H : In c (rev (JS.trimStart (rev (JS.trimStart s))))).
  { apply in_rev. rewrite rev_involutive. apply trimStart_keeps; [|exact Hc].
    apply in_rev. rewrite rev_involutive. apply trimStart_keeps; assumption. }
  destruct (rev _); [destruct H|reflexivity].
Qed.

Lemma test_cls (p : char -> bool) (c : char) (s : str) :
  In c s -> p c = true -> test (Cls p) s = true.
Proof.
  intros Hin Hp. apply in_split in Hin. destruct Hin as [a [b ->]].
  apply (@test_somewhere (Cls p) a (c :: b) 1). simpl. rewrite Hp.
  left. reflexivity.
Qed.

Lemma mlens_star_all (p : char -> bool) (s : str) (prev : option char) :
  forallb p s = true -> In (length s) (mlens (Star (Cls p)) prev s).
Proof.
  intros H. rewrite <- (app_nil_r s) at 2. apply mlens_star_run, H.
Qed.

Lemma head_unfold (content : str) :
  looksLikeCurrency content =
  if match content with [] => true | _ => JS.blank content end then true
  else if test re_latex content then false
  else if test re_call content then false
  else if test re_equals content then false
  else if test re_compare content then false
  else if test re_listMarker content then true
  else if test re_sentence content then true
  else if 2 <=? length (filter (fun w => negb (inSet latexCommands (toLowerCase w)))
                               (matchAll re_word3 content)) then true
  else if test re_markdown content then true
  else if test re_numeric content then true
  else if test re_rangeLead content then true
  else if test re_unit content then true
  else if test re_perWord content then true
  else if test re_letter content && test re_infix content then false
  else if
    (if test re_digitLead content then
       (0 <? length (matchAll re_word1 content)) &&
       (length (filter (fun w => negb (inSet currencyConnectors (toLowerCase w)))
                       (matchAll re_word1 content)) =? 0)
     else false)
  then true
  else if test re_variable (JS.trim content) then false
  else if test re_broad content then true
  else if
    (if test re_digitLead content then
       test re_commaWord content || test re_colon content
     else false)
  then true
  else if
    (if length content <? 20 then length (filter isAlpha content) <=? 3
     else false)
  then true
  else length content <? 10.
Proof. reflexivity. Qed.

(** X1: a content that holds a backslash, a caret, an underscore, a brace,
    an equals sign or an angle bracket is never taken for currency. *)
Theorem math_characters_are_never_currency (content : str) (c : char) :
  In c content -> In c (lit "\^_{}=<>") ->
  looksLikeCurrency content = false.
Proof.
  intros Hin Hc. rewrite head_unfold.
  assert (Hsp : JS.isSpace c = false).
  { cbn in Hc. repeat (destruct Hc as [<-|Hc]; [reflexivity|]). destruct Hc. }
  destruct content as [|x s]; [destruct Hin|].
  rewrite (blank_false _ _ Hin Hsp).
  assert (H : test re_latex (x :: s) = true \/ test re_equals (x :: s) = true
              \/ test re_compare (x :: s) = true).
  { cbn in Hc.
    repeat (destruct Hc as [<-|Hc];
            [first [ left; apply (test_cls _ _ _ Hin); reflexivity
                   | right; left; apply (test_cls _ _ _ Hin); reflexivity
                   | right; right; apply (test_cls _ _ _ Hin); reflexivity ]|]).
    destruct Hc. }
  destruct (test re_latex (x :: s)); [reflexivity|].
  destruct (test re_call (x :: s)); [reflexivity|].
  destruct (test re_equals (x :: s)); [reflexivity|].
  destruct (test re_compare (x :: s)); [reflexivity|].
  destruct H as [H|[H|H]]; discriminate.
Qed.

Lemma amount_matches_numeric (x : char) (s : str) :
  forallb amountChar (x :: s) = true -> test re_numeric (x :: s) = true.
Proof.
  intros H. cbn [forallb] in H. apply andb_true_iff in H. destruct H as [Hx Hs].
  assert (Hcls : forall c, amountChar c = true ->
                 orb_cls isDigit (oneOf (lit ".,")) c = true).
  { intros c Hc. unfold amountChar in Hc. unfold orb_cls, oneOf. cbn.
    destruct (isDigit c); [reflexivity|]. cbn in *.
    rewrite orb_false_r. exact Hc. }
  apply (@test_at_start _ _ (0 + ((1 + length s) + (0 + 0)))).
  unfold re_numeric. apply mlens_seq_intro; [left; reflexivity|].
  cbn [lastChar skipn].
  apply mlens_seq_intro.
  - unfold Plus, digitOr. apply mlens_seq_intro.
    + cbn [mlens]. rewrite (Hcls x Hx). left. reflexivity.
    + cbn [skipn]. apply mlens_star_all.
      apply forallb_forall. intros c Hc. apply Hcls.
      apply (proj1 (forallb_forall _ _) Hs c Hc).
  - replace (skipn (1 + length s) (x :: s)) with (@nil char)
      by (symmetry; apply skipn_all2; simpl; lia).
    apply mlens_seq_intro; [cbn; left; reflexivity|].
    cbn. left. reflexivity.
Qed.

(** X2: a content made of digits, dots and commas only is always taken for
    currency. *)
Theorem plain_amounts_are_currency (content : str) :
  forallb amountChar content = true -> looksLikeCurrency content = true.
Proof.
  intros H. rewrite head_unfold.
  destruct content as [|x s]; [reflexivity|].
  destruct (JS.blank (x :: s)); [reflexivity|].
  assert (Hall : forall c, In c (x :: s) -> amountChar c = true).
  { apply forallb_forall, H. }
  assert (Hdig : forall (q : char -> bool),
             (forall c, q c = true -> amountChar c = false) ->
             forall c, In c (x :: s) -> ~ (q c = true)).
  { intros q Hq c Hc Hqc. specialize (Hall c Hc).
    rewrite (Hq c Hqc) in Hall. discriminate. }
  rewrite (@test_needs (fun c => oneOf (lit "\^_{}") c = true) re_latex).
  2:{ intros c Hc. exact Hc. }
  2:{ apply Hdig. intros c. unfold amountChar. classes. }
  rewrite (@test_needs (fun c => isAlpha c = true) re_call).
  2:{ left. intros c Hc. exact Hc. }
  2:{ apply Hdig. intros c. unfold amountChar. classes. }
  rewrite (@test_needs (fun c => (ch "=" =? c)%N = true) re_equals).
  2:{ intros c Hc. exact Hc. }
  2:{ apply Hdig. intros c. unfold amountChar. classes. }
  rewrite (@test_needs (fun c => oneOf (lit "<>") c = true) re_compare).
  2:{ intros c Hc. exact Hc. }
  2:{ apply Hdig. intros c. unfold amountChar. classes. }
  destruct (test re_listMarker (x :: s)); [reflexivity|].
  destruct (test re_sentence (x :: s)); [reflexivity|].
  destruct (2 <=? _); [reflexivity|].
  destruct (test re_markdown (x :: s)); [reflexivity|].
  rewrite (amount_matches_numeric _ _ H). reflexivity.
Qed.

Lemma trimStart_id (s : str) :
  (forall c, In c s -> JS.isSpace c = false) -> JS.trimStart s = s.
Proof.
  destruct s as [|x s]; intros H; [reflexivity|].
  simpl. rewrite (H x (or_introl eq_refl)). reflexivity.
Qed.

Lemma trim_id (s : str) :
  (forall c, In c s -> JS.isSpace c = false) -> JS.trim s = s.
Proof.
  intros H. unfold JS.trim. rewrite (trimStart_id s H).
  rewrite trimStart_id; [apply rev_involutive|].
  intros c Hc. apply H. apply in_rev. exact Hc.
Qed.

Lemma word3_none (c : char) (ds : str) (prev : option char) (pos : nat) :
  forallb isDigit ds = true -> exec_from re_word3 prev (c :: ds) pos = None.
Proof.
  intros Hd.
  assert (Hrest : forall prev' pos', exec_from re_word3 prev' ds pos' = None).
  { intros prev' pos'.
    apply (@exec_from_needs (fun x => isAlpha x = true));
      [right; left; intros x Hx; exact Hx|].
    intros x Hx.
    pose proof (proj1 (forallb_forall _ _) Hd x Hx) as Hdx.
    revert Hdx. classes. }
  cbn [exec_from].
  assert (E : mlens re_word3 prev (c :: ds) = []).
  { unfold re_word3, alpha. cbn [mlens].
    destruct (xorb _ _); cbn [flat_map]; [|reflexivity].
    rewrite app_nil_r. cbn [lastChar skipn].
    destruct (isAlpha c); cbn [flat_map List.map]; [|reflexivity].
    rewrite app_nil_r. cbn [lastChar skipn nth_error].
    destruct ds as [|d ds']; [reflexivity|].
    cbn [forallb] in Hd. apply andb_true_iff in Hd. destruct Hd as [Hd _].
    assert (Ea : isAlpha d = false) by (revert Hd; classes).
    rewrite Ea. reflexivity. }
  rewrite E. apply Hrest.
Qed.

(** X3: a single letter, alone or followed by digits, is never taken for
    currency. *)
Theorem single_variables_are_math (c : char) (ds : str) :
  isAlpha c = true -> forallb isDigit ds = true ->
  looksLikeCurrency (c :: ds) = false.
Proof.
  intros Hc Hd. rewrite head_unfold.
  assert (Hsp : JS.isSpace c = false) by (revert Hc; classes).
  rewrite (blank_false c (c :: ds) (or_introl eq_refl) Hsp).
  assert (Hall : forall x, In x (c :: ds) -> isAlpha x = true \/ isDigit x = true).
  { intros x [<-|Hx]; [left; exact Hc|right].
    apply (proj1 (forallb_forall _ _) Hd x Hx). }
  assert (Hno : forall (q : char -> bool),
             (forall x, q x = true -> isAlpha x = false /\ isDigit x = false) ->
             forall x, In x (c :: ds) -> ~ (q x = true)).
  { intros q Hq x Hx Hqx. destruct (Hq x Hqx) as [H1 H2].
    destruct (Hall x Hx); congruence. }
  rewrite (@test_needs (fun x => oneOf (lit "\^_{}") x = true) re_latex).
  2:{ intros x Hx. exact Hx. }
  2:{ apply Hno. intros x. classes; split; reflexivity. }
  rewrite (@test_needs (fun x => (40 =? x)%N = true) re_call).
  2:{ right. right. left. intros x Hx. exact Hx. }
  2:{ apply Hno. intros x. classes; split; reflexivity. }
  rewrite (@test_needs (fun x => (61 =? x)%N = true) re_equals).
  2:{ intros x Hx. exact Hx. }
  2:{ apply Hno. intros x. classes; split; reflexivity. }
  rewrite (@test_needs (fun x => oneOf (lit "<>") x = true) re_compare).
  2:{ intros x Hx. exact Hx. }
  2:{ apply Hno. intros x. classes; split; reflexivity. }
  rewrite (@test_needs (fun x => oneOf [c_cr; c_nl] x = true) re_listMarker).
  2:{ left. intros x Hx. exact Hx. }
  2:{ apply Hno. intros x. unfold c_cr, c_nl. classes; split; reflexivity. }
  rewrite (@test_needs (fun x => oneOf (lit ".!?") x = true) re_sentence).
  2:{ left. intros x Hx. exact Hx. }
  2:{ apply Hno. intros x. classes; split; reflexivity. }
  replace (matchAll re_word3 (c :: ds)) with (@nil str).
  2:{ unfold matchAll. cbn [matchAll_fuel]. rewrite word3_none; auto. }
  cbn [filter length Nat.leb].
  rewrite (@test_needs (fun x => oneOf (lit "*#`[]") x = true) re_markdown).
  2:{ intros x Hx. exact Hx. }
  2:{ apply Hno. intros x. classes; split; reflexivity. }
  assert (Hnd : orb_cls isDigit (oneOf (lit ".,")) c = false)
    by (revert Hc; classes).
  assert (Hnd' : isDigit c = false) by (revert Hc; classes).
  unfold re_numeric, re_rangeLead, re_unit, re_perWord, re_digitLead.
  rewrite !test_bol. unfold Plus, digitOr, digit. cbn [mlens flat_map].
  rewrite Hnd, Hnd'. cbn [flat_map].
  rewrite (@test_needs (fun x => oneOf (lit "+-*/") x = true) re_infix).
  2:{ right. right. left. intros x Hx. exact Hx. }
  2:{ apply Hno. intros x. classes; split; reflexivity. }
  rewrite andb_false_r.
  rewrite trim_id.
  2:{ intros x Hx. destruct (Hall x Hx) as [H|H]; revert H; classes. }
  replace (test re_variable (c :: ds)) with true; [reflexivity|].
  symmetry. apply (@test_at_start _ _ (0 + (1 + (length ds + 0)))).
  unfold re_variable. apply mlens_seq_intro; [left; reflexivity|].
  apply mlens_seq_intro.
  { unfold alpha. cbn [mlens lastChar skipn]. rewrite Hc. left. reflexivity. }
  cbn [lastChar skipn Nat.add].
  apply mlens_seq_intro.
  { apply mlens_star_all. exact Hd. }
  rewrite skipn_all. cbn. left. reflexivity.
Qed.

Lemma math_characters_witness : looksLikeCurrency (lit "a < b") = false.
Proof.
  apply (@math_characters_are_never_currency (lit "a < b") (ch "<")).
  - vm_compute. right. right. left. reflexivity.
  - vm_compute. do 6 right. left. reflexivity.
Defined.

Lemma plain_amounts_witness : looksLikeCurrency (lit "1,234.56") = true.
Proof.
  apply (@plain_amounts_are_currency (lit "1,234.56")).
  vm_compute. reflexivity.
Defined.

Lemma single_variables_witness :
  looksLikeCurrency (ch "x" :: lit "12") = false.
Proof.
  apply (@single_variables_are_math (ch "x") (lit "12"));
    vm_compute; reflexivity.
Defined.

End Classifier.

(** ** The hash functions *)

Module HashFacts.
Import Regex Hash Props.
Local Open Scope Z_scope.

Lemma toInt32_mod (z : Z) : toInt32 z mod 2 ^ 32 = z mod 2 ^ 32.
Proof.
  unfold toInt32. rewrite Zminus_mod, Zmod_mod, <- Zminus_mod.
  f_equal. lia.
Qed.

Lemma hashStep_mod (h1 h2 : Z) (c : char) :
  h1 mod 2 ^ 32 = h2 mod 2 ^ 32 ->
  hashStep h1 c mod 2 ^ 32 = (31 * h2 + Z.of_N c) mod 2 ^ 32.
Proof.
  intros H. unfold hashStep. rewrite toInt32_mod.
  rewrite Zplus_mod, Zminus_mod, toInt32_mod, <- Zminus_mod, <- Zplus_mod.
  replace (h1 * 32 - h1 + Z.of_N c) with (31 * h1 + Z.of_N c) by lia.
  rewrite Zplus_mod, Zmult_mod, H, <- Zmult_mod, <- Zplus_mod. reflexivity.
Qed.

Lemma fold_hash_mod (s : str) :
  forall h1 h2,
    h1 mod 2 ^ 32 = h2 mod 2 ^ 32 ->
    fold_left hashStep s h1 mod 2 ^ 32 =
    fold_left (fun h c => 31 * h + Z.of_N c) s h2 mod 2 ^ 32.
Proof.
  induction s as [|c s IH]; intros h1 h2 H; cbn [fold_left]; [exact H|].
  apply IH. apply (@hashStep_mod h1 h2 c H).
Qed.

Lemma hash32 (s : str) :
  toUint32 (fold_left hashStep s 0) = poly31 s mod 2 ^ 32.
Proof. unfold toUint32, poly31. apply fold_hash_mod. reflexivity. Qed.

Lemma digitValue_digitChar (d : Z) :
  0 <= d < 36 -> digitValue (digitChar d) = d.
Proof.
  intros H. unfold digitValue, digitChar, isDigit.
  destruct (d <? 10) eqn:E.
  - apply Z.ltb_lt in E.
    replace ((48 <=? Z.to_N (48 + d)) && (Z.to_N (48 + d) <=? 57))%N with true.
    + rewrite Z2N.id by lia. lia.
    + symmetry. apply andb_true_iff. split; apply N.leb_le; lia.
  - apply Z.ltb_ge in E.
    replace ((48 <=? Z.to_N (97 + (d - 10))) &&
             (Z.to_N (97 + (d - 10)) <=? 57))%N with false.
    + rewrite Z2N.id by lia. lia.
    + symmetry. apply andb_false_iff. right. apply N.leb_gt. lia.
Qed.

Lemma parse_toRadix (radix : Z) :
  1 < radix <= 36 ->
  forall (fuel : nat) (z : Z) (acc : str),
    0 <= z < radix ^ Z.of_nat fuel ->
    fold_left (fun a c => a * radix + digitValue c)
              (toRadix_fuel fuel radix z acc) 0 =
    fold_left (fun a c => a * radix + digitValue c) acc z.
Proof.
  intros Hr. induction fuel as [|f IH]; intros z acc Hz.
  - simpl in Hz. assert (z = 0) by lia. subst. reflexivity.
  - cbn [toRadix_fuel].
    pose proof (Z.mod_pos_bound z radix ltac:(lia)) as Hm.
    pose proof (Z.div_mod z radix ltac:(lia)) as Hd.
    destruct (z / radix =? 0) eqn:E.
    + apply Z.eqb_eq in E. cbn [fold_left].
      rewrite digitValue_digitChar by lia. f_equal. lia.
    + apply Z.eqb_neq in E.
      assert (Hq : 0 <= z / radix < radix ^ Z.of_nat f).
      { split; [apply Z.div_pos; lia|].
        apply Z.div_lt_upper_bound; [lia|].
        rewrite Nat2Z.inj_succ, Z.pow_succ_r in Hz by lia. lia. }
      rewrite IH by exact Hq. cbn [fold_left].
      rewrite digitValue_digitChar by lia. f_equal. lia.
Qed.

Lemma toRadix_length (radix : Z) :
  1 < radix ->
  forall (fuel : nat) (k : nat) (z : Z) (acc : str),
    0 <= z < radix ^ Z.of_nat (S k) ->
    (length (toRadix_fuel (S fuel) radix z acc) <= S k + length acc)%nat /\
    (S (length acc) <= length (toRadix_fuel (S fuel) radix z acc))%nat.
Proof.
  intros Hr. induction fuel as [|f IH]; intros k z acc Hz.
  - cbn [toRadix_fuel]. destruct (z / radix =? 0); simpl; lia.
  - cbn [toRadix_fuel] in *.
    destruct (z / radix =? 0) eqn:E; [simpl; lia|].
    apply Z.eqb_neq in E.
    destruct k as [|k].
    + exfalso. apply E. apply Z.div_small. simpl in Hz. lia.
    + assert (Hq : 0 <= z / radix < radix ^ Z.of_nat (S k)).
      { split; [apply Z.div_pos; lia|].
        apply Z.div_lt_upper_bound; [lia|].
        rewrite (Nat2Z.inj_succ (S k)), Z.pow_succ_r in Hz by lia. lia. }
      destruct (IH k (z / radix) (digitChar (z mod radix) :: acc) Hq)
        as [H1 H2].
      cbn [length] in *. lia.
Qed.

Lemma toRadix_digits (P : char -> Prop) (radix : Z) :
  0 < radix ->
  (forall d, 0 <= d < radix -> P (digitChar d)) ->
  forall (fuel : nat) (z : Z) (acc : str),
    Forall P acc -> Forall P (toRadix_fuel fuel radix z acc).
Proof.
  intros Hr HP. induction fuel as [|f IH]; intros z acc Hacc; [exact Hacc|].
  cbn [toRadix_fuel].
  assert (Forall P (digitChar (z mod radix) :: acc)).
  { constructor; [|exact Hacc]. apply HP. apply Z.mod_pos_bound. lia. }
  destruct (z / radix =? 0); [assumption|]. apply IH. assumption.
Qed.

Lemma digitChar_base36 (d : Z) :
  0 <= d < 36 -> isBase36Digit (digitChar d) = true.
Proof.
  intros H. unfold isBase36Digit, isDigit, isLower, digitChar.
  destruct (d <? 10) eqn:E.
  - apply Z.ltb_lt in E. apply orb_true_iff. left.
    apply andb_true_iff. split; apply N.leb_le; lia.
  - apply Z.ltb_ge in E. apply orb_true_iff. right.
    apply andb_true_iff. split; apply N.leb_le; lia.
Qed.

Lemma digitChar_hex (d : Z) :
  0 <= d < 16 -> isHexDigit (digitChar d) = true.
Proof.
  intros H. unfold isHexDigit, isDigit, digitChar.
  destruct (d <? 10) eqn:E.
  - apply Z.ltb_lt in E. apply orb_true_iff. left.
    apply andb_true_iff. split; apply N.leb_le; lia.
  - apply Z.ltb_ge in E. apply orb_true_iff. right.
    apply andb_true_iff. split; apply N.leb_le; lia.
Qed.

Lemma hashBase36_eq (s : str) :
  hashBase36 s = toString36 (poly31 s mod 2 ^ 32).
Proof.
  destruct s as [|c s]; [reflexivity|].
  unfold hashBase36. rewrite hash32. reflexivity.
Qed.

Lemma hashCode_eq (s : str) :
  hashCode s = toString16 (poly31 s mod 2 ^ 32).
Proof.
  destruct s as [|c s]; [reflexivity|].
  unfold hashCode. rewrite hash32. reflexivity.
Qed.

Lemma parse_hashBase36 (s : str) :
  parseRadix 36 (hashBase36 s) = poly31 s mod 2 ^ 32.
Proof.
  pose proof (Z.mod_pos_bound (poly31 s) (2 ^ 32) ltac:(lia)) as Hb.
  rewrite hashBase36_eq. unfold parseRadix, toString36.
  rewrite parse_toRadix; [reflexivity|lia|lia].
Qed.

Lemma parse_hashCode (s : str) :
  parseRadix 16 (hashCode s) = poly31 s mod 2 ^ 32.
Proof.
  pose proof (Z.mod_pos_bound (poly31 s) (2 ^ 32) ltac:(lia)) as Hb.
  rewrite hashCode_eq. unfold parseRadix, toString16.
  rewrite parse_toRadix; [reflexivity|lia|lia].
Qed.

(** X4: both hash functions print one and the same number, the polynomial
    hash of the code units reduced to 32 bits: [hashBase36] in base 36
    and [hashCode] in base 16. *)
Theorem hashes_print_polynomial_hash (s : str) :
  parseRadix 36 (hashBase36 s) = poly31 s mod 2 ^ 32 /\
  parseRadix 16 (hashCode s) = poly31 s mod 2 ^ 32.
Proof. split; [apply parse_hashBase36|apply parse_hashCode]. Qed.

(** X5: the printed hashes are short: one to seven digits of [0-9a-z] for
    [hashBase36], one to eight digits of [0-9a-f] for [hashCode]. *)
Theorem hashes_are_short_digit_strings (s : str) :
  (1 <= length (hashBase36 s) <= 7)%nat /\
  forallb isBase36Digit (hashBase36 s) = true /\
  (1 <= length (hashCode s) <= 8)%nat /\
  forallb isHexDigit (hashCode s) = true.
Proof.
  pose proof (Z.mod_pos_bound (poly31 s) (2 ^ 32) ltac:(lia)) as Hb.
  rewrite hashBase36_eq, hashCode_eq. unfold toString36, toString16.
  assert (H36 : 0 <= poly31 s mod 2 ^ 32 < 36 ^ Z.of_nat 7).
  { split; [lia|]. eapply Z.lt_le_trans; [apply Hb|]. vm_compute. discriminate. }
  assert (H16 : 0 <= poly31 s mod 2 ^ 32 < 16 ^ Z.of_nat 8).
  { split; [lia|]. eapply Z.lt_le_trans; [apply Hb|]. vm_compute. discriminate. }
  destruct (@toRadix_length 36 ltac:(lia) 31 6 _ [] H36) as [A1 A2].
  destruct (@toRadix_length 16 ltac:(lia) 31 7 _ [] H16) as [B1 B2].
  cbn [length] in *.
  repeat split; try lia.
  - apply forallb_forall. apply Forall_forall.
    apply (@toRadix_digits (fun c => isBase36Digit c = true) 36);
      [lia|apply digitChar_base36|constructor].
  - apply forallb_forall. apply Forall_forall.
    apply (@toRadix_digits (fun c => isHexDigit c = true) 16);
      [lia|apply digitChar_hex|constructor].
Qed.

(** X6: two strings collide under [hashBase36] exactly when they collide
    under [hashCode]. *)
Theorem hashes_collide_together (a b : str) :
  hashBase36 a = hashBase36 b <-> hashCode a = hashCode b.
Proof.
  split; intros H.
  - rewrite !hashCode_eq. f_equal.
    rewrite <- (parse_hashBase36 a), <- (parse_hashBase36 b), H. reflexivity.
  - rewrite !hashBase36_eq. f_equal.
    rewrite <- (parse_hashCode a), <- (parse_hashCode b), H. reflexivity.
Qed.

End HashFacts.

(** ** The rows of the span table *)

Module Rows.
Import MathProtector Props StringFacts Termination ScanFacts SplitJoin.
Import RoundTrip RegexFacts.

Lemma substring_span (res : str) (a e : nat) :
  a <= e -> JS.substring res a e = firstn (e - a) (skipn a res).
Proof.
  intros H. unfold JS.substring. rewrite Nat.min_l, Nat.max_r by lia.
  reflexivity.
Qed.

Lemma skipn_left (res l : str) (lp : nat) :
  JS.prefixb l (skipn lp res) = true ->
  skipn lp res = l ++ skipn (lp + length l) res.
Proof.
  intros H. apply prefixb_true in H. rewrite skipn_skipn in H.
  rewrite (Nat.add_comm lp). exact H.
Qed.

(** A complete span is its left marker, its inner content and its right
    marker. *)
Lemma span_split (res l r : str) (lp rp : nat) :
  JS.prefixb l (skipn lp res) = true ->
  JS.prefixb r (skipn rp res) = true ->
  lp + length l <= rp -> rp + length r <= length res ->
  JS.substring res lp (rp + length r) =
  l ++ JS.substring res (lp + length l) rp ++ r.
Proof.
  intros Hl Hr Hle Hlen. rewrite !substring_span by lia.
  set (B := skipn (lp + length l) res).
  set (k := rp - (lp + length l)).
  assert (Hk : length (firstn k B) = k).
  { rewrite length_firstn. unfold B. rewrite length_skipn. lia. }
  assert (HB : B = firstn k B ++ r ++ skipn (rp + length r) res).
  { rewrite <- (skipn_left _ _ _ Hr).
    replace (skipn rp res) with (skipn k B).
    - symmetry. apply firstn_skipn.
    - unfold B. rewrite skipn_skipn. f_equal. unfold k. lia. }
  rewrite (skipn_left _ _ _ Hl). fold B. rewrite HB at 1.
  replace (rp + length r - lp)
    with (length l + (length (firstn k B) + (length r + 0))) by lia.
  rewrite !firstn_app_2. rewrite firstn_O, app_nil_r. reflexivity.
Qed.

(** A pending span is its left marker and its inner content. *)
Lemma pending_split (res l : str) (lp e : nat) :
  JS.prefixb l (skipn lp res) = true ->
  lp + length l <= e ->
  JS.substring res lp e = l ++ JS.substring res (lp + length l) e.
Proof.
  intros Hl Hle. rewrite !substring_span by lia.
  rewrite (skipn_left _ _ _ Hl).
  replace (e - lp) with (length l + (e - (lp + length l))) by lia.
  rewrite firstn_app_2. reflexivity.
Qed.

(** The paragraph break that follows a left marker lies beyond it. *)
Lemma paragraph_beyond_left (d : delim) (res : str) (leftPos b : nat) :
  ~ In c_nl (left d) ->
  JS.prefixb (left d) (skipn leftPos res) = true ->
  JS.indexOf [c_nl; c_nl] res leftPos = Some b ->
  leftPos <= length res ->
  leftPos + length (left d) <= b.
Proof.
  intros Hnl Hp Hi Hlen.
  pose proof (indexOf_bound _ _ _ Hi) as [Hb1 Hb2].
  apply indexOf_prefix in Hi.
  destruct (Nat.le_gt_cases (leftPos + length (left d)) b) as [|Hlt];
    [assumption|exfalso].
  assert (Hj : b - leftPos < length (left d)) by lia.
  destruct (nth_error (left d) (b - leftPos)) as [c|] eqn:En.
  2:{ apply nth_error_None in En. lia. }
  pose proof (@prefix_nth (left d) res leftPos (b - leftPos) c Hp En) as H1.
  pose proof (@prefix_nth [c_nl; c_nl] res b 0 c_nl Hi eq_refl) as H2.
  replace (leftPos + (b - leftPos)) with (b + 0) in H1 by lia.
  rewrite H1 in H2. inversion H2. subst c.
  apply Hnl. apply (nth_error_In _ _ En).
Qed.

Lemma firstField_cut (s : str) :
  forall (k : nat) (c : char),
    nth_error s k = Some c -> JS.isSpace c = true ->
    firstField (firstn k s) = firstField s.
Proof.
  induction s as [|x s IH]; intros k c Hn Hc.
  - destruct k; discriminate.
  - destruct k as [|k].
    + simpl in Hn. inversion Hn. subst. simpl. rewrite Hc. reflexivity.
    + simpl in Hn. cbn [firstn firstField].
      destruct (JS.isSpace x); [reflexivity|]. f_equal. apply (IH k c Hn Hc).
Qed.

Lemma map_set_In (V : Type) (m : smap V) (ph : str) (info : V) (k : str)
      (i : V) :
  In (k, i) (map_set m ph info) -> In (k, i) m \/ i = info.
Proof.
  induction m as [|[k' v'] m IH]; simpl.
  - intros [H|[]]. inversion H. auto.
  - destruct (str_eqb ph k').
    + intros [H|H]; [inversion H; auto|auto].
    + intros [H|H]; [auto|]. destruct (IH H); auto.
Qed.

Lemma indexOf_first (w s : str) (from i : nat) :
  JS.indexOf w s from = Some i -> from <= length s ->
  forall j, from <= j < i -> JS.prefixb w (skipn j s) = false.
Proof.
  unfold JS.indexOf. destruct (JS.find w (skipn from s)) as [k|] eqn:E;
    [|discriminate].
  cbn [option_map]. intros H Hle j Hj. apply some_inj in H.
  rewrite Nat.min_l in H by exact Hle.
  replace j with ((j - from) + from) by lia. rewrite <- skipn_skipn.
  apply (find_first _ _ E). lia.
Qed.

(** No occurrence of [w] lies before its first occurrence. *)
Lemma first_occurrence_sub (w res : str) (from i : nat) :
  0 < length w ->
  JS.indexOf w res from = Some i -> from <= length res ->
  JS.includes w (JS.substring res from i) = false.
Proof.
  intros Hw Hi Hle.
  pose proof (indexOf_bound _ _ _ Hi) as [Hb1 Hb2].
  rewrite Nat.min_l in Hb1 by exact Hle.
  destruct (JS.includes w (JS.substring res from i)) eqn:E; [|reflexivity].
  exfalso. apply includes_iff in E. destruct E as [x [y E]].
  rewrite substring_span in E by exact Hb1.
  assert (Hlen : length x + length w <= i - from).
  { apply (f_equal (@length char)) in E.
    rewrite length_firstn, !length_app in E. lia. }
  assert (Hp : JS.prefixb w (skipn (from + length x) res) = true).
  { rewrite (Nat.add_comm from), <- skipn_skipn.
    rewrite <- (firstn_skipn (i - from) (skipn from res)), E.
    rewrite <- !app_assoc, skipn_app, skipn_all, Nat.sub_diag.
    cbn [skipn app]. apply prefixb_app. }
  rewrite (@indexOf_first w res from i Hi Hle (from + length x)) in Hp;
    [discriminate|lia].
Qed.

Lemma absent_from (w res : str) (from : nat) :
  JS.indexOf w res from = None -> JS.includes w (skipn from res) = false.
Proof.
  unfold JS.indexOf, JS.includes.
  destruct (JS.find w (skipn from res)); [discriminate|reflexivity].
Qed.

Lemma nth_prefix (res : str) (q : nat) (c : char) :
  nth_error res q = Some c -> JS.prefixb [c] (skipn q res) = true.
Proof.
  intros H. rewrite <- (Nat.add_0_r q), <- nth_error_skipn in H.
  destruct (skipn q res) as [|y l]; [discriminate|].
  apply some_inj in H. subst y. cbn. rewrite char_eqb_refl. reflexivity.
Qed.

(** The dollar signs that the search for the closing dollar passes over
    are the escaped ones. *)
Lemma findCloser_escaped (fuel : nat) (res : str) (pb : option nat) :
  forall t rp,
    findCloser fuel res [c_dollar] pb t = Some (Some rp) ->
    forall q, t <= q < rp -> nth_error res q = Some c_dollar ->
              precededByBackslash res q = true.
Proof.
  induction fuel as [|f IH]; intros t rp; simpl; [discriminate|].
  destruct (t <? length res) eqn:Et; [|discriminate].
  apply Nat.ltb_lt in Et.
  destruct (JS.indexOf [c_dollar] res t) as [fp|] eqn:Ei; [|discriminate].
  assert (Hfirst : forall q, t <= q < fp -> nth_error res q <> Some c_dollar).
  { intros q Hq Hn. apply nth_prefix in Hn.
    rewrite (@indexOf_first _ _ _ _ Ei ltac:(lia) q Hq) in Hn. discriminate. }
  destruct (match pb with Some b => b <? fp | None => false end);
    [discriminate|].
  destruct (precededByBackslash res fp) eqn:Ep.
  - intros H q Hq Hn.
    destruct (Nat.lt_ge_cases q fp) as [Hlt|Hge].
    + exfalso. apply (Hfirst q); [lia|exact Hn].
    + destruct (Nat.eq_dec q fp) as [->|Hne]; [exact Ep|].
      apply (IH (fp + 1) rp H q); [lia|exact Hn].
  - intros H q Hq Hn. apply some_inj in H. apply some_inj in H. subst rp.
    exfalso. apply (Hfirst q); [lia|exact Hn].
Qed.

Lemma nth_firstn (res : str) (n j : nat) (c : char) :
  nth_error (firstn n res) j = Some c -> nth_error res j = Some c /\ j < n.
Proof.
  revert n j. induction res as [|x res IH]; intros n j.
  - rewrite firstn_nil. destruct j; discriminate.
  - destruct n as [|n]; [destruct j; discriminate|].
    destruct j as [|j]; cbn [firstn nth_error].
    + intros H. split; [exact H|lia].
    + intros H. destruct (IH n j H). split; [assumption|lia].
Qed.

Lemma inner_escaped (res : str) (lp rp : nat) :
  nth_error res lp = Some c_dollar ->
  lp + 1 <= rp ->
  (forall q, lp + 1 <= q < rp -> nth_error res q = Some c_dollar ->
             precededByBackslash res q = true) ->
  dollarsEscaped (JS.substring res (lp + 1) rp).
Proof.
  intros Hlp Hle Hesc a b E. rewrite substring_span in E by exact Hle.
  assert (Hat : forall j c, nth_error (a ++ c_dollar :: b) j = Some c ->
                  nth_error res (lp + 1 + j) = Some c /\ lp + 1 + j < rp).
  { intros j c Hj. rewrite <- E in Hj. apply nth_firstn in Hj.
    destruct Hj as [Hj Hlt]. rewrite nth_error_skipn in Hj.
    split; [exact Hj|lia]. }
  destruct (Hat (length a) c_dollar) as [Hq Hlt].
  { rewrite nth_error_app2, Nat.sub_diag by lia. reflexivity. }
  pose proof (Hesc (lp + 1 + length a) ltac:(lia) Hq) as Hp.
  unfold precededByBackslash in Hp. apply andb_true_iff in Hp.
  destruct Hp as [_ Hp]. unfold JS.charAt in Hp.
  replace (lp + 1 + length a - 1) with (lp + length a) in Hp by lia.
  destruct (nth_error res (lp + length a)) as [z|] eqn:Ez; [|discriminate].
  apply N.eqb_eq in Hp. subst z.
  destruct a as [|x a] using rev_ind.
  - exfalso. cbn [length] in Ez. rewrite Nat.add_0_r in Ez.
    rewrite Hlp in Ez. discriminate.
  - exists a. f_equal. f_equal.
    destruct (Hat (length a) x) as [Hx _].
    { rewrite <- app_assoc. rewrite nth_error_app2, Nat.sub_diag by lia.
      reflexivity. }
    rewrite length_app in Ez. cbn [length] in Ez.
    replace (lp + (length a + 1)) with (lp + 1 + length a) in Ez by lia.
    rewrite Hx in Ez. apply some_inj in Ez. exact Ez.
Qed.

Lemma findRight_first (d : delim) (res : str) (leftPos rp : nat) :
  isDollar d = false ->
  findRight d res leftPos = Some (Some rp) ->
  JS.indexOf (right d) res (leftPos + length (left d)) = Some rp.
Proof.
  unfold findRight. intros ->.
  destruct (isDollars d).
  - destruct (_ <? _); [|discriminate]. apply some_inj.
  - apply some_inj.
Qed.

Lemma findRight_escaped (d : delim) (res : str) (leftPos rp : nat) :
  isDollar d = true -> right d = [c_dollar] ->
  findRight d res leftPos = Some (Some rp) ->
  forall q, leftPos + 1 <= q < rp -> nth_error res q = Some c_dollar ->
            precededByBackslash res q = true.
Proof.
  unfold findRight. intros Hd Hr.
  assert (Hl : left d = [c_dollar]).
  { unfold isDollar in Hd. apply str_eqb_eq in Hd. exact Hd. }
  assert (E : isDollars d = false) by (unfold isDollars; rewrite Hl; reflexivity).
  rewrite E, Hd, Hr, Hl. cbn [length]. apply findCloser_escaped.
Qed.

(** One turn of the scan loop leaves the table as it is or stores one
    row of the kind [rowOf] describes. *)
Lemma scan_step_row (cd : codec) (d : delim) (st : scan) (out : flow) :
  wf_delim d -> ~ In c_nl (left d) ->
  searchPos st < length (result st) ->
  scan_step cd d st = Some out ->
  (table (state_of out) = table st /\ ctr (state_of out) = ctr st) \/
  exists ph info,
    table (state_of out) = map_set (table st) ph info /\
    ctr (state_of out) = S (ctr st) /\
    tokenNumbered ph (ctr st) /\
    rowOf cd d info.
Proof.
  intros Hwf Hnl Hlt. unfold scan_step.
  destruct (JS.indexOf (left d) (result st) (searchPos st))
    as [leftPos|] eqn:El.
  2:{ intros H. apply some_inj in H. subst out. left. split; reflexivity. }
  pose proof (indexOf_bound _ _ _ El) as [Hb1 Hb2].
  pose proof (indexOf_prefix _ _ _ El) as Hpre.
  pose proof Hwf as (Hl & Hr & _).
  assert (Hskip : forall q, Some (Continue (skipTo st q)) = Some out ->
            (table (state_of out) = table st /\
             ctr (state_of out) = ctr st) \/
            exists ph info,
              table (state_of out) = map_set (table st) ph info /\
              ctr (state_of out) = S (ctr st) /\
              tokenNumbered ph (ctr st) /\
              rowOf cd d info).
  { intros q H. apply some_inj in H. subst out. left. split; reflexivity. }
  destruct (isDollar d && precededByBackslash (result st) leftPos);
    [apply Hskip|].
  destruct (isDollar d && isInsideBackticks (result st) leftPos);
    [apply Hskip|].
  destruct (findRight d (result st) leftPos) as [[rp|]|] eqn:Ef;
    [| |discriminate].
  - pose proof Ef as Ef'. apply findRight_bound in Ef'; [|lia].
    pose proof Ef as Ef0. apply findRight_prefix in Ef.
    destruct (JS.blank _) eqn:Eb; [apply Hskip|].
    destruct (isDollar d && _) eqn:En; [apply Hskip|].
    destruct (Regex.test _ _) eqn:Ec; [apply Hskip|].
    destruct (isDollar d && CurrencyDetector.looksLikeCurrency _) eqn:Ek;
      [apply Hskip|].
    intros H. apply some_inj in H. subst out. right.
    eexists. eexists. split; [reflexivity|]. split; [reflexivity|].
    split; [left; reflexivity|].
    unfold rowOf, spelled.
    cbn [delimiter isDisplay encodedOriginal original innerContent isPending].
    split; [reflexivity|]. split; [reflexivity|]. split; [reflexivity|].
    split; [apply span_split; [exact Hpre|exact Ef|lia|lia]|].
    split; [exact Eb|]. split; [exact Ec|]. split.
    { intros Hd. apply first_occurrence_sub; [exact Hr| |lia].
      apply (findRight_first _ _ _ Hd Ef0). }
    intros Hd. rewrite Hd in En, Ek. cbn [andb] in En, Ek.
    apply orb_false_iff in En. destruct En as [E1 E2].
    split; [exact E1|]. split; [exact E2|]. split; [exact Ek|].
    intros Hrd.
    assert (Hld : left d = [c_dollar]).
    { unfold isDollar in Hd. apply str_eqb_eq in Hd. exact Hd. }
    rewrite Hld in *. cbn [length] in *.
    apply inner_escaped; [|lia|].
    + rewrite <- (Nat.add_0_r leftPos).
      apply (@prefix_nth [c_dollar]); [exact Hpre|reflexivity].
    + apply (@findRight_escaped d _ _ _ Hd Hrd Ef0).
  - destruct (isDollar d && CurrencyDetector.looksLikeCurrency _) eqn:Ek;
      [apply Hskip|].
    match goal with
    | |- (if ?c then _ else _) = _ -> _ => destruct c eqn:Em
    end.
    2:{ intros H. apply some_inj in H. subst out. left. split; reflexivity. }
    intros H. apply some_inj in H. subst out. right.
    eexists. eexists. split; [reflexivity|]. split; [reflexivity|].
    split; [right; reflexivity|].
    unfold rowOf, spelled.
    cbn [delimiter isDisplay encodedOriginal original innerContent isPending].
    split; [reflexivity|]. split; [reflexivity|]. split; [reflexivity|].
    rewrite app_nil_r.
    assert (Hafter : JS.substringFrom (JS.substringFrom (result st) leftPos)
                       (length (left d))
                     = skipn (leftPos + length (left d)) (result st)).
    { unfold JS.substringFrom. rewrite skipn_skipn. f_equal. lia. }
    rewrite Hafter in *.
    destruct (JS.indexOf [c_nl; c_nl] (result st) leftPos) as [b|] eqn:Eb.
    + pose proof (@paragraph_beyond_left d (result st) leftPos b Hnl Hpre Eb
                    ltac:(lia)) as Hbe.
      pose proof (indexOf_bound _ _ _ Eb) as [Hc1 Hc2]. cbn [length] in Hc2.
      split; [apply pending_split; [exact Hpre|lia]|].
      split; [exact Em|].
      split; [apply first_occurrence_sub; [cbn; lia|exact Eb|lia]|].
      intros Hd. rewrite Hd in Ek. cbn [andb] in Ek.
      rewrite substring_span by lia.
      rewrite (@firstField_cut _ (b - (leftPos + length (left d))) c_nl);
        [exact Ek| |reflexivity].
      rewrite nth_error_skipn.
      replace (leftPos + length (left d) + (b - (leftPos + length (left d))))
        with (b + 0) by lia.
      apply (@prefix_nth [c_nl; c_nl]); [|reflexivity].
      apply (indexOf_prefix _ _ _ Eb).
    + split.
      * rewrite substring_span by lia.
        rewrite firstn_all2 by (rewrite length_skipn; lia).
        apply skipn_left, Hpre.
      * split; [exact Em|]. split.
        { rewrite substring_span by lia.
          rewrite firstn_all2 by (rewrite length_skipn; lia).
          apply absent_from, Eb. }
        intros Hd. rewrite Hd in Ek. cbn [andb] in Ek. exact Ek.
Qed.

Section Invariant.
Variable cd : codec.
Variable P : MathInfo -> Prop.

Lemma scan_loop_rows (d : delim) :
  wf_delim d -> ~ In c_nl (left d) ->
  (forall i, rowOf cd d i -> P i) ->
  forall (fuel : nat) (st st' : scan),
    scan_loop fuel cd d st = Some st' ->
    (forall k i, In (k, i) (table st) -> P i) ->
    forall k i, In (k, i) (table st') -> P i.
Proof.
  intros Hwf Hnl HP. induction fuel as [|f IH]; intros st st' Hl;
    cbn [scan_loop] in Hl; [discriminate|].
  destruct (searchPos st <? length (result st)) eqn:E.
  2:{ apply some_inj in Hl. subst st'. auto. }
  apply Nat.ltb_lt in E.
  destruct (scan_step cd d st) as [out|] eqn:Es; [|discriminate].
  intros Hrows.
  assert (Hout : forall k i, In (k, i) (table (state_of out)) -> P i).
  { destruct (@scan_step_row cd d st out Hwf Hnl E Es)
      as [[-> _]|[ph [info (-> & _ & _ & Hrow)]]]; [exact Hrows|].
    intros k i Hin. apply map_set_In in Hin.
    destruct Hin as [Hin| ->]; [apply (Hrows k i Hin)|apply HP, Hrow]. }
  destruct out as [st1|st1]; cbn [state_of] in Hout.
  - apply (IH st1 st' Hl Hout).
  - apply some_inj in Hl. subst st'. exact Hout.
Qed.

Lemma protectDelims_rows (ds : list delim) :
  Forall wf_delim ds -> Forall (fun d => ~ In c_nl (left d)) ds ->
  (forall d i, In d ds -> rowOf cd d i -> P i) ->
  forall (content : str) (m : mathMap) (c : nat) (content' : str)
         (m' : mathMap) (c' : nat),
    protectDelims cd ds content m c = Some (content', m', c') ->
    (forall k i, In (k, i) m -> P i) ->
    forall k i, In (k, i) m' -> P i.
Proof.
  intros Hwf. induction Hwf as [|d ds Hd Hds IH]; intros Hnl HP
    content m c content' m' c' Hp Hrows; cbn [protectDelims] in Hp.
  - apply some_inj in Hp. inversion Hp. subst. exact Hrows.
  - inversion Hnl as [|? ? Hn Hns]. subst.
    unfold extractAndReplace in Hp.
    destruct (scan_loop (S (length content)) cd d
                {| result := content; searchPos := 0;
                   table := m; ctr := c |}) as [st1|] eqn:El;
      [|discriminate].
    apply (IH Hns (fun d' i Hin => HP d' i (or_intror Hin))
              _ _ _ _ _ _ Hp).
    apply (@scan_loop_rows d Hd Hn (fun i0 => HP d i0 (or_introl eq_refl)) _ _ _ El).
    exact Hrows.
Qed.

End Invariant.

Lemma delimiters_list :
  delimiters = [d_dollars; d_bracket; d_paren; d_dollar].
Proof. reflexivity. Qed.

Lemma delimiters_one_line :
  Forall (fun d => ~ In c_nl (left d)) delimiters.
Proof.
  repeat constructor; cbn; unfold c_nl; intros H;
    repeat (destruct H as [H|H]; [discriminate|]); destruct H.
Qed.

(** Every row that [protect] returns was stored by the scan of one of
    the four delimiters. *)
Lemma protect_rows (cd : codec) (p p' : protector) (content : str)
      (r : protectResult) (k : str) (i : MathInfo) :
  protect cd p content = Some (p', r) ->
  In (k, i) (spans r) ->
  In (delimiter i) delimiters /\ rowOf cd (delimiter i) i.
Proof.
  unfold protect. destruct content as [|c0 content0].
  { intros H. apply some_inj in H. apply pair_inj in H. destruct H as [_ <-].
    intros []. }
  destruct (Regex.replace _ _ _ _) as [p1 masked].
  destruct (protectDelims cd delimiters masked [] (counter p1))
    as [[[scanned m] c']|] eqn:Ep; [|discriminate].
  intros H. apply some_inj in H. apply pair_inj in H. destruct H as [_ <-].
  cbn [spans]. intros Hin.
  assert (HP : forall d i0, In d delimiters -> rowOf cd d i0 ->
                 In (delimiter i0) delimiters /\ rowOf cd (delimiter i0) i0).
  { intros d i0 Hd Hrow. pose proof Hrow as [E _]. rewrite E. auto. }
  assert (H0 : forall k0 i0, In (k0, i0) (@nil (str * MathInfo)) ->
                 In (delimiter i0) delimiters /\ rowOf cd (delimiter i0) i0).
  { intros k0 i0 []. }
  apply (@protectDelims_rows cd _ delimiters delimiters_wf
           delimiters_one_line HP _ _ _ _ _ _ Ep H0 k i Hin).
Qed.

Lemma dollar_isDollar (d : delim) : left d = lit "$" -> isDollar d = true.
Proof. intros H. unfold isDollar. rewrite H. reflexivity. Qed.

(** X7: every row of the span table comes from one of the four delimiters,
    carries that delimiter's display flag and the encoding of its text,
    and its text is the left marker, the inner content and, for a
    complete span, the right marker. *)
Theorem rows_spell_their_span (cd : codec) (p p' : protector)
        (content : str) (r : protectResult) (k : str) (i : MathInfo) :
  protect cd p content = Some (p', r) ->
  In (k, i) (spans r) ->
  In (delimiter i) delimiters /\
  isDisplay i = display (delimiter i) /\
  encodedOriginal i = encodeBase64 cd (original i) /\
  original i = spelled i.
Proof.
  intros Hp Hin.
  destruct (@protect_rows cd p p' content r k i Hp Hin) as [Hd (_ & H1 & H2 & H3 & _)].
  auto.
Qed.

Lemma dollar_delimiter (d : delim) :
  In d delimiters -> left d = lit "$" -> right d = [c_dollar].
Proof.
  intros Hin Hl. rewrite delimiters_list in Hin.
  repeat (destruct Hin as [<-|Hin]; [first [reflexivity|discriminate]|]).
  destruct Hin.
Qed.

Lemma other_delimiter (d : delim) : left d <> lit "$" -> isDollar d = false.
Proof. intros H. unfold isDollar. apply str_eqb_neq, H. Qed.

(** X8: a complete span never has a blank inner content and never holds a
    currency mask; between single dollars it also stays on one line and
    is not what the classifier takes for currency. *)
Theorem complete_rows_hold_math (cd : codec) (p p' : protector)
        (content : str) (r : protectResult) (k : str) (i : MathInfo) :
  protect cd p content = Some (p', r) ->
  In (k, i) (spans r) ->
  isPending i = false ->
  JS.blank (innerContent i) = false /\
  hasCurrencyMask (innerContent i) = false /\
  (left (delimiter i) = lit "$" ->
   JS.includes [c_nl] (innerContent i) = false /\
   JS.includes [c_cr] (innerContent i) = false /\
   CurrencyDetector.looksLikeCurrency (innerContent i) = false).
Proof.
  intros Hp Hin Hpend.
  destruct (@protect_rows cd p p' content r k i Hp Hin)
    as [Hd (_ & _ & _ & _ & H)].
  rewrite Hpend in H. destruct H as (H1 & H2 & _ & H3).
  split; [exact H1|]. split; [exact H2|].
  intros Hl. destruct (H3 (@dollar_isDollar (delimiter i) Hl)) as (A & B & C & _). auto.
Qed.

(** X9: a complete span ends at the first right marker: between [$$], [\[]
    or [\(] and its right marker the inner content does not hold that
    marker, and between single dollars every dollar sign of the inner
    content is an escaped one, which follows a backslash. *)
Theorem complete_rows_end_at_first_marker (cd : codec) (p p' : protector)
        (content : str) (r : protectResult) (k : str) (i : MathInfo) :
  protect cd p content = Some (p', r) ->
  In (k, i) (spans r) ->
  isPending i = false ->
  (left (delimiter i) <> lit "$" ->
   JS.includes (right (delimiter i)) (innerContent i) = false) /\
  (left (delimiter i) = lit "$" -> dollarsEscaped (innerContent i)).
Proof.
  intros Hp Hin Hpend.
  destruct (@protect_rows cd p p' content r k i Hp Hin)
    as [Hd (_ & _ & _ & _ & H)].
  rewrite Hpend in H. destruct H as (_ & _ & H1 & H2).
  split.
  - intros Hl. apply H1, other_delimiter, Hl.
  - intros Hl. destruct (H2 (@dollar_isDollar (delimiter i) Hl)) as (_ & _ & _ & H).
    apply H, (@dollar_delimiter (delimiter i) Hd Hl).
Qed.

(** X10: a pending span always looks like unfinished math and stays within
    its paragraph: its inner content is not empty and holds a backslash,
    a caret, an opening brace, [begin] or [frac]; its text holds no
    blank line; after a single dollar, the text up to the first white
    space is not what the classifier takes for currency. *)
Theorem pending_rows_look_like_math (cd : codec) (p p' : protector)
        (content : str) (r : protectResult) (k : str) (i : MathInfo) :
  protect cd p content = Some (p', r) ->
  In (k, i) (spans r) ->
  isPending i = true ->
  mathLike (innerContent i) = true /\
  JS.includes [c_nl; c_nl] (original i) = false /\
  (left (delimiter i) = lit "$" ->
   CurrencyDetector.looksLikeCurrency (firstField (innerContent i)) = false).
Proof.
  intros Hp Hin Hpend.
  destruct (@protect_rows cd p p' content r k i Hp Hin)
    as [Hd (_ & _ & _ & _ & H)].
  rewrite Hpend in H. destruct H as (H1 & H2 & H3).
  split; [exact H1|]. split; [exact H2|].
  intros Hl. apply H3, dollar_isDollar, Hl.
Qed.

Lemma rows_spell_witness :
  exists p' r k i,
    protect rawCodec (create plainOptions) squareAndPending = Some (p', r) /\
    In (k, i) (spans r) /\
    (In (delimiter i) delimiters /\
     isDisplay i = display (delimiter i) /\
     encodedOriginal i = encodeBase64 rawCodec (original i) /\
     original i = spelled i).
Proof.
  do 4 eexists. split; [vm_compute; reflexivity|].
  split; [left; reflexivity|].
  eapply (@rows_spell_their_span rawCodec (create plainOptions) _
            squareAndPending _ _ _).
  - vm_compute. reflexivity.
  - left. reflexivity.
Defined.

Lemma complete_rows_witness :
  exists p' r k i,
    protect rawCodec (create plainOptions) squareAndPending = Some (p', r) /\
    In (k, i) (spans r) /\
    isPending i = false /\
    (JS.blank (innerContent i) = false /\
     hasCurrencyMask (innerContent i) = false /\
     (left (delimiter i) = lit "$" ->
      JS.includes [c_nl] (innerContent i) = false /\
      JS.includes [c_cr] (innerContent i) = false /\
      CurrencyDetector.looksLikeCurrency (innerContent i) = false)).
Proof.
  do 4 eexists. split; [vm_compute; reflexivity|].
  split; [right; left; reflexivity|].
  split; [reflexivity|].
  eapply (@complete_rows_hold_math rawCodec (create plainOptions) _
            squareAndPending _ _ _).
  - vm_compute. reflexivity.
  - right. left. reflexivity.
  - reflexivity.
Defined.

Lemma first_marker_witness :
  exists p' r k i,
    protect rawCodec (create plainOptions) (lit "where $P_0 = \$100$")
      = Some (p', r) /\
    In (k, i) (spans r) /\
    isPending i = false /\
    innerContent i = lit "P_0 = \$100" /\
    ((left (delimiter i) <> lit "$" ->
      JS.includes (right (delimiter i)) (innerContent i) = false) /\
     (left (delimiter i) = lit "$" -> dollarsEscaped (innerContent i))).
Proof.
  do 4 eexists. split; [vm_compute; reflexivity|].
  split; [left; reflexivity|].
  split; [reflexivity|]. split; [reflexivity|].
  eapply (@complete_rows_end_at_first_marker rawCodec (create plainOptions) _
            (lit "where $P_0 = \$100$") _ _ _).
  - vm_compute. reflexivity.
  - left. reflexivity.
  - reflexivity.
Defined.

Lemma pending_rows_witness :
  exists p' r k i,
    protect rawCodec (create plainOptions) squareAndPending = Some (p', r) /\
    In (k, i) (spans r) /\
    isPending i = true /\
    (mathLike (innerContent i) = true /\
     JS.includes [c_nl; c_nl] (original i) = false /\
     (left (delimiter i) = lit "$" ->
      CurrencyDetector.looksLikeCurrency (firstField (innerContent i))
      = false)).
Proof.
  do 4 eexists. split; [vm_compute; reflexivity|].
  split; [left; reflexivity|].
  split; [reflexivity|].
  eapply (@pending_rows_look_like_math rawCodec (create plainOptions) _
            squareAndPending _ _ _).
  - vm_compute. reflexivity.
  - left. reflexivity.
  - reflexivity.
Defined.

End Rows.

(** ** Texts without markers, and [restore] *)

Module PlainText.
Import MathProtector Props StringFacts Termination ScanFacts SplitJoin.
Import RoundTrip RegexFacts Rows.

Lemma find_absent (x : char) (w s : str) :
  ~ In x s -> JS.find (x :: w) s = None.
Proof.
  induction s as [|y s IH]; intros H; [reflexivity|].
  cbn [JS.find JS.prefixb].
  assert (E : char_eqb x y = false).
  { apply N.eqb_neq. intros ->. apply H. left. reflexivity. }
  rewrite E. cbn [andb]. rewrite IH; [reflexivity|].
  intros Hin. apply H. right. exact Hin.
Qed.

Lemma indexOf_absent (x : char) (w s : str) (from : nat) :
  ~ In x s -> JS.indexOf (x :: w) s from = None.
Proof.
  intros H. unfold JS.indexOf. rewrite find_absent; [reflexivity|].
  intros Hin. apply H. apply (skipn_In _ _ _ Hin).
Qed.

(** A scan for a delimiter whose first code unit the text does not hold
    changes nothing. *)
Lemma extract_absent (cd : codec) (content : str) (d : delim) (m : mathMap)
      (c : nat) (x : char) (w : str) :
  left d = x :: w -> ~ In x content ->
  extractAndReplace cd content d m c = Some (content, m, c).
Proof.
  intros Hl Hx. unfold extractAndReplace. cbn [scan_loop searchPos result].
  destruct (0 <? length content); [|reflexivity].
  unfold scan_step. cbn [result searchPos].
  rewrite Hl, indexOf_absent by exact Hx. reflexivity.
Qed.

Lemma range_needs_dollar :
  needs (fun c => c = c_dollar) re_currencyRange.
Proof. left. intros c Hc. symmetry. apply N.eqb_eq. exact Hc. Qed.

(** X11: a text that holds neither a dollar sign nor a backslash passes
    through [protect] as it is: no row is stored, no token is spent. *)
Theorem text_without_markers_is_untouched (cd : codec) (p : protector)
        (content : str) :
  ~ In c_dollar content -> ~ In c_bslash content ->
  exists p',
    protect cd p content =
      Some (p', {| protected := content; spans := [] |}) /\
    counter p' = counter p.
Proof.
  intros Hd Hb. unfold protect. destruct content as [|c0 content0].
  { eexists. split; reflexivity. }
  rewrite (@replace_needs _ (fun c => c = c_dollar) re_currencyRange
             maskRange _ (c0 :: content0) range_needs_dollar).
  2:{ intros c Hc ->. apply Hd, Hc. }
  rewrite delimiters_list. cbn [protectDelims counter].
  rewrite (@extract_absent cd _ d_dollars _ _ c_dollar [c_dollar] eq_refl Hd).
  rewrite (@extract_absent cd _ d_bracket _ _ c_bslash (lit "[") eq_refl Hb).
  rewrite (@extract_absent cd _ d_paren _ _ c_bslash (lit "(") eq_refl Hb).
  rewrite (@extract_absent cd _ d_dollar _ _ c_dollar [] eq_refl Hd).
  eexists. split; reflexivity.
Qed.

Lemma includes_nil (s : str) : JS.includes [] s = true.
Proof. unfold JS.includes. destruct s; reflexivity. Qed.

(** Replacing a token that does not occur changes nothing. *)
Lemma splitJoin_absent (k o s : str) :
  JS.includes k s = false -> JS.splitJoin k o s = s.
Proof.
  intros H.
  assert (Hk : k <> []).
  { intros ->. rewrite includes_nil in H. discriminate. }
  unfold JS.includes in H.
  destruct (JS.find k s) eqn:E; [discriminate|].
  rewrite <- (app_nil_r s) at 1.
  rewrite (@splitJoin_pass k o Hk s []).
  - rewrite (splitJoin_nil o Hk). apply app_nil_r.
  - intros q _. rewrite app_nil_r. apply (find_none _ _ E).
Qed.

Lemma fold_left_fixed (A B : Type) (f : A -> B -> A) (l : list B) (a : A) :
  (forall b, In b l -> f a b = a) -> fold_left f l a = a.
Proof.
  induction l as [|b l IH]; intros H; cbn [fold_left]; [reflexivity|].
  rewrite (H b (or_introl eq_refl)). apply IH.
  intros b' Hb'. apply H. right. exact Hb'.
Qed.

Lemma fold_left_same (A B : Type) (f g : A -> B -> A) (l : list B) :
  (forall a b, f a b = g a b) ->
  forall a, fold_left f l a = fold_left g l a.
Proof.
  intros H. induction l as [|b l IH]; intros a; cbn [fold_left];
    [reflexivity|]. rewrite H. apply IH.
Qed.

(** X12: [restore] leaves a text alone when none of the tokens of the table
    occurs in it, with or without rendering. *)
Theorem restore_ignores_absent_tokens (cd : codec) (q : protector)
        (katexLib : option katex) (content : str) (m : mathMap) :
  (forall k, In k (map_keys m) -> JS.includes k content = false) ->
  restore cd q katexLib content m = content.
Proof.
  intros H. unfold restore.
  destruct (negb (nonEmpty content) || (length m =? 0)); [reflexivity|].
  apply fold_left_fixed. intros k Hk.
  apply in_rev in Hk. apply (proj1 (sort_In _ _)) in Hk.
  destruct (map_get m k) as [info|]; [|reflexivity].
  cbv zeta.
  destruct (if nonEmpty (encodedOriginal info)
            then Some (decodeBase64 cd (encodedOriginal info))
            else if nonEmpty (original info)
                 then Some (original info) else None); [|reflexivity].
  apply splitJoin_absent, H, Hk.
Qed.

(** X13: when KaTeX throws on every formula that has something to render,
    [restore] puts the original texts back: the result is the one
    obtained without KaTeX. *)
Theorem failed_rendering_falls_back (cd : codec) (q : protector)
        (katexLib : katex) (content : str) (m : mathMap) :
  (forall k i, In (k, i) m ->
     JS.blank (innerContent i) = true \/
     katexLib (innerContent i) (isDisplay i) = None) ->
  restore cd q (Some katexLib) content m = restore cd q None content m.
Proof.
  intros H. unfold restore.
  destruct (negb (nonEmpty content) || (length m =? 0)); [reflexivity|].
  apply fold_left_same. intros restored k.
  destruct (map_get m k) as [info|] eqn:E; [|reflexivity].
  cbv zeta.
  destruct (if nonEmpty (encodedOriginal info)
            then Some (decodeBase64 cd (encodedOriginal info))
            else if nonEmpty (original info)
                 then Some (original info) else None) as [o|]; [|reflexivity].
  destruct (renderOnRestore (opts q)); [|reflexivity].
  f_equal. unfold renderMathExpression.
  destruct (H k info (map_get_In _ _ E)) as [Hb|Hk].
  - rewrite Hb. reflexivity.
  - destruct (JS.blank (innerContent info)); [reflexivity|].
    rewrite Hk. reflexivity.
Qed.

Lemma text_without_markers_witness :
  exists p',
    protect rawCodec (create plainOptions) (lit "Plain *prose*, no math.") =
      Some (p', {| protected := lit "Plain *prose*, no math.";
                   spans := [] |}) /\
    counter p' = counter (create plainOptions).
Proof.
  apply (@text_without_markers_is_untouched rawCodec (create plainOptions)
           (lit "Plain *prose*, no math."));
    vm_compute; lia.
Defined.

Lemma restore_absent_witness :
  restore rawCodec (create defaultOptions) (Some (fun _ _ => Some (lit "<b>")))
          (lit "no token here") squareRow
  = lit "no token here".
Proof.
  apply (@restore_ignores_absent_tokens rawCodec (create defaultOptions)
           (Some (fun _ _ => Some (lit "<b>"))) (lit "no token here")
           squareRow).
  intros k [<-|[]]. vm_compute. reflexivity.
Defined.

Lemma failed_rendering_witness :
  restore rawCodec (create defaultOptions) (Some (fun _ _ => None))
          (lit "so ::MATH_0:: holds") squareRow
  = restore rawCodec (create defaultOptions) None
            (lit "so ::MATH_0:: holds") squareRow.
Proof.
  apply (@failed_rendering_falls_back rawCodec (create defaultOptions)
           (fun _ _ => None) (lit "so ::MATH_0:: holds") squareRow).
  intros k i _. right. reflexivity.
Defined.

End PlainText.

(** ** The counters of the streaming tracker *)

Module Tracker.
Import StreamingMathRenderer StreamRenderer Props StringFacts Streaming.
Import RegexFacts PlainText.

Lemma sig_loop_absent (fuel : nat) (clean : str) (d : delim) (sp : nat)
      (sigs : list str) (x : char) (w : str) :
  left d = x :: w -> ~ In x clean ->
  sig_loop (S fuel) clean d sp sigs = Some sigs.
Proof.
  intros Hl Hx. cbn [sig_loop]. rewrite Hl, indexOf_absent by exact Hx.
  reflexivity.
Qed.

(** A text that holds neither a dollar sign nor a backslash has no
    formula signature. *)
Lemma plain_text_has_no_signature (content : str) :
  ~ In c_dollar content -> ~ In c_bslash content ->
  extractFormulaSignatures content = Some [].
Proof.
  intros Hd Hb. unfold extractFormulaSignatures.
  rewrite (@replace_needs _ (fun c => c = c_dollar)
             MathProtector.re_currencyRange _ tt content range_needs_dollar).
  2:{ intros c Hc ->. apply Hd, Hc. }
  cbn [snd]. unfold delimiters. cbn [sig_delims].
  rewrite (Nat.add_comm (length content) 2). cbn [Nat.add].
  repeat (erewrite sig_loop_absent;
          [|reflexivity|first [exact Hd|exact Hb]]).
  reflexivity.
Qed.

Section Chunks.
Variable Dom : Type.
Variable be : backend Dom.

(** X14: a chunk of plain prose, without a dollar sign or a backslash, never
    reaches the rendering backend: it is counted as a skip and the page
    and the seen-set stay as they are. *)
Theorem plain_chunk_never_renders (t : tracker) (content : str)
        (target : Dom) :
  ~ In c_dollar content -> ~ In c_bslash content ->
  exists res,
    processChunk be t content target = Some res /\
    returned res = false /\
    backendCalls res = 0 /\
    element res = target /\
    seenFormulas (after res) = seenFormulas t /\
    rendersSkipped (stat (after res)) = S (rendersSkipped (stat t)) /\
    consecutiveSkips (after res) = S (consecutiveSkips t).
Proof.
  intros Hd Hb. unfold processChunk.
  rewrite (@plain_text_has_no_signature content Hd Hb). cbn [filter length Nat.eqb].
  eexists. split; [reflexivity|]. cbn. repeat split; reflexivity.
Qed.

(** What one call of [processChunk] does to the tracker, whatever the
    chunk and the backend. *)
Lemma processChunk_counts (t : tracker) (c : str) (target : Dom) :
  exists res,
    processChunk be t c target = Some res /\
    rendersAttempted (stat (after res)) = S (rendersAttempted (stat t)) /\
    accumulatedContent (after res) = accumulatedContent t ++ c /\
    rendersSkipped (stat t) <= rendersSkipped (stat (after res)) /\
    rendersExecuted (stat t) <= rendersExecuted (stat (after res)) /\
    rendersSkipped (stat (after res)) + rendersExecuted (stat (after res))
      <= S (rendersSkipped (stat t) + rendersExecuted (stat t)) /\
    consecutiveSkips (after res) + rendersSkipped (stat t)
      <= consecutiveSkips t + rendersSkipped (stat (after res)) /\
    (forall s, In s (seenFormulas t) -> In s (seenFormulas (after res))).
Proof.
  unfold processChunk.
  destruct (extractFormulaSignatures_total c) as [sigs ->].
  destruct (length _ =? 0).
  - eexists. split; [reflexivity|]. cbn. repeat split; auto; lia.
  - destruct (renderMath be target) as [[target' rendered] calls].
    destruct rendered.
    + eexists. split; [reflexivity|]. cbn. repeat split; try lia.
      intros s Hs. apply fold_set_add_In. left. exact Hs.
    + eexists. split; [reflexivity|]. cbn. repeat split; auto; lia.
Qed.

Lemma processAll_counts (chunks : list str) :
  forall (t : tracker) (target : Dom),
  exists t' d,
    processAll be t chunks target = Some (t', d) /\
    rendersAttempted (stat t') = rendersAttempted (stat t) + length chunks /\
    accumulatedContent t' = accumulatedContent t ++ concat chunks /\
    rendersSkipped (stat t) <= rendersSkipped (stat t') /\
    rendersExecuted (stat t) <= rendersExecuted (stat t') /\
    rendersSkipped (stat t') + rendersExecuted (stat t')
      <= rendersSkipped (stat t) + rendersExecuted (stat t) + length chunks /\
    consecutiveSkips t' + rendersSkipped (stat t)
      <= consecutiveSkips t + rendersSkipped (stat t') /\
    (forall s, In s (seenFormulas t) -> In s (seenFormulas t')).
Proof.
  induction chunks as [|c cs IH]; intros t target; cbn [processAll].
  - exists t, target. split; [reflexivity|]. cbn [length concat].
    rewrite app_nil_r. repeat split; auto; lia.
  - destruct (processChunk_counts t c target)
      as [res (-> & A1 & A2 & A3 & A4 & A5 & A6 & A7)].
    destruct (IH (after res) (element res))
      as [t' [d (-> & B1 & B2 & B3 & B4 & B5 & B6 & B7)]].
    exists t', d. split; [reflexivity|]. cbn [length concat].
    rewrite B2, A2, <- app_assoc.
    repeat split; auto; lia.
Qed.

(** X15: the counters of a tracker that has been handed a stream of chunks:
    one attempt per chunk, each attempt skipped or executed at most
    once, the run of consecutive skips no longer than the number of
    skips, and the buffer equal to the chunks put end to end. *)
Theorem tracker_counts_every_chunk (chunks : list str) (target : Dom) :
  exists t d,
    processAll be StreamingMathRenderer.create chunks target = Some (t, d) /\
    rendersAttempted (stat t) = length chunks /\
    rendersSkipped (stat t) + rendersExecuted (stat t) <= length chunks /\
    consecutiveSkips t <= rendersSkipped (stat t) /\
    accumulatedContent t = concat chunks.
Proof.
  destruct (processAll_counts chunks StreamingMathRenderer.create target)
    as [t [d (H & B1 & B2 & B3 & B4 & B5 & B6 & B7)]].
  exists t, d. cbn in *. repeat split; auto; lia.
Qed.

(** X16: [processChunk] answers true only after one call of the backend that
    returned and left more rendered formulas in the page than before;
    only then are the signatures of the chunk recorded.  When it answers
    false the seen-set is as before, so that the formulas are tried
    again with the next chunk. *)
Theorem signatures_are_recorded_on_success (t : tracker) (c : str)
        (target : Dom) :
  exists res,
    processChunk be t c target = Some res /\
    if returned res
    then (exists f, renderMathInElement be = Some f /\
                    f target = Returned (element res) /\
                    katexCount be target < katexCount be (element res)) /\
         backendCalls res = 1 /\
         rendersExecuted (stat (after res)) = S (rendersExecuted (stat t)) /\
         consecutiveSkips (after res) = 0 /\
         (forall s, In s (seenFormulas (after res)) <->
                    In s (seenFormulas t) \/ extracted c s)
    else seenFormulas (after res) = seenFormulas t /\
         rendersExecuted (stat (after res)) = rendersExecuted (stat t) /\
         backendCalls res <= 1.
Proof.
  unfold processChunk, extracted.
  destruct (extractFormulaSignatures_total c) as [sigs Hs]. rewrite Hs.
  destruct (length _ =? 0) eqn:El.
  { eexists. split; [reflexivity|]. cbn. repeat split; auto. }
  unfold renderMath.
  destruct (renderMathInElement be) as [f|] eqn:Ef.
  2:{ eexists. split; [reflexivity|]. cbn. repeat split; auto. }
  destruct (f target) as [d'|d'] eqn:Er.
  2:{ eexists. split; [reflexivity|]. cbn. repeat split; auto. }
  destruct (katexCount be target <? katexCount be d') eqn:Ec.
  2:{ eexists. split; [reflexivity|]. cbn. repeat split; auto. }
  apply Nat.ltb_lt in Ec.
  eexists. split; [reflexivity|]. cbn [returned after element backendCalls
    stat rendersExecuted consecutiveSkips seenFormulas].
  split; [exists f; auto|]. repeat split; try reflexivity.
  - intros H. apply fold_set_add_In in H. destruct H as [H|H]; [auto|].
    apply filter_In in H. destruct H as [H _]. right. exists sigs. auto.
  - intros [H|[sigs' [E Hin]]]; apply fold_set_add_In; [auto|].
    apply ScanFacts.some_inj in E. subst sigs'.
    destruct (set_has (seenFormulas t) s) eqn:Eh.
    + left. apply set_has_In, Eh.
    + right. apply filter_In. split; [exact Hin|]. rewrite Eh. reflexivity.
Qed.

End Chunks.

Section Stream.
Variable Dom : Type.
Variable be : backend Dom.
Variable renderPage : str -> Dom.

(** One [appendContent] on a renderer whose last rendered content is its
    content. *)
Lemma appendContent_counts (r : renderer Dom) (chunk : str) :
  lastContent (incrementalRenderer r) = content r ->
  exists r',
    appendContent be renderPage r chunk =
      Some (r', MathProtector.nonEmpty chunk) /\
    content r' = content r ++ chunk /\
    lastContent (incrementalRenderer r') = content r' /\
    renderCount (incrementalRenderer r') =
      renderCount (incrementalRenderer r) +
      (if MathProtector.nonEmpty chunk then 1 else 0) /\
    rendersAttempted (stat (streamingMathRenderer r')) =
      rendersAttempted (stat (streamingMathRenderer r)) +
      (if MathProtector.nonEmpty chunk then 1 else 0) /\
    (MathProtector.nonEmpty chunk = true ->
     exists res,
       processChunk be (streamingMathRenderer r) (content r ++ chunk)
                    (renderPage (content r ++ chunk)) = Some res /\
       targetElement r' = element res).
Proof.
  intros Hinv. unfold appendContent, appendNewContent.
  destruct chunk as [|x chunk]; cbn [MathProtector.nonEmpty negb].
  { exists r. rewrite app_nil_r, !Nat.add_0_r.
    repeat split; auto. discriminate. }
  assert (E1 : MathProtector.nonEmpty (content r ++ x :: chunk) = true).
  { destruct (content r); reflexivity. }
  rewrite E1. cbn [negb].
  assert (E2 : str_eqb (content r ++ x :: chunk)
                       (lastContent (incrementalRenderer r)) = false).
  { apply str_eqb_neq. rewrite Hinv. intros H.
    apply (f_equal (@length char)) in H. rewrite length_app in H.
    simpl in H. lia. }
  rewrite E2.
  destruct (processChunk_counts be (streamingMathRenderer r)
              (content r ++ x :: chunk) (renderPage (content r ++ x :: chunk)))
    as [res (Hres & A1 & _)].
  rewrite Hres. eexists. split; [reflexivity|].
  cbn [content incrementalRenderer lastContent renderCount
       streamingMathRenderer targetElement].
  repeat split; try lia; auto.
  intros _. exists res. auto.
Qed.

Lemma appendAll_counts (chunks : list str) :
  forall r : renderer Dom,
    lastContent (incrementalRenderer r) = content r ->
    exists r',
      appendAll be renderPage r chunks = Some r' /\
      content r' = content r ++ concat chunks /\
      lastContent (incrementalRenderer r') = content r' /\
      renderCount (incrementalRenderer r') =
        renderCount (incrementalRenderer r) +
        length (filter MathProtector.nonEmpty chunks) /\
      rendersAttempted (stat (streamingMathRenderer r')) =
        rendersAttempted (stat (streamingMathRenderer r)) +
        length (filter MathProtector.nonEmpty chunks).
Proof.
  induction chunks as [|c cs IH]; intros r Hinv; cbn [appendAll].
  - exists r. rewrite app_nil_r. cbn. repeat split; auto.
  - destruct (appendContent_counts r c Hinv)
      as [r1 (-> & A1 & A2 & A3 & A4 & _)].
    destruct (IH r1 A2) as [r' (-> & B1 & B2 & B3 & B4)].
    exists r'. split; [reflexivity|].
    cbn [concat filter].
    split; [rewrite B1, A1, <- app_assoc; reflexivity|].
    split; [exact B2|].
    destruct (MathProtector.nonEmpty c); cbn [length]; lia.
Qed.

(** X17: a stream renderer that is fed chunks from its creation on renders
    the page and hands the tracker the content once for every chunk that
    is not empty, and holds the chunks put end to end; after that,
    [appendContent] answers true exactly when its chunk is not empty. *)
Theorem stream_renders_once_per_chunk (target : Dom) (chunks : list str)
        (chunk : str) :
  exists r r',
    appendAll be renderPage (create target) chunks = Some r /\
    content r = concat chunks /\
    lastContent (incrementalRenderer r) = concat chunks /\
    renderCount (incrementalRenderer r) =
      length (filter MathProtector.nonEmpty chunks) /\
    rendersAttempted (stat (streamingMathRenderer r)) =
      length (filter MathProtector.nonEmpty chunks) /\
    appendContent be renderPage r chunk =
      Some (r', MathProtector.nonEmpty chunk) /\
    content r' = concat chunks ++ chunk.
Proof.
  destruct (appendAll_counts chunks (create target) eq_refl)
    as [r (H & B1 & B2 & B3 & B4)].
  destruct (appendContent_counts r chunk B2) as [r' (H' & A1 & _)].
  exists r, r'. cbn in *. rewrite <- B1.
  repeat split; auto; congruence.
Qed.

End Stream.

Lemma plain_chunk_witness :
  exists res,
    processChunk countingBackend StreamingMathRenderer.create
                 (lit "Plain prose.") 0 = Some res /\
    returned res = false /\
    backendCalls res = 0 /\
    element res = 0 /\
    seenFormulas (after res) = [] /\
    rendersSkipped (stat (after res)) = 1 /\
    consecutiveSkips (after res) = 1.
Proof.
  apply (@plain_chunk_never_renders nat countingBackend
           StreamingMathRenderer.create (lit "Plain prose.") 0);
    vm_compute; lia.
Defined.

End Tracker.

(** ** The signatures of the streaming tracker *)

Module Signatures.
Import StreamingMathRenderer Props StringFacts Streaming.





End Signatures.

(** ** The currency masks of an instance *)

Module CurrencyState.
Import MathProtector Props StringFacts Numbering RoundTrip.

(** X19: after [protect] on a text that is not empty the currency map of the
    instance holds the masks of this call alone, numbered from 0 in the
    order of the ranges, and the currency counter is their number; none
    of them is a key of the span table. *)
Theorem currency_masks_are_numbered_afresh (cd : codec) (p p' : protector)
        (content : str) (r : protectResult) :
  protect cd p content = Some (p', r) ->
  content <> [] ->
  map_keys (currencyMap p') =
    List.map curPlaceholder (seq 0 (currencyCounter p')) /\
  length (currencyMap p') = currencyCounter p' /\
  forall k, In k (map_keys (currencyMap p')) -> map_get (spans r) k = None.
Proof.
  unfold protect. destruct content as [|c0 content0]; [congruence|].
  intros Hp _.
  destruct (Regex.replace re_currencyRange maskRange
              {| counter := counter p; currencyCounter := 0;
                 currencyMap := []; opts := opts p |} (c0 :: content0))
    as [p1 masked] eqn:Er.
  unfold Regex.replace in Er.
  destruct (@premask_shape _ _ _ _ _ _ Er) as [Hcur _]; [reflexivity|].
  destruct (protectDelims cd delimiters masked [] (counter p1))
    as [[[scanned m] c']|] eqn:Ep; [|discriminate].
  apply ScanFacts.some_inj in Hp. apply pair_inj in Hp.
  destruct Hp as [<- <-]. cbn [currencyMap currencyCounter spans].
  split; [exact Hcur|]. split.
  - unfold curInv in Hcur. apply (f_equal (@length str)) in Hcur.
    unfold map_keys in Hcur. rewrite !length_map, length_seq in Hcur.
    exact Hcur.
  - intros k Hk.
    assert (Hn0 : numbered (counter p1) [] (counter p1)).
    { split; [simpl; lia|]. intros [|i] k0; discriminate. }
    destruct (@protectDelims_numbered cd (counter p1) delimiters
                Termination.delimiters_wf _ _ _ _ _ _ Ep Hn0)
      as [[_ Hkeys] _].
    destruct (map_get m k) as [i|] eqn:E; [|reflexivity].
    exfalso. apply map_get_key in E. apply In_nth_error in E.
    destruct E as [j Hj]. pose proof (Hkeys _ _ Hj) as Ht.
    rewrite Hcur in Hk. apply in_map_iff in Hk. destruct Hk as [n [<- _]].
    apply (cur_not_numbered Ht).
Qed.

Lemma currency_masks_witness :
  exists p' r,
    protect rawCodec (create plainOptions)
      (lit "From $5-$10 to $50 - $100") = Some (p', r) /\
    (map_keys (currencyMap p') =
       List.map curPlaceholder
                (seq 0 (currencyCounter p')) /\
     length (currencyMap p') = currencyCounter p' /\
     forall k, In k (map_keys (currencyMap p')) ->
               map_get (spans r) k = None).
Proof.
  do 2 eexists. split; [vm_compute; reflexivity|].
  eapply (@currency_masks_are_numbered_afresh rawCodec
            (create plainOptions) _
            (lit "From $5-$10 to $50 - $100") _).
  - vm_compute. reflexivity.
  - discriminate.
Defined.

End CurrencyState.

(** ** The order of the rows, and the tokens of successive calls *)

Module Order.
Import MathProtector Props StringFacts Termination Tokens ScanFacts.
Import Numbering RoundTrip Rows.

(** The rows come in the order of the priorities of their delimiters. *)
Definition byPriority (m : mathMap) : Prop :=
  forall a b x y,
    a <= b -> nth_error m a = Some x -> nth_error m b = Some y ->
    priority (delimiter (snd x)) <= priority (delimiter (snd y)).

Lemma byPriority_app (m extra : mathMap) (q : nat) :
  byPriority m ->
  (forall x, In x m -> priority (delimiter (snd x)) <= q) ->
  (forall y, In y extra -> priority (delimiter (snd y)) = q) ->
  byPriority (m ++ extra).
Proof.
  intros Hm Hle Heq a b x y Hab Ha Hb.
  destruct (Nat.lt_ge_cases b (length m)) as [Hlt|Hge].
  - rewrite nth_error_app1 in Ha, Hb by lia. apply (Hm a b x y Hab Ha Hb).
  - rewrite nth_error_app2 in Hb by lia. apply nth_error_In in Hb.
    rewrite (Heq y Hb).
    destruct (Nat.lt_ge_cases a (length m)) as [Hlt'|Hge'].
    + rewrite nth_error_app1 in Ha by lia. apply nth_error_In in Ha.
      apply (Hle x Ha).
    + rewrite nth_error_app2 in Ha by lia. apply nth_error_In in Ha.
      rewrite (Heq x Ha). lia.
Qed.

(** The scan of one delimiter appends rows of that delimiter. *)
Lemma scan_loop_appends (cd : codec) (d : delim) (c0 : nat) :
  wf_delim d -> ~ In c_nl (left d) ->
  forall (fuel : nat) (st st' : scan),
    scan_loop fuel cd d st = Some st' ->
    numbered c0 (table st) (ctr st) ->
    numbered c0 (table st') (ctr st') /\
    exists extra,
      table st' = table st ++ extra /\
      forall y, In y extra -> delimiter (snd y) = d.
Proof.
  intros Hwf Hnl. induction fuel as [|f IH]; intros st st' Hl;
    cbn [scan_loop] in Hl; [discriminate|].
  assert (Hnone : numbered c0 (table st) (ctr st) ->
            numbered c0 (table st) (ctr st) /\
            exists extra, table st = table st ++ extra /\
                          forall y, In y extra -> delimiter (snd y) = d).
  { intros Hn. split; [exact Hn|]. exists []. rewrite app_nil_r.
    split; [reflexivity|]. intros y []. }
  destruct (searchPos st <? length (result st)) eqn:E.
  2:{ apply some_inj in Hl. subst st'. exact Hnone. }
  apply Nat.ltb_lt in E.
  destruct (scan_step cd d st) as [out|] eqn:Es; [|discriminate].
  intros Hn.
  assert (Hout : numbered c0 (table (state_of out)) (ctr (state_of out)) /\
            exists extra,
              table (state_of out) = table st ++ extra /\
              forall y, In y extra -> delimiter (snd y) = d).
  { destruct (@scan_step_row cd d st out Hwf Hnl E Es)
      as [[-> ->]|[ph [info (-> & -> & Ht & Hrow)]]]; [exact (Hnone Hn)|].
    destruct (@numbered_set c0 _ _ ph info Hn Ht) as [-> Hn'].
    split; [exact Hn'|]. exists [(ph, info)]. split; [reflexivity|].
    intros y [<-|[]]. destruct Hrow as [Hd _]. exact Hd. }
  destruct out as [st1|st1]; cbn [state_of] in Hout.
  - destruct Hout as [Hn1 [x1 [E1 H1]]].
    destruct (IH st1 st' Hl Hn1) as [Hn2 [x2 [E2 H2]]].
    split; [exact Hn2|]. exists (x1 ++ x2). rewrite E2, E1, app_assoc.
    split; [reflexivity|]. intros y Hy. apply in_app_or in Hy.
    destruct Hy; auto.
  - apply some_inj in Hl. subst st'. exact Hout.
Qed.

Lemma protectDelims_ordered (cd : codec) (c0 : nat) (ds : list delim) :
  Forall wf_delim ds -> Forall (fun d => ~ In c_nl (left d)) ds ->
  (forall a b x y, a <= b -> nth_error ds a = Some x ->
                   nth_error ds b = Some y -> priority x <= priority y) ->
  forall (content : str) (m : mathMap) (c : nat) (content' : str)
         (m' : mathMap) (c' : nat),
    protectDelims cd ds content m c = Some (content', m', c') ->
    numbered c0 m c -> byPriority m ->
    (forall x d, In x m -> In d ds ->
                 priority (delimiter (snd x)) <= priority d) ->
    byPriority m'.
Proof.
  intros Hwf. induction Hwf as [|d ds Hd Hds IH]; intros Hnl Hsorted
    content m c content' m' c' Hp Hnum Hord Hbound;
    cbn [protectDelims] in Hp.
  - apply some_inj in Hp. inversion Hp. subst. exact Hord.
  - inversion Hnl as [|? ? Hn Hns]. subst.
    unfold extractAndReplace in Hp.
    destruct (scan_loop (S (length content)) cd d
                {| result := content; searchPos := 0;
                   table := m; ctr := c |}) as [st1|] eqn:El;
      [|discriminate].
    destruct (@scan_loop_appends cd d c0 Hd Hn _ _ _ El Hnum)
      as [Hn1 [extra [E1 H1]]].
    cbn [table] in E1.
    apply (IH Hns) with (2 := Hp).
    + intros a b x y Hab Ha Hb.
      apply (Hsorted (S a) (S b) x y); [lia|exact Ha|exact Hb].
    + exact Hn1.
    + rewrite E1. apply (@byPriority_app m extra (priority d) Hord).
      * intros x Hx. apply (Hbound x d Hx). left. reflexivity.
      * intros y Hy. rewrite (H1 y Hy). reflexivity.
    + intros x d' Hx Hd'. rewrite E1 in Hx. apply in_app_or in Hx.
      destruct Hx as [Hx|Hx].
      * apply (Hbound x d' Hx). right. exact Hd'.
      * rewrite (H1 x Hx). apply In_nth_error in Hd'.
        destruct Hd' as [j Hj].
        apply (Hsorted 0 (S j) d d'); [lia|reflexivity|exact Hj].
Qed.

Lemma delimiters_sorted :
  forall a b x y, a <= b -> nth_error delimiters a = Some x ->
                  nth_error delimiters b = Some y ->
                  priority x <= priority y.
Proof.
  rewrite delimiters_list. intros a b x y Hab Ha Hb.
  destruct a as [|[|[|[|a]]]]; destruct b as [|[|[|[|b]]]];
    cbn in Ha, Hb; try lia;
    try (destruct a; discriminate); try (destruct b; discriminate);
    apply some_inj in Ha; apply some_inj in Hb; subst; cbn; lia.
Qed.

(** X20: the rows of the span table follow the order in which the delimiters
    are scanned, not the order of the spans in the text: all rows of
    [$$] come first, then those of [\[], of [\(] and of [$]. *)
Theorem rows_follow_delimiter_priority (cd : codec) (p p' : protector)
        (content : str) (r : protectResult) :
  protect cd p content = Some (p', r) ->
  forall a b x y,
    a <= b ->
    nth_error (spans r) a = Some x -> nth_error (spans r) b = Some y ->
    priority (delimiter (snd x)) <= priority (delimiter (snd y)).
Proof.
  unfold protect. destruct content as [|c0 content0].
  { intros H. apply some_inj in H. apply pair_inj in H. destruct H as [_ <-].
    intros [|a] b x y _ Ha; discriminate. }
  destruct (Regex.replace _ _ _ _) as [p1 masked].
  destruct (protectDelims cd delimiters masked [] (counter p1))
    as [[[scanned m] c']|] eqn:Ep; [|discriminate].
  intros H. apply some_inj in H. apply pair_inj in H. destruct H as [_ <-].
  cbn [spans].
  assert (Hn0 : numbered (counter p1) [] (counter p1)).
  { split; [simpl; lia|]. intros [|i] k; discriminate. }
  apply (@protectDelims_ordered cd (counter p1) delimiters delimiters_wf
           delimiters_one_line delimiters_sorted _ _ _ _ _ _ Ep Hn0).
  - intros [|a] b x y _ Ha; discriminate.
  - intros x d [].
Qed.

Lemma protect_numbered (cd : codec) (p p' : protector) (content : str)
      (r : protectResult) :
  protect cd p content = Some (p', r) ->
  numbered (counter p) (spans r) (counter p').
Proof.
  unfold protect. destruct content as [|c content].
  - intros H. apply some_inj in H. apply pair_inj in H.
    destruct H as [<- <-]. split; [simpl; lia|].
    intros [|i] k; discriminate.
  - destruct (Regex.replace _ _ _ _) as [p1 masked] eqn:Er.
    apply replace_keeps_counter in Er. simpl in Er. destruct Er as [Ec _].
    destruct (protectDelims cd delimiters masked [] (counter p1))
      as [[[scanned m] c']|] eqn:Ep; [|discriminate].
    intros H. apply some_inj in H. apply pair_inj in H.
    destruct H as [<- <-]. cbn [spans counter].
    assert (Hn0 : numbered (counter p1) [] (counter p1)).
    { split; [simpl; lia|]. intros [|i] k; discriminate. }
    destruct (@protectDelims_numbered cd (counter p1) delimiters delimiters_wf
                _ _ _ _ _ _ Ep Hn0) as [Hn _].
    rewrite <- Ec. exact Hn.
Qed.

(** X21: two successive calls of [protect] on one instance never hand out the
    same token: the keys of the two span tables are disjoint, so that
    the tables can be merged. *)
Theorem successive_calls_use_fresh_tokens (cd : codec) (p p1 p2 : protector)
        (c1 c2 : str) (r1 r2 : protectResult) (k : str) :
  protect cd p c1 = Some (p1, r1) ->
  protect cd p1 c2 = Some (p2, r2) ->
  In k (map_keys (spans r1)) -> ~ In k (map_keys (spans r2)).
Proof.
  intros H1 H2 Hk1 Hk2.
  destruct (protect_numbered _ _ _ H1) as [E1 N1].
  destruct (protect_numbered _ _ _ H2) as [_ N2].
  apply In_nth_error in Hk1. destruct Hk1 as [i Hi].
  apply In_nth_error in Hk2. destruct Hk2 as [j Hj].
  pose proof (@tokenNumbered_inj k _ _ (N1 _ _ Hi) (N2 _ _ Hj)) as E.
  assert (i < length (map_keys (spans r1))).
  { apply nth_error_Some. rewrite Hi. discriminate. }
  unfold map_keys in *. rewrite length_map in *. lia.
Qed.

Lemma delimiter_priority_witness :
  exists p' r,
    protect rawCodec (create plainOptions) mixedText = Some (p', r) /\
    forall a b x y,
      a <= b ->
      nth_error (spans r) a = Some x -> nth_error (spans r) b = Some y ->
      priority (delimiter (snd x)) <= priority (delimiter (snd y)).
Proof.
  do 2 eexists. split; [vm_compute; reflexivity|].
  eapply (@rows_follow_delimiter_priority rawCodec (create plainOptions) _
            mixedText _).
  vm_compute. reflexivity.
Defined.

Lemma fresh_tokens_witness :
  exists p1 r1 p2 r2,
    protect rawCodec (create plainOptions) (lit "$x^2$") = Some (p1, r1) /\
    protect rawCodec p1 (lit "$y^2$") = Some (p2, r2) /\
    In (lit "::MATH_0::") (map_keys (spans r1)) /\
    ~ In (lit "::MATH_0::") (map_keys (spans r2)).
Proof.
  do 4 eexists. split; [vm_compute; reflexivity|].
  split; [vm_compute; reflexivity|].
  split; [left; reflexivity|].
  eapply (@successive_calls_use_fresh_tokens rawCodec (create plainOptions)
            _ _ (lit "$x^2$") (lit "$y^2$") _ _ (lit "::MATH_0::")).
  - vm_compute. reflexivity.
  - vm_compute. reflexivity.
  - left. reflexivity.
Defined.

End Order.

(** ** A rendered chunk is not rendered twice *)

Module Dedupe.
Import StreamingMathRenderer Props StringFacts Streaming.

Section Chunks.
Variable Dom : Type.
Variable be : backend Dom.

Lemma all_seen_filter (seen sigs : list str) :
  (forall s, In s sigs -> In s seen) ->
  filter (fun sig => negb (set_has seen sig)) sigs = [].
Proof.
  induction sigs as [|x sigs IH]; intros H; cbn [filter]; [reflexivity|].
  rewrite (proj2 (set_has_In seen x) (H x (or_introl eq_refl))).
  cbn [negb]. apply IH. intros s Hs. apply H. right. exact Hs.
Qed.

(** X22: a chunk that has just been rendered is not rendered again: when
    [processChunk] has answered true for a chunk, the next call with
    the same chunk is skipped without a call to the backend. *)
Theorem rendered_chunk_is_skipped_next (t : tracker) (c : str)
        (target target2 : Dom) :
  exists res,
    processChunk be t c target = Some res /\
    (returned res = true ->
     exists res2,
       processChunk be (after res) c target2 = Some res2 /\
       returned res2 = false /\
       backendCalls res2 = 0 /\
       element res2 = target2 /\
       seenFormulas (after res2) = seenFormulas (after res) /\
       rendersSkipped (stat (after res2)) =
         S (rendersSkipped (stat (after res)))).
Proof.
  unfold processChunk.
  destruct (extractFormulaSignatures_total c) as [sigs Hs]. rewrite Hs.
  destruct (length _ =? 0).
  { eexists. split; [reflexivity|]. cbn. discriminate. }
  destruct (renderMath be target) as [[target' rendered] calls].
  destruct rendered.
  2:{ eexists. split; [reflexivity|]. cbn. discriminate. }
  eexists. split; [reflexivity|]. intros _.
  cbn [after seenFormulas stat]. rewrite all_seen_filter.
  - cbn [length Nat.eqb]. eexists. split; [reflexivity|].
    cbn. repeat split; reflexivity.
  - intros s Hin. apply fold_set_add_In.
    destruct (set_has (seenFormulas t) s) eqn:E.
    + left. apply set_has_In, E.
    + right. apply filter_In. split; [exact Hin|]. rewrite E. reflexivity.
Qed.

End Chunks.
End Dedupe.

(** ** No currency mask is left in the protected text *)

Module Leak.
Import MathProtector Props StringFacts Termination Tokens ScanFacts.
Import Numbering SplitJoin Shape Capture RoundTrip RegexFacts.

(** Under the conditions of the round trip, the protected text is the
    input with stretches replaced by tokens of the span table, each of
    which stands for the text of its row. *)
Lemma protect_shape (cd : codec) (p p' : protector) (content : str)
      (r : protectResult) :
  clean content ->
  protect cd p content = Some (p', r) ->
  (forall k i, In (k, i) (spans r) -> clean (original i)) ->
  shape (rowText (spans r)) (protected r) content /\
  (forall k i, map_get (spans r) k = Some i -> exists n, tokenNumbered k n).
Proof.
  intros Hclean Hp Hrows.
  unfold protect in Hp. destruct content as [|c0 content0].
  { apply some_inj in Hp. apply pair_inj in Hp. destruct Hp as [_ <-].
    split; [constructor|]. intros k i H. discriminate. }
  set (content := c0 :: content0) in *.
  destruct (Regex.replace re_currencyRange maskRange
              {| counter := counter p; currencyCounter := 0;
                 currencyMap := []; opts := opts p |} content)
    as [p1 masked] eqn:Er.
  unfold Regex.replace in Er.
  destruct (@premask_shape _ _ _ _ _ _ Er) as [Hcur [_ Hs0]];
    [reflexivity|].
  destruct (protectDelims cd delimiters masked [] (counter p1))
    as [[[scanned m] c']|] eqn:Ep; [|discriminate].
  apply some_inj in Hp. apply pair_inj in Hp. destruct Hp as [_ <-].
  cbn [protected spans] in *.
  assert (Hn0 : numbered (counter p1) [] (counter p1)).
  { split; [simpl; lia|]. intros [|i] k; discriminate. }
  assert (Hr0 : rowsOk cd []) by (intros k i []).
  destruct (@protectDelims_numbered cd (counter p1) delimiters delimiters_wf
              _ _ _ _ _ _ Ep Hn0) as [[_ Hkeys] _].
  destruct (@protectDelims_shape cd (currencyMap p1) (currencyCounter p1)
              (counter p1) content delimiters delimiters_wf delimiters_edge
              Hcur _ _ _ _ _ _ Ep Hn0 Hr0) as [Hr Hs1]; [|exact Hrows|].
  { apply (@shape_weaken (map_get (currencyMap p1))); [|exact Hs0].
    intros t o. apply lookup_nil. }
  split.
  - unfold restoreCurrency.
    apply (@shape_weaken (withoutAll (lookup (currencyMap p1) m)
                            (List.map fst (currencyMap p1)))).
    + intros t o. unfold withoutAll, lookup, rowText.
      destruct (existsb (str_eqb t) (List.map fst (currencyMap p1))) eqn:E;
        [discriminate|].
      destruct (map_get (currencyMap p1) t) as [o'|] eqn:Eg; [|auto].
      apply map_get_key in Eg. apply existsb_In in Eg.
      unfold map_keys in Eg. congruence.
    + apply unmask_shape; [|exact Hs1|exact Hclean].
      intros k o Hin. split.
      * apply (in_map fst) in Hin. cbn [fst] in Hin.
        fold (map_keys (currencyMap p1)) in Hin. rewrite Hcur in Hin.
        apply in_map_iff in Hin. destruct Hin as [n [<- _]].
        exists KCur, n. apply curPlaceholder_tok.
      * intros o' H. unfold lookup in H.
        rewrite (map_get_unique _ _ _ (curInv_NoDup Hcur) Hin) in H.
        inversion H. reflexivity.
  - intros k i H. apply map_get_key in H. apply In_nth_error in H.
    destruct H as [j Hj]. eexists. apply (Hkeys _ _ Hj).
Qed.

(** The name of a currency mask: the word CUR and a digit. *)
Definition curName (d : char) : str := lit "CUR" ++ [d].

Lemma numbered_token_no_C (k : str) (n : nat) :
  tokenNumbered k n -> ~ In (ch "C") k.
Proof.
  assert (Hd : ~ In (ch "C") (decimal n)).
  { intros H. pose proof (decimal_digits n) as Hall.
    rewrite Forall_forall in Hall. specialize (Hall _ H). discriminate. }
  intros [-> | ->] H; unfold mathPlaceholder, pendingPlaceholder in H;
    apply in_app_or in H; destruct H as [H|H];
    try (apply in_app_or in H; destruct H as [H|H]);
    try (apply Hd, H);
    cbn in H; repeat (destruct H as [H|H]; [discriminate|]); destruct H.
Qed.

Lemma prefixb_head (w a b : str) (c : char) :
  JS.prefixb (c :: w) (a ++ b) = true -> a <> [] -> In c a.
Proof.
  destruct a as [|x a]; [congruence|]. cbn [app JS.prefixb].
  intros H _. apply andb_true_iff in H. destruct H as [H _].
  apply char_eqb_eq in H. subst. left. reflexivity.
Qed.

Lemma includes_cons (w : str) (c : char) (s : str) :
  JS.includes w (c :: s) = JS.prefixb w (c :: s) || JS.includes w s.
Proof.
  unfold JS.includes. cbn [JS.find].
  destruct (JS.prefixb w (c :: s)); [reflexivity|].
  destruct (JS.find w s); reflexivity.
Qed.

Lemma includes_skip (w a s : str) :
  JS.includes w s = true -> JS.includes w (a ++ s) = true.
Proof.
  intros H. apply includes_iff in H. destruct H as [x [y ->]].
  apply includes_iff. exists (a ++ x), y. rewrite <- app_assoc. reflexivity.
Qed.

Lemma includes_absent_head (c : char) (w t P : str) :
  ~ In c t -> JS.includes (c :: w) (t ++ P) = true ->
  JS.includes (c :: w) P = true.
Proof.
  induction t as [|x t IH]; intros Hc H; [exact H|].
  cbn [app] in H. rewrite includes_cons in H.
  assert (E : JS.prefixb (c :: w) (x :: t ++ P) = false).
  { cbn [JS.prefixb].
    assert (Ex : char_eqb c x = false).
    { apply N.eqb_neq. intros ->. apply Hc. left. reflexivity. }
    rewrite Ex. reflexivity. }
  rewrite E in H. cbn [orb] in H. apply IH; [|exact H].
  intros Hin. apply Hc. right. exact Hin.
Qed.

(** A mask name in the protected text is a mask name of the input. *)
Lemma shape_keeps_names (g : str -> option str) (d : char) :
  Regex.isDigit d = true ->
  (forall t o, g t = Some o -> ~ In (ch "C") t) ->
  forall P T, shape g P T ->
    JS.includes (curName d) P = true -> JS.includes (curName d) T = true.
Proof.
  intros Hd Hg P T Hs. induction Hs as [|c P T Hs IH|t o P T Ht Hf Hs IH].
  - intros H. exact H.
  - rewrite !includes_cons. intros H. apply orb_true_iff in H.
    apply orb_true_iff. destruct H as [H|H]; [left|right; apply IH, H].
    pose proof (@shape_plain_prefix g (curName d) (@name_plain KCur d Hd)
                  (c :: P) (c :: T) (sh_chr c Hs) H) as Hp.
    exact Hp.
  - intros H. apply includes_skip. apply IH.
    apply (@includes_absent_head (ch "C") (lit "UR" ++ [d]) t P);
      [apply (Hg _ _ Hf)|exact H].
Qed.

Lemma mlens_lits (w : str) :
  forall prev s n, In n (Regex.mlens (Regex.lits w) prev s) ->
                   n = length w /\ JS.prefixb w s = true.
Proof.
  induction w as [|c w IH]; intros prev s n; cbn [Regex.lits Regex.mlens].
  - intros [<-|[]]. split; reflexivity.
  - destruct s as [|x s]; [intros []|].
    destruct (N.eqb c x) eqn:E; cbn [flat_map]; [|intros []].
    rewrite app_nil_r. intros H. apply in_map_iff in H.
    destruct H as [j [<- Hj]]. cbn [skipn] in Hj.
    destruct (IH _ _ _ Hj) as [-> Hp]. split; [reflexivity|].
    cbn [JS.prefixb]. unfold char_eqb. rewrite E. exact Hp.
Qed.

(** A currency mask holds the name of a mask. *)
Lemma curToken_name (s : str) :
  Regex.test re_curToken s = true ->
  exists d, Regex.isDigit d = true /\ JS.includes (curName d) s = true.
Proof.
  unfold Regex.test.
  destruct (Regex.exec_from re_curToken None s 0) as [[i n]|] eqn:E;
    [|discriminate].
  intros _.
  assert (Hm : forall s prev pos i n,
             Regex.exec_from re_curToken prev s pos = Some (i, n) ->
             exists prev' a b, s = a ++ b /\
                               In n (Regex.mlens re_curToken prev' b)).
  { clear. induction s as [|x s IH]; intros prev pos i n; cbn [Regex.exec_from].
    - destruct (Regex.mlens re_curToken prev []) as [|k l] eqn:E;
        [discriminate|].
      intros H. apply some_inj in H. apply pair_inj in H. destruct H as [_ <-].
      exists prev, [], []. split; [reflexivity|]. rewrite E. left. reflexivity.
    - destruct (Regex.mlens re_curToken prev (x :: s)) as [|k l] eqn:E.
      + intros H. destruct (IH _ _ _ _ H) as [prev' [a [b [-> Hin]]]].
        exists prev', (x :: a), b. split; [reflexivity|exact Hin].
      + intros H. apply some_inj in H. apply pair_inj in H.
        destruct H as [_ <-].
        exists prev, [], (x :: s). split; [reflexivity|].
        rewrite E. left. reflexivity. }
  destruct (Hm _ _ _ _ _ E) as [prev' [a [b [-> Hin]]]].
  unfold re_curToken in Hin. cbn [Regex.mlens] in Hin.
  apply in_flat_map in Hin. destruct Hin as [k [Hk Hin]].
  apply mlens_lits in Hk. destruct Hk as [-> Hp].
  apply in_map_iff in Hin. destruct Hin as [j [_ Hj]].
  apply in_flat_map in Hj. destruct Hj as [k2 [Hk2 _]].
  unfold Regex.Plus in Hk2. cbn [Regex.mlens] in Hk2.
  apply in_flat_map in Hk2. destruct Hk2 as [k3 [Hk3 _]].
  apply prefixb_true in Hp.
  destruct (skipn (length (lit "::CUR")) b) as [|d rest] eqn:Es;
    [destruct Hk3|].
  destruct (Regex.isDigit d) eqn:Ed; [|destruct Hk3].
  exists d. split; [exact Ed|].
  apply includes_iff. exists (a ++ [c_colon; c_colon]), rest.
  rewrite Hp. unfold curName. rewrite <- !app_assoc. reflexivity.
Qed.

(** X23: step 3 of [protect] leaves no currency mask behind: under the
    conditions of the round trip (neither the text nor a captured span
    holds the name of a placeholder) the protected text holds no mask
    [::CUR<n>::]. *)
Theorem no_currency_mask_leaks (cd : codec) (p p' : protector)
        (content : str) (r : protectResult) :
  clean content ->
  protect cd p content = Some (p', r) ->
  (forall k i, In (k, i) (spans r) -> clean (original i)) ->
  hasCurrencyMask (protected r) = false.
Proof.
  intros Hclean Hp Hrows.
  destruct (@protect_shape cd p p' content r Hclean Hp Hrows) as [Hs Hkeys].
  unfold hasCurrencyMask.
  destruct (Regex.test re_curToken (protected r)) eqn:E; [|reflexivity].
  exfalso. destruct (curToken_name _ E) as [d [Hd Hi]].
  assert (Hin : JS.includes (curName d) content = true).
  { apply (@shape_keeps_names (rowText (spans r)) d Hd) with (3 := Hi);
      [|exact Hs].
    intros t o Ht. unfold rowText in Ht.
    destruct (map_get (spans r) t) as [i|] eqn:Eg; [|discriminate].
    destruct (Hkeys _ _ Eg) as [n Hn]. apply (numbered_token_no_C Hn). }
  pose proof (Hclean KCur d Hd) as Hc. cbn [kword] in Hc.
  unfold curName in Hin. rewrite Hc in Hin. discriminate.
Qed.

Lemma no_leak_witness :
  exists p' r,
    protect rawCodec (create plainOptions) mixedText = Some (p', r) /\
    hasCurrencyMask (protected r) = false.
Proof.
  do 2 eexists. split; [vm_compute; reflexivity|].
  eapply (@no_currency_mask_leaks rawCodec (create plainOptions) _
            mixedText _).
  - apply cleanb_sound. vm_compute. reflexivity.
  - vm_compute. reflexivity.
  - intros k i Hin. cbn [spans] in Hin.
    repeat (destruct Hin as [Hin|Hin];
            [inversion Hin; apply cleanb_sound; vm_compute;
             reflexivity|]).
    destruct Hin.
Defined.

End Leak.

(** * Currency ranges

    Step 1 of [protect] and [isCurrencyRange] describe a currency range
    by two different patterns; the first is included in the second. *)

Module Ranges.
Import Regex CurrencyDetector MathProtector Props StringFacts Fuel.
Import ScanFacts RoundTrip RegexFacts Classifier Rows.

Lemma firstn_plus (s : str) (k j : nat) :
  firstn (k + j) s = firstn k s ++ firstn j (skipn k s).
Proof.
  revert k. induction s as [|x s IH]; intros k.
  - rewrite skipn_nil, !firstn_nil. reflexivity.
  - destruct k as [|k]; [reflexivity|]. cbn [Nat.add firstn skipn app].
    f_equal. apply IH.
Qed.

Lemma app_inv_len (a a' b b' : str) :
  length a = length a' -> a ++ b = a' ++ b' -> a = a' /\ b = b'.
Proof.
  revert a'. induction a as [|x a IH]; intros [|y a'] Hl E;
    try discriminate; [auto|].
  cbn [app] in E. inversion E. subst.
  destruct (IH a' ltac:(simpl in Hl; lia) H1) as [-> ->]. auto.
Qed.

Lemma seq_inv (a b : regex) (prev : option char) (s : str) (n : nat) :
  In n (mlens (Seq a b) prev s) ->
  exists k j, n = k + j /\ In k (mlens a prev s) /\
              In j (mlens b (lastChar prev s k) (skipn k s)).
Proof.
  cbn [mlens]. intros H. apply in_flat_map in H. destruct H as [k [Hk H]].
  apply in_map_iff in H. destruct H as [j [<- Hj]]. eauto.
Qed.

Lemma star_inv (m : option char -> str -> list nat) (f : nat)
      (prev : option char) (s : str) (n : nat) :
  In n (star_lens m (S f) prev s) ->
  n = 0 \/
  exists k j, n = S k + j /\ In (S k) (m prev s) /\
              In j (star_lens m f (lastChar prev s (S k)) (skipn (S k) s)).
Proof.
  cbn [star_lens]. intros H. apply in_app_or in H.
  destruct H as [H|[<-|[]]]; [|left; reflexivity].
  apply in_flat_map in H. destruct H as [k [Hk H]].
  destruct k as [|k]; [destruct H|].
  apply in_map_iff in H. destruct H as [j [<- Hj]]. right. eauto.
Qed.

(** The first [n] code units decide whether a pattern without assertions
    has a match of length [n]. *)
Lemma star_local (m : option char -> str -> list nat) :
  bounded m ->
  (forall prev prev' s s' n,
      In n (m prev s) -> firstn n s = firstn n s' -> In n (m prev' s')) ->
  forall f f' prev prev' s s' n,
    In n (star_lens m f prev s) -> firstn n s = firstn n s' -> n <= f' ->
    n <= length s ->
    In n (star_lens m f' prev' s').
Proof.
  intros Hb Hm. induction f as [|f IH]; intros f' prev prev' s s' n Hin E Hf Hn.
  - destruct Hin as [<-|[]]. apply star_lens_zero.
  - apply star_inv in Hin. destruct Hin as [->|[k [j (-> & Hk & Hj)]]];
      [apply star_lens_zero|].
    destruct f' as [|f']; [lia|].
    rewrite !firstn_plus in E.
    assert (Hlen : length (firstn (S k) s) = S k).
    { rewrite length_firstn. lia. }
    assert (Hlen' : length (firstn (S k) s') = S k).
    { apply (f_equal (@length char)) in E.
      rewrite !length_app, !length_firstn, !length_skipn in E.
      rewrite length_firstn. lia. }
    assert (E1 : firstn (S k) s = firstn (S k) s' /\
                 firstn j (skipn (S k) s) = firstn j (skipn (S k) s')).
    { apply app_inv_len; [congruence|exact E]. }
    destruct E1 as [E1 E2].
    cbn [star_lens]. apply in_or_app. left. apply in_flat_map.
    exists (S k). split; [apply (Hm prev prev' s s' _ Hk E1)|].
    apply in_map.
    apply (IH f' _ _ _ _ _ Hj E2); [lia|rewrite length_skipn; lia].
Qed.
Lemma firstn_eq_length (s s' : str) (n : nat) :
  n <= length s -> firstn n s = firstn n s' -> n <= length s'.
Proof.
  intros Hn E. apply (f_equal (@length char)) in E.
  rewrite !length_firstn in E. lia.
Qed.

Lemma mlens_local (r : regex) :
  noLook r ->
  forall prev prev' s s' n,
    In n (mlens r prev s) -> firstn n s = firstn n s' ->
    In n (mlens r prev' s').
Proof.
  induction r as [|p|a IHa b IHb|a IHa b IHb|a IHa| | |];
    cbn [noLook]; intros Hno prev prev' s s' n Hin E; try contradiction.
  - exact Hin.
  - cbn [mlens] in *. destruct s as [|c s]; [destruct Hin|].
    destruct (p c) eqn:Ep; [|destruct Hin]. destruct Hin as [<-|[]].
    destruct s' as [|c' s']; [discriminate|].
    cbn [firstn] in E. inversion E. subst c'. rewrite Ep. left. reflexivity.
  - destruct Hno as [Ha Hb]. pose proof Hin as Hin0.
    apply seq_inv in Hin. destruct Hin as [k [j (-> & Hk & Hj)]].
    pose proof (mlens_bound _ _ _ _ Hin0) as Hn.
    pose proof (firstn_eq_length _ _ Hn E) as Hn'.
    rewrite !firstn_plus in E.
    apply app_inv_len in E; [|rewrite !length_firstn; lia].
    destruct E as [E1 E2].
    apply mlens_seq_intro.
    + apply (IHa Ha prev prev' s s' k Hk E1).
    + apply (IHb Hb _ _ _ _ j Hj E2).
  - destruct Hno as [Ha Hb]. cbn [mlens] in *. apply in_app_or in Hin.
    apply in_or_app. destruct Hin as [H|H]; [left|right].
    + apply (IHa Ha prev prev' s s' n H E).
    + apply (IHb Hb prev prev' s s' n H E).
  - pose proof (mlens_bound _ _ _ _ Hin) as Hn.
    pose proof (firstn_eq_length _ _ Hn E) as Hn'.
    cbn [mlens] in *.
    apply (@star_local (mlens a) (@mlens_bound a) (IHa Hno)
             _ _ prev prev' s s' n Hin E Hn' Hn).
Qed.

Lemma star_within (P : char -> Prop) (m : option char -> str -> list nat) :
  (forall prev s n, In n (m prev s) -> Forall P (firstn n s)) ->
  forall f prev s n, In n (star_lens m f prev s) -> Forall P (firstn n s).
Proof.
  intros Hm. induction f as [|f IH]; intros prev s n Hin.
  - destruct Hin as [<-|[]]. constructor.
  - apply star_inv in Hin. destruct Hin as [->|[k [j (-> & Hk & Hj)]]];
      [constructor|].
    rewrite firstn_plus. apply Forall_app. split.
    + apply (Hm _ _ _ Hk).
    + apply (IH _ _ _ Hj).
Qed.

Lemma within_sound (P : char -> Prop) (r : regex) :
  within P r ->
  forall prev s n, In n (mlens r prev s) -> Forall P (firstn n s).
Proof.
  induction r as [|p|a IHa b IHb|a IHa b IHb|a IHa| | |];
    cbn [within]; intros Hw prev s n Hin.
  - destruct Hin as [<-|[]]. constructor.
  - cbn [mlens] in Hin. destruct s as [|c s]; [destruct Hin|].
    destruct (p c) eqn:Ep; [|destruct Hin]. destruct Hin as [<-|[]].
    constructor; [apply Hw, Ep|constructor].
  - destruct Hw as [Ha Hb].
    apply seq_inv in Hin. destruct Hin as [k [j (-> & Hk & Hj)]].
    rewrite firstn_plus. apply Forall_app. split.
    + apply (IHa Ha _ _ _ Hk).
    + apply (IHb Hb _ _ _ Hj).
  - destruct Hw as [Ha Hb]. cbn [mlens] in Hin. apply in_app_or in Hin.
    destruct Hin as [H|H]; [apply (IHa Ha _ _ _ H)|apply (IHb Hb _ _ _ H)].
  - cbn [mlens] in Hin. apply (@star_within P (mlens a) (IHa Hw) _ _ _ _ Hin).
  - cbn [mlens] in Hin. destruct prev; [destruct Hin|].
    destruct Hin as [<-|[]]. constructor.
  - cbn [mlens] in Hin. destruct s; [|destruct Hin].
    destruct Hin as [<-|[]]. constructor.
  - cbn [mlens] in Hin. destruct (xorb _ _); [|destruct Hin].
    destruct Hin as [<-|[]]. constructor.
Qed.

(** A run of a class, not empty, is a match of the class repeated. *)
Lemma plus_of_class (p : char -> bool) (prev : option char) (s : str)
      (k : nat) :
  Forall (fun c => p c = true) (firstn k s) -> 1 <= k -> k <= length s ->
  In k (mlens (Plus (Cls p)) prev s).
Proof.
  intros Hall H1 Hk.
  destruct s as [|c s]; [simpl in Hk; lia|].
  destruct k as [|k]; [lia|]. cbn [firstn] in Hall.
  inversion Hall as [|? ? Hc Hrest]. subst.
  change (S k) with (1 + k). unfold Plus. apply mlens_seq_intro.
  - cbn [mlens]. rewrite Hc. left. reflexivity.
  - cbn [skipn]. generalize (lastChar prev (c :: s) 1). intros pv.
    assert (Hl : length (firstn k s) = k)
      by (rewrite length_firstn; simpl in Hk; lia).
    assert (Es : s = firstn k s ++ skipn k s)
      by (symmetry; apply firstn_skipn).
    revert Hl Es Hrest. generalize (firstn k s) (skipn k s).
    intros u t Hl Es Hrest. subst s k.
    apply mlens_star_run. apply forallb_forall.
    apply (proj1 (Forall_forall _ _) Hrest).
Qed.

Lemma full_seq_inv (a b : regex) (prev : option char) (s : str) :
  full (Seq a b) prev s ->
  exists k, k <= length s /\ In k (mlens a prev s) /\
            full b (lastChar prev s k) (skipn k s).
Proof.
  unfold full. intros H. apply seq_inv in H.
  destruct H as [k [j (E & Hk & Hj)]]. exists k.
  pose proof (mlens_bound _ _ _ _ Hk) as Hb.
  split; [exact Hb|]. split; [exact Hk|].
  rewrite length_skipn. replace (length s - k) with j by lia. exact Hj.
Qed.

Lemma full_seq (a b : regex) (prev : option char) (s : str) (k : nat) :
  k <= length s -> In k (mlens a prev s) ->
  full b (lastChar prev s k) (skipn k s) ->
  full (Seq a b) prev s.
Proof.
  unfold full. intros Hk Ha Hb. rewrite length_skipn in Hb.
  replace (length s) with (k + (length s - k)) by lia.
  apply mlens_seq_intro; assumption.
Qed.

Lemma amount_within : within amountP re_amount.
Proof.
  unfold re_amount, Opt, Plus, amountP. cbn [within].
  repeat split; intros c; unfold orb_cls; classes.
Qed.

Lemma amount_needs : needs (fun _ => True) re_amount.
Proof. left. intros c _. exact I. Qed.

(** An amount of Step 1 of [protect] is a run of digits, dots and
    commas. *)
Lemma amount_is_run (prev prev' : option char) (s : str) (k : nat) :
  In k (mlens re_amount prev s) ->
  In k (mlens (Plus (digitOr ".,")) prev' s).
Proof.
  intros H. unfold digitOr.
  pose proof (mlens_bound _ _ _ _ H) as Hb.
  apply plus_of_class; [|  |exact Hb].
  - apply (@within_sound amountP re_amount amount_within _ _ _ H).
  - destruct (@needs_sound (fun _ => True) re_amount amount_needs _ _ _ H)
      as [c [Hc _]].
    destruct k; [destruct Hc|lia].
Qed.

(** What Step 1 of [protect] matches is, taken alone, a currency range
    for [isCurrencyRange]. *)
Lemma range_match_is_range (prev : option char) (s : str) (n : nat) :
  In n (mlens re_currencyRange prev s) ->
  isCurrencyRange (firstn n s) = true.
Proof.
  intros H. pose proof (mlens_bound _ _ _ _ H) as Hn.
  assert (Hno : noLook re_currencyRange).
  { unfold re_currencyRange, re_amount, Opt, Plus. cbn [noLook]. tauto. }
  assert (Hf : full re_currencyRange None (firstn n s)).
  { unfold full. rewrite length_firstn, Nat.min_l by exact Hn.
    apply (@mlens_local _ Hno prev None s (firstn n s) n H).
    rewrite firstn_firstn, Nat.min_id. reflexivity. }
  generalize dependent (firstn n s). clear. intros M Hf.
  unfold isCurrencyRange, re_range. rewrite test_bol.
  assert (Hfull : full
    (Seq (c1 "$") (Seq (Plus (digitOr ".,")) (Seq (Star space)
      (Seq (c1 "-") (Seq (Star space) (Seq (c1 "$")
        (Seq (Plus (digitOr ".,")) Eol))))))) None M).
  { unfold re_currencyRange in Hf.
    apply full_seq_inv in Hf. destruct Hf as [k1 (L1 & H1 & Hf)].
    apply full_seq_inv in Hf. destruct Hf as [k2 (L2 & H2 & Hf)].
    apply full_seq_inv in Hf. destruct Hf as [k3 (L3 & H3 & Hf)].
    apply full_seq_inv in Hf. destruct Hf as [k4 (L4 & H4 & Hf)].
    apply full_seq_inv in Hf. destruct Hf as [k5 (L5 & H5 & Hf)].
    apply full_seq_inv in Hf. destruct Hf as [k6 (L6 & H6 & Hf)].
    apply (@full_seq _ _ _ _ k1 L1 H1).
    apply (@full_seq _ _ _ _ k2 L2 (@amount_is_run _ _ _ _ H2)).
    apply (@full_seq _ _ _ _ k3 L3 H3).
    apply (@full_seq _ _ _ _ k4 L4 H4).
    apply (@full_seq _ _ _ _ k5 L5 H5).
    apply (@full_seq _ _ _ _ k6 L6 H6).
    unfold full in Hf.
    apply (@full_seq _ _ _ _ _ (le_n _) (@amount_is_run _ _ _ _ Hf)).
    unfold full. rewrite skipn_all. left. reflexivity. }
  unfold full in Hfull.
  destruct (mlens _ None M); [destruct Hfull|reflexivity].
Qed.

Lemma exec_from_match (r : regex) :
  forall s prev pos i n,
    exec_from r prev s pos = Some (i, n) ->
    pos <= i /\
    exists prev', In n (mlens r prev' (skipn (i - pos) s)).
Proof.
  induction s as [|x s IH]; intros prev pos i n; cbn [exec_from].
  - destruct (mlens r prev []) as [|k l] eqn:E; [discriminate|].
    intros H. apply some_inj in H. apply pair_inj in H. destruct H as [<- <-].
    split; [lia|]. exists prev. rewrite Nat.sub_diag. cbn [skipn].
    rewrite E. left. reflexivity.
  - destruct (mlens r prev (x :: s)) as [|k l] eqn:E.
    + intros H. destruct (IH _ _ _ _ H) as [Hle [prev' Hin]].
      split; [lia|]. exists prev'.
      replace (i - pos) with (S (i - S pos)) by lia. exact Hin.
    + intros H. apply some_inj in H. apply pair_inj in H.
      destruct H as [<- <-].
      split; [lia|]. exists prev. rewrite Nat.sub_diag. cbn [skipn].
      rewrite E. left. reflexivity.
Qed.

Lemma masks_are_ranges (fuel : nat) :
  forall (p p' : protector) (prev : option char) (s out : str),
    replace_fuel fuel re_currencyRange maskRange p prev s = (p', out) ->
    (forall k v, In (k, v) (currencyMap p) -> isCurrencyRange v = true) ->
    forall k v, In (k, v) (currencyMap p') -> isCurrencyRange v = true.
Proof.
  induction fuel as [|f IH]; intros p p' prev s out H Hinv;
    cbn [replace_fuel] in H.
  - apply pair_inj in H. destruct H as [<- _]. exact Hinv.
  - destruct (exec_from re_currencyRange prev s 0) as [[i n]|] eqn:Ex.
    2:{ apply pair_inj in H. destruct H as [<- _]. exact Hinv. }
    apply exec_from_match in Ex. destruct Ex as [_ [prev' Hin]].
    rewrite Nat.sub_0_r in Hin.
    pose proof (range_match_is_range _ _ _ Hin) as Hq.
    unfold maskRange in H.
    set (p1 := {| counter := counter p;
                  currencyCounter := S (currencyCounter p);
                  currencyMap :=
                    map_set (currencyMap p)
                            (curPlaceholder (currencyCounter p))
                            (firstn n (skipn i s));
                  opts := opts p |}) in *.
    assert (Hinv1 : forall k v, In (k, v) (currencyMap p1) ->
                                isCurrencyRange v = true).
    { intros k v Hkv. unfold p1 in Hkv. cbn [currencyMap] in Hkv.
      apply map_set_In in Hkv. destruct Hkv as [Hkv| ->]; [|exact Hq].
      apply (Hinv k v Hkv). }
    destruct n as [|n].
    + destruct (skipn i s) as [|c s'].
      * apply pair_inj in H. destruct H as [<- _]. exact Hinv1.
      * destruct (replace_fuel f _ _ _ _ _) as [a2 o2] eqn:E.
        apply pair_inj in H. destruct H as [<- _].
        apply (IH _ _ _ _ _ E Hinv1).
    + destruct (replace_fuel f _ _ _ _ _) as [a2 o2] eqn:E.
      apply pair_inj in H. destruct H as [<- _].
      apply (IH _ _ _ _ _ E Hinv1).
Qed.

(** X24: whatever Step 1 of [protect] masks is a currency range for
    [isCurrencyRange]: after [protect] on a text that is not empty,
    every text kept in the currency map of the instance passes that
    test. *)
Theorem masked_ranges_are_currency_ranges (cd : codec) (p p' : protector)
        (content : str) (r : protectResult) (k v : str) :
  protect cd p content = Some (p', r) ->
  content <> [] ->
  In (k, v) (currencyMap p') ->
  isCurrencyRange v = true.
Proof.
  unfold protect. destruct content as [|c0 content0]; [congruence|].
  intros Hp _.
  destruct (Regex.replace re_currencyRange maskRange
              {| counter := counter p; currencyCounter := 0;
                 currencyMap := []; opts := opts p |} (c0 :: content0))
    as [p1 masked] eqn:Er.
  destruct (protectDelims cd delimiters masked [] (counter p1))
    as [[[scanned m] c']|] eqn:Ep; [|discriminate].
  apply some_inj in Hp. apply pair_inj in Hp. destruct Hp as [<- _].
  cbn [currencyMap]. unfold Regex.replace in Er.
  apply (masks_are_ranges _ _ _ _ Er). intros k0 v0 [].
Qed.

Lemma masked_ranges_witness :
  exists p' r,
    protect rawCodec (create plainOptions) (lit "From $5 - $1,000.50 on")
      = Some (p', r) /\
    In (lit "::CUR0::", lit "$5 - $1,000.50") (currencyMap p') /\
    isCurrencyRange (lit "$5 - $1,000.50") = true.
Proof.
  do 2 eexists. split; [vm_compute; reflexivity|].
  split; [left; reflexivity|].
  eapply (@masked_ranges_are_currency_ranges rawCodec (create plainOptions) _
            (lit "From $5 - $1,000.50 on") _ (lit "::CUR0::")).
  - vm_compute. reflexivity.
  - discriminate.
  - left. reflexivity.
Defined.

End Ranges.

(** * The handlers of fenced blocks

    [normalizeNewlines], the tests that guard the two [protect]
    functions, and the rows these functions store. *)

Module Literal.
Import JS Regex Fence StringFacts Fuel SplitJoin.

Lemma lits_lens (k : str) :
  forall prev s,
    mlens (lits k) prev s = if prefixb k s then [length k] else [].
Proof.
  induction k as [|c k IH]; intros prev s; cbn [lits mlens prefixb].
  - reflexivity.
  - destruct s as [|x s]; [reflexivity|].
    unfold char_eqb. destruct (N.eqb c x); cbn [flat_map andb];
      [|reflexivity].
    rewrite app_nil_r. cbn [skipn]. rewrite IH.
    destruct (prefixb k s); reflexivity.
Qed.

Lemma lits_exec (k : str) :
  forall s prev pos,
    exec_from (lits k) prev s pos =
    option_map (fun i => (pos + i, length k)) (find k s).
Proof.
  induction s as [|x s IH]; intros prev pos;
    cbn [exec_from find]; rewrite lits_lens.
  - destruct (prefixb k []); cbn [option_map]; [|reflexivity].
    rewrite Nat.add_0_r. reflexivity.
  - destruct (prefixb k (x :: s)); cbn [option_map].
    + rewrite Nat.add_0_r. reflexivity.
    + rewrite IH. destruct (find k s); cbn [option_map]; [|reflexivity].
      rewrite Nat.add_succ_r. reflexivity.
Qed.

Lemma join_split_S (k o : str) (f : nat) (s : str) (i : nat) :
  find k s = Some i ->
  join o (split_fuel (S f) k s) =
  firstn i s ++ o ++ join o (split_fuel f k (skipn (i + length k) s)).
Proof.
  intros E. cbn [split_fuel]. rewrite E.
  apply join_cons. apply split_fuel_nonempty.
Qed.

(** Replacing every match of a literal pattern is [split] and [join]. *)
Lemma replaceAll_literal (k o : str) :
  k <> [] ->
  forall s, replaceAll (lits k) o s = splitJoin k o s.
Proof.
  intros Hk s. unfold replaceAll, Regex.replace, splitJoin, split.
  generalize (@None char). generalize (S (length s)). intros f. revert s.
  induction f as [|f IH]; intros s prev; [reflexivity|].
  cbn [replace_fuel]. rewrite lits_exec.
  destruct (find k s) as [i|] eqn:E; cbn [option_map].
  2:{ cbn [split_fuel]. rewrite E. reflexivity. }
  rewrite (@join_split_S k o f s i E).
  destruct k as [|c k']; [congruence|]. cbn [length Nat.add].
  destruct (replace_fuel f _ _ tt _ _) as [[] out] eqn:Er.
  cbn [snd]. f_equal. f_equal.
  specialize (IH (skipn (i + S (length k')) s)
                 (lastChar prev s (i + S (length k')))).
  cbn [Nat.add] in Er. rewrite Er in IH. exact IH.
Qed.

End Literal.

Module Newlines.
Import JS Regex Fence MermaidHandler StringFacts Fuel SplitJoin.
Import PlainText Leak Literal.

Section TwoUnits.
Variables a b x : char.
Hypothesis Hax : x <> a.
Hypothesis Hbx : x <> b.

Lemma two_nonempty : [a; b] <> [].
Proof. discriminate. Qed.

Lemma sj_head (s : str) :
  match splitJoin [a; b] [x] s with
  | [] => True
  | h :: _ => h = x \/ exists s', s = h :: s' /\ prefixb [a; b] s = false
  end.
Proof.
  destruct s as [|c s].
  - rewrite (@splitJoin_nil [a; b] [x] two_nonempty). exact I.
  - destruct (prefixb [a; b] (c :: s)) eqn:E.
    + rewrite (@splitJoin_hit [a; b] [x] two_nonempty _ E). left. reflexivity.
    + rewrite (@splitJoin_miss [a; b] [x] two_nonempty _ _ E).
      right. exists s. split; reflexivity.
Qed.

(** After the replacement no occurrence of the two code units is left. *)
Lemma sj_gone :
  forall n s, length s < n ->
    includes [a; b] (splitJoin [a; b] [x] s) = false.
Proof.
  induction n as [|n IH]; intros s Hn; [lia|].
  destruct s as [|c s].
  { rewrite (@splitJoin_nil [a; b] [x] two_nonempty). reflexivity. }
  destruct (prefixb [a; b] (c :: s)) eqn:E.
  - rewrite (@splitJoin_hit [a; b] [x] two_nonempty _ E).
    cbn [app]. rewrite includes_cons.
    assert (Ex : char_eqb a x = false).
    { apply N.eqb_neq. intros ->. apply Hax. reflexivity. }
    cbn [prefixb]. rewrite Ex. cbn [andb orb].
    apply IH. rewrite length_skipn. simpl in *. lia.
  - rewrite (@splitJoin_miss [a; b] [x] two_nonempty _ _ E).
    rewrite includes_cons. rewrite (IH s) by (simpl in Hn; lia).
    rewrite orb_false_r. cbn [prefixb].
    destruct (char_eqb a c) eqn:Eac; [|reflexivity]. cbn [andb].
    pose proof (sj_head s) as Hh.
    destruct (splitJoin [a; b] [x] s) as [|h t]; [reflexivity|].
    destruct (char_eqb b h) eqn:Ebh; [|reflexivity].
    apply char_eqb_eq in Ebh. subst h. exfalso.
    destruct Hh as [Hh|[s' [-> _]]].
    + apply Hbx. symmetry. exact Hh.
    + cbn [prefixb] in E. rewrite Eac, char_eqb_refl in E. discriminate.
Qed.

(** What stands at the head of the result stood at the head of the
    text, for a word without the inserted unit. *)
Lemma sj_reflect (w : str) :
  ~ In x w ->
  forall s, prefixb w (splitJoin [a; b] [x] s) = true -> prefixb w s = true.
Proof.
  induction w as [|c0 w IH]; intros Hw s; [reflexivity|].
  assert (Ex : char_eqb c0 x = false).
  { apply N.eqb_neq. intros ->. apply Hw. left. reflexivity. }
  destruct s as [|c s].
  { rewrite (@splitJoin_nil [a; b] [x] two_nonempty). discriminate. }
  destruct (prefixb [a; b] (c :: s)) eqn:E.
  - rewrite (@splitJoin_hit [a; b] [x] two_nonempty _ E).
    cbn [app prefixb]. rewrite Ex. discriminate.
  - rewrite (@splitJoin_miss [a; b] [x] two_nonempty _ _ E).
    cbn [prefixb]. intros H. apply andb_true_iff in H. destruct H as [H1 H2].
    rewrite H1. cbn [andb]. apply IH; [|exact H2].
    intros Hin. apply Hw. right. exact Hin.
Qed.

Lemma sj_keeps_absent (w : str) :
  ~ In x w ->
  forall n s, length s < n ->
    includes w s = false -> includes w (splitJoin [a; b] [x] s) = false.
Proof.
  intros Hw. induction n as [|n IH]; intros s Hn H; [lia|].
  destruct s as [|c s].
  { rewrite (@splitJoin_nil [a; b] [x] two_nonempty). exact H. }
  destruct (prefixb [a; b] (c :: s)) eqn:E.
  - rewrite (@splitJoin_hit [a; b] [x] two_nonempty _ E).
    cbn [app]. rewrite includes_cons.
    rewrite IH.
    + rewrite orb_false_r. destruct w as [|c0 w].
      { rewrite includes_nil in H. discriminate. }
      cbn [prefixb].
      assert (Ex : char_eqb c0 x = false).
      { apply N.eqb_neq. intros ->. apply Hw. left. reflexivity. }
      rewrite Ex. reflexivity.
    + rewrite length_skipn. simpl in *. lia.
    + rewrite <- (firstn_skipn (length [a; b]) (c :: s)) in H.
      apply includes_false_app in H. apply H.
  - rewrite (@splitJoin_miss [a; b] [x] two_nonempty _ _ E).
    rewrite includes_cons in *. apply orb_false_iff in H.
    destruct H as [H1 H2].
    rewrite (IH s) by (simpl in Hn; lia || exact H2).
    rewrite orb_false_r.
    destruct (prefixb w (c :: splitJoin [a; b] [x] s)) eqn:Ep;
      [|reflexivity].
    rewrite <- (@splitJoin_miss [a; b] [x] two_nonempty _ _ E) in Ep.
    apply (@sj_reflect w Hw) in Ep. congruence.
Qed.

End TwoUnits.

(** X25: unless the text holds a doubled backslash before [n], or the text
    that [normalizeNewlines] uses as its mark, no backslash followed by
    [n] is left in the result: each one has become a line feed. *)
Theorem normalizing_leaves_no_backslash_n (text : str) :
  includes (lit "\\n") text = false ->
  includes ESCAPED_NEWLINE text = false ->
  normalizeNewlines text = splitJoin (lit "\n") [c_nl] text /\
  includes (lit "\n") (normalizeNewlines text) = false.
Proof.
  intros H2 Hm.
  assert (E : normalizeNewlines text = splitJoin (lit "\n") [c_nl] text).
  { unfold normalizeNewlines. destruct text as [|c0 text0]; [reflexivity|].
    cbv zeta.
    rewrite !replaceAll_literal by discriminate.
    rewrite (splitJoin_absent _ _ _ H2).
    apply splitJoin_absent.
    apply (@sj_keeps_absent (ch "\") (ch "n") c_nl)
      with (n := S (length (c0 :: text0)));
      first [exact Hm | apply Nat.lt_succ_diag_r | discriminate
            | vm_compute; intuition discriminate]. }
  split; [exact E|]. rewrite E.
  apply (@sj_gone (ch "\") (ch "n") c_nl) with (n := S (length text));
    first [apply Nat.lt_succ_diag_r | discriminate].
Qed.

Lemma normalizing_witness :
  normalizeNewlines (lit "$\nabla f$ and \nu") =
    lit "$" ++ [c_nl] ++ lit "abla f$ and " ++ [c_nl] ++ lit "u" /\
  includes (lit "\n") (normalizeNewlines (lit "$\nabla f$ and \nu")) = false.
Proof.
  destruct (@normalizing_leaves_no_backslash_n (lit "$\nabla f$ and \nu")
              eq_refl eq_refl) as [E H].
  split; [rewrite E; reflexivity|exact H].
Defined.

End Newlines.

Module Blocks.
Import JS Regex Fence StringFacts Fuel SplitJoin.
Import Props ScanFacts RoundTrip PlainText Leak Literal.

Lemma lits_ci_lens (w : str) :
  forall prev s,
    mlens (lits_ci w) prev s = if prefixci w s then [length w] else [].
Proof.
  induction w as [|c w IH]; intros prev s; cbn [lits_ci mlens prefixci].
  - reflexivity.
  - destruct s as [|x s]; [reflexivity|].
    unfold sameLetter. destruct (N.eqb (toLower x) (toLower c));
      cbn [flat_map andb]; [|reflexivity].
    rewrite app_nil_r. cbn [skipn]. rewrite IH.
    destruct (prefixci w s); reflexivity.
Qed.

Lemma absentci_tail (w : str) (c : char) (s : str) :
  absentci w (c :: s) -> absentci w s.
Proof. intros H j. apply (H (S j)). Qed.

Lemma absentci_skipn (w : str) (n : nat) (s : str) :
  absentci w s -> absentci w (skipn n s).
Proof.
  intros H j. rewrite skipn_skipn. apply H.
Qed.

Lemma ci_exec_none (w : str) :
  forall s prev pos,
    exec_from (lits_ci w) prev s pos = None <-> absentci w s.
Proof.
  induction s as [|x s IH]; intros prev pos; cbn [exec_from];
    rewrite lits_ci_lens.
  - destruct (prefixci w []) eqn:E.
    + split; [discriminate|]. intros H. specialize (H 0).
      cbn [skipn] in H. congruence.
    + split; [|reflexivity]. intros _ [|j]; exact E.
  - destruct (prefixci w (x :: s)) eqn:E.
    + split; [discriminate|]. intros H. specialize (H 0).
      cbn [skipn] in H. congruence.
    + split.
      * intros H [|j]; [exact E|]. cbn [skipn].
        apply (proj1 (IH _ _) H).
      * intros H. apply (proj2 (IH _ _)). apply (absentci_tail H).
Qed.

Lemma ci_test_false (w s : str) :
  test (lits_ci w) s = false <-> absentci w s.
Proof.
  unfold test. rewrite <- (ci_exec_none w s None 0).
  destruct (exec_from (lits_ci w) None s 0); split; congruence.
Qed.

(** Without an opening there is no block. *)
Lemma execBlock_none (word : string) :
  forall s prev pos,
    absentci (fence ++ lit word) s -> execBlock word prev s pos = None.
Proof.
  induction s as [|x s IH]; intros prev pos H; cbn [execBlock];
    unfold matchBlock, fenceOpen; cbn [mlens]; rewrite lits_ci_lens;
    pose proof (H 0) as H0; cbn [skipn] in H0; rewrite H0;
    cbn [flat_map firstClosed].
  - reflexivity.
  - apply IH. apply (absentci_tail H).
Qed.

Lemma replaceBlocks_none (A : Type) (word : string)
      (fn : A -> str -> A * str) (a : A) (s : str) :
  absentci (fence ++ lit word) s -> replaceBlocks word fn a s = (a, s).
Proof.
  intros H. unfold replaceBlocks. cbn [replaceBlocks_fuel].
  rewrite (@execBlock_none word s None 0 H). reflexivity.
Qed.

Lemma foreign_spec (f : char -> bool) (l : str) (c : char) :
  forallb (fun y => negb (f y)) l = true -> In c l -> f c = false.
Proof.
  intros H Hc. apply (proj1 (forallb_forall _ _) H) in Hc.
  apply negb_true_iff in Hc. exact Hc.
Qed.

(** Replacing a token by a text that cannot be part of an opening
    creates no opening. *)
Section NoNewOpening.
Variables k o' w' : str.
Variables x c0 : char.
Hypothesis k_nonempty : k <> [].
Hypothesis head_foreign :
  forallb (fun c => negb (sameLetter x c)) (c0 :: w') = true.
Hypothesis inside_foreign :
  forallb (fun y => negb (sameLetter y c0)) (x :: o') = true.

Lemma sjci_reflect (w1 : str) :
  forallb (fun c => negb (sameLetter x c)) w1 = true ->
  forall s, prefixci w1 (splitJoin k (x :: o') s) = true ->
            prefixci w1 s = true.
Proof.
  induction w1 as [|c1 w1 IH]; intros Hw s; [reflexivity|].
  cbn [forallb] in Hw. apply andb_true_iff in Hw. destruct Hw as [Hc Hw].
  apply negb_true_iff in Hc.
  destruct s as [|c s].
  { rewrite (@splitJoin_nil k (x :: o') k_nonempty). discriminate. }
  destruct (prefixb k (c :: s)) eqn:E.
  - rewrite (@splitJoin_hit k (x :: o') k_nonempty _ E).
    cbn [app prefixci]. rewrite Hc. discriminate.
  - rewrite (@splitJoin_miss k (x :: o') k_nonempty _ _ E).
    cbn [prefixci]. intros H. apply andb_true_iff in H.
    destruct H as [H1 H2]. rewrite H1. cbn [andb]. apply (IH Hw), H2.
Qed.

Lemma absentci_app (u R : str) :
  forallb (fun y => negb (sameLetter y c0)) u = true ->
  absentci (c0 :: w') R -> absentci (c0 :: w') (u ++ R).
Proof.
  intros Hu HR j. rewrite skipn_app.
  destruct (skipn j u) as [|y t] eqn:E.
  - cbn [app]. apply HR.
  - cbn [app prefixci].
    assert (Hy : In y u).
    { rewrite <- (firstn_skipn j u). apply in_or_app. right.
      rewrite E. left. reflexivity. }
    rewrite (@foreign_spec (fun y => sameLetter y c0) u y Hu Hy). reflexivity.
Qed.

Lemma sjci_absent :
  forall n s, length s < n ->
    absentci (c0 :: w') s -> absentci (c0 :: w') (splitJoin k (x :: o') s).
Proof.
  induction n as [|n IH]; intros s Hn H; [lia|].
  destruct s as [|c s].
  { rewrite (@splitJoin_nil k (x :: o') k_nonempty). exact H. }
  destruct (prefixb k (c :: s)) eqn:E.
  - rewrite (@splitJoin_hit k (x :: o') k_nonempty _ E).
    apply (@absentci_app (x :: o') _ inside_foreign).
    apply IH; [|apply absentci_skipn, H].
    rewrite length_skipn. pose proof (prefixb_length _ _ E).
    destruct k; [congruence|]. simpl in *. lia.
  - rewrite (@splitJoin_miss k (x :: o') k_nonempty _ _ E).
    intros [|j]; cbn [skipn].
    + destruct (prefixci (c0 :: w') (c :: splitJoin k (x :: o') s)) eqn:Ep;
        [|reflexivity].
      rewrite <- (@splitJoin_miss k (x :: o') k_nonempty _ _ E) in Ep.
      apply (@sjci_reflect (c0 :: w') head_foreign) in Ep.
      pose proof (H 0) as H0. cbn [skipn] in H0. congruence.
    + apply IH; [simpl in Hn; lia|apply (absentci_tail H)].
Qed.

End NoNewOpening.

Lemma normalize_no_opening (text : str) :
  absentci (lit "```mermaid") text ->
  absentci (lit "```mermaid") (MermaidHandler.normalizeNewlines text).
Proof.
  intros H. unfold MermaidHandler.normalizeNewlines.
  destruct text as [|c0 text0]; [exact H|]. cbv zeta.
  rewrite !replaceAll_literal by discriminate.
  change (lit "```mermaid") with (c_btick :: lit "``mermaid") in *.
  apply (@sjci_absent MermaidHandler.ESCAPED_NEWLINE (lit "n")
           (lit "``mermaid") c_bslash c_btick ltac:(discriminate)
           eq_refl eq_refl _ _ (Nat.lt_succ_diag_r _)).
  apply (@sjci_absent (lit "\n") [] (lit "``mermaid") c_nl c_btick
           ltac:(discriminate) eq_refl eq_refl _ _ (Nat.lt_succ_diag_r _)).
  apply (@sjci_absent (lit "\\n") (lit ":ESCAPED_NEWLINE::")
           (lit "``mermaid") c_colon c_btick ltac:(discriminate)
           eq_refl eq_refl _ _ (Nat.lt_succ_diag_r _)).
  exact H.
Qed.

(** X26: the test that guards [KaTeXHandler.protect] misses no block: on a
    text where [hasKaTeXBlocks] fails, [protect] stores nothing and
    returns the text as it is. *)
Theorem katex_guard_misses_no_block (text : str) :
  KaTeXHandler.hasKaTeXBlocks text = false ->
  KaTeXHandler.protect text =
    {| KaTeXHandler.protected := text; KaTeXHandler.katexMapOf := [] |}.
Proof.
  unfold KaTeXHandler.hasKaTeXBlocks, KaTeXHandler.protect. intros H.
  apply ci_test_false in H.
  rewrite replaceBlocks_none; [reflexivity|exact H].
Qed.

(** X27: on a text where [hasMermaidBlocks] fails, [MermaidHandler.protect]
    stores nothing, but it still normalises the line feeds of the
    text. *)
Theorem mermaid_guard_misses_no_block (text : str) :
  MermaidHandler.hasMermaidBlocks text = false ->
  MermaidHandler.protect text =
    {| MermaidHandler.protected := MermaidHandler.normalizeNewlines text;
       MermaidHandler.mermaidMapOf := [] |}.
Proof.
  unfold MermaidHandler.hasMermaidBlocks, MermaidHandler.protect. intros H.
  apply ci_test_false in H. apply normalize_no_opening in H.
  rewrite replaceBlocks_none; [reflexivity|exact H].
Qed.

(** ** The rows of the handlers *)

Lemma find_firstn_clean (w t : str) (j : nat) :
  w <> [] -> find w t = Some j -> includes w (firstn j t) = false.
Proof.
  intros Hw E. destruct (includes w (firstn j t)) eqn:Ei; [|reflexivity].
  exfalso. apply includes_iff in Ei. destruct Ei as [a [b Eab]].
  assert (La : length a < j).
  { apply (f_equal (@length char)) in Eab.
    rewrite length_firstn, !length_app in Eab.
    destruct w; [congruence|]. simpl in Eab. lia. }
  pose proof (find_first _ _ E La) as Hf.
  assert (Et : t = a ++ w ++ (b ++ skipn j t)).
  { rewrite <- (firstn_skipn j t) at 1. rewrite Eab.
    rewrite <- !app_assoc. reflexivity. }
  rewrite Et in Hf at 1. rewrite skipn_app, skipn_all, Nat.sub_diag in Hf.
  cbn [skipn app] in Hf. rewrite prefixb_app in Hf. discriminate.
Qed.

Lemma fence_nonempty : fence <> [].
Proof. discriminate. Qed.

Lemma firstClosed_spec (s : str) :
  forall opens n g,
    (forall m, In m opens -> m <= length s) ->
    firstClosed s opens = Some (n, g) ->
    includes fence g = false /\ 0 < n <= length s.
Proof.
  induction opens as [|m opens IH]; intros n g Hb; cbn [firstClosed];
    [discriminate|].
  destruct (find fence (skipn m s)) as [j|] eqn:E.
  - intros H. apply some_inj in H. apply pair_inj in H.
    destruct H as [<- <-]. split.
    + apply find_firstn_clean; [exact fence_nonempty|exact E].
    + apply find_bound in E. rewrite length_skipn in E.
      pose proof (Hb m (or_introl eq_refl)).
      change (length fence) with 3 in *. lia.
  - apply IH. intros m' Hm'. apply Hb. right. exact Hm'.
Qed.

Lemma matchBlock_spec (word : string) (prev : option char) (s : str)
      (n : nat) (g : str) :
  matchBlock word prev s = Some (n, g) ->
  includes fence g = false /\ 0 < n <= length s.
Proof.
  unfold matchBlock. apply firstClosed_spec.
  intros m Hm. apply (mlens_bound _ _ _ _ Hm).
Qed.

Lemma execBlock_spec (word : string) :
  forall s prev pos i n g,
    execBlock word prev s pos = Some (i, n, g) ->
    includes fence g = false /\ 0 < n /\ pos <= i /\
    i - pos + n <= length s.
Proof.
  induction s as [|x s IH]; intros prev pos i n g; cbn [execBlock].
  - destruct (matchBlock word prev []) as [[n0 g0]|] eqn:E; [|discriminate].
    intros H. apply some_inj in H. apply pair_inj in H.
    destruct H as [H <-]. apply pair_inj in H. destruct H as [<- <-].
    apply matchBlock_spec in E. rewrite Nat.sub_diag. intuition lia.
  - destruct (matchBlock word prev (x :: s)) as [[n0 g0]|] eqn:E.
    + intros H. apply some_inj in H. apply pair_inj in H.
      destruct H as [H <-]. apply pair_inj in H. destruct H as [<- <-].
      apply matchBlock_spec in E. rewrite Nat.sub_diag. intuition lia.
    + intros H. apply IH in H. cbn [length]. intuition lia.
Qed.

(** The bound on the number of blocks is never reached. *)
Lemma replaceBlocks_fuel_enough (A : Type) (word : string)
      (fn : A -> str -> A * str) :
  forall f1 f2 a prev s,
    length s < f1 -> length s < f2 ->
    replaceBlocks_fuel f1 word fn a prev s =
    replaceBlocks_fuel f2 word fn a prev s.
Proof.
  induction f1 as [|f1 IH]; intros f2 a prev s H1 H2; [lia|].
  destruct f2 as [|f2]; [lia|]. cbn [replaceBlocks_fuel].
  destruct (execBlock word prev s 0) as [[[i n] g]|] eqn:E; [|reflexivity].
  apply execBlock_spec in E. destruct E as (_ & Hn & _ & Hb).
  destruct (fn a g) as [a1 rep].
  rewrite (IH f2); [reflexivity| |]; rewrite length_skipn; lia.
Qed.

Lemma map_set_In_pair (V : Type) (m : MathProtector.smap V) (ph : str)
      (info : V) (k : str) (i : V) :
  In (k, i) (MathProtector.map_set m ph info) ->
  In (k, i) m \/ (k = ph /\ i = info).
Proof.
  induction m as [|[k' v'] m IH]; cbn [MathProtector.map_set].
  - intros [H|[]]. apply pair_inj in H. destruct H as [<- <-]. auto.
  - destruct (str_eqb ph k') eqn:E.
    + apply str_eqb_eq in E. subst k'.
      intros [H|H]; [|left; right; exact H].
      apply pair_inj in H. destruct H as [<- <-]. auto.
    + intros [H|H]; [left; left; exact H|].
      destruct (IH H) as [H'|H']; [left; right; exact H'|right; exact H'].
Qed.

Section Stored.
Variable V : Type.
Variable mk : str -> str * V.
Variable ph : str -> str.
Variable word : string.
Variable fn : MathProtector.smap V -> str -> MathProtector.smap V * str.
Hypothesis fn_def :
  forall m g,
    fn m g = (MathProtector.map_set m (fst (mk g)) (snd (mk g)),
              ph (fst (mk g))).

Lemma blocks_rows :
  forall f a prev s a' out,
    replaceBlocks_fuel f word fn a prev s = (a', out) ->
    forall k v, In (k, v) a' ->
      In (k, v) a \/
      ((exists g, includes fence g = false /\ mk g = (k, v)) /\
       includes (ph k) out = true).
Proof.
  induction f as [|f IH]; intros a prev s a' out H k v Hin;
    cbn [replaceBlocks_fuel] in H.
  { apply pair_inj in H. destruct H as [<- _]. left. exact Hin. }
  destruct (execBlock word prev s 0) as [[[i n] g]|] eqn:E.
  2:{ apply pair_inj in H. destruct H as [<- _]. left. exact Hin. }
  apply execBlock_spec in E. destruct E as (Hg & _).
  rewrite fn_def in H.
  destruct (replaceBlocks_fuel f word fn _ _ _) as [a2 out2] eqn:Er.
  apply pair_inj in H. destruct H as [<- <-].
  destruct (IH _ _ _ _ _ Er k v Hin) as [H1|[Hex Hinc]].
  - apply map_set_In_pair in H1. destruct H1 as [H1|[-> ->]];
      [left; exact H1|]. right. split.
    + exists g. split; [exact Hg|]. destruct (mk g); reflexivity.
    + apply includes_iff. exists (firstn i s), out2. reflexivity.
  - right. split; [exact Hex|].
    apply includes_skip, includes_skip, Hinc.
Qed.

End Stored.

Lemma trimStart_suffix (s : str) : exists l, s = l ++ trimStart s.
Proof.
  induction s as [|c s [l IH]]; [exists []; reflexivity|].
  cbn [trimStart]. destruct (isSpace c).
  - exists (c :: l). cbn [app]. f_equal. exact IH.
  - exists []. reflexivity.
Qed.

Lemma trim_inside (s : str) : exists l r, s = l ++ trim s ++ r.
Proof.
  destruct (trimStart_suffix s) as [l El].
  destruct (trimStart_suffix (rev (trimStart s))) as [l2 E2].
  exists l, (rev l2). unfold trim.
  rewrite <- rev_app_distr, <- E2, rev_involutive. exact El.
Qed.

Lemma trimStart_head (s : str) :
  match trimStart s with [] => True | c :: _ => isSpace c = false end.
Proof.
  induction s as [|c s IH]; [exact I|].
  cbn [trimStart]. destruct (isSpace c) eqn:E; [exact IH|exact E].
Qed.

Lemma trimStart_fixed (s : str) :
  match s with [] => True | c :: _ => isSpace c = false end ->
  trimStart s = s.
Proof.
  destruct s as [|c s]; [reflexivity|]. intros H. cbn [trimStart].
  rewrite H. reflexivity.
Qed.

(** A trimmed text is not changed by [trim]. *)
Lemma trim_idem (s : str) : trim (trim s) = trim s.
Proof.
  unfold trim.
  set (t := trimStart s). set (u := trimStart (rev t)).
  assert (Hu : trimStart u = u).
  { apply trimStart_fixed. apply trimStart_head. }
  assert (Hr : trimStart (rev u) = rev u).
  { apply trimStart_fixed.
    destruct (trimStart_suffix (rev t)) as [l2 E2]. fold u in E2.
    assert (Et : t = rev u ++ rev l2).
    { rewrite <- rev_app_distr, <- E2, rev_involutive. reflexivity. }
    pose proof (trimStart_head s) as Hh. fold t in Hh.
    destruct (rev u) as [|c ru]; [exact I|].
    rewrite Et in Hh. exact Hh. }
  rewrite Hr, rev_involutive, Hu. reflexivity.
Qed.

Lemma trim_clean (w s : str) :
  includes w s = false -> includes w (trim s) = false.
Proof.
  intros H. destruct (trim_inside s) as [l [r E]]. rewrite E in H.
  apply includes_false_app in H. destruct H as [_ H].
  apply includes_false_app in H. apply H.
Qed.

(** X28: every row of the map of [KaTeXHandler.protect] holds a trimmed
    formula without a closing fence, is keyed by the hash of that
    formula and is shown as a display; the protected text holds the
    placeholder of the row. *)
Theorem katex_rows_are_keyed_by_hash (text : str) (k : str)
        (b : KaTeXHandler.block) :
  In (k, b) (KaTeXHandler.katexMapOf (KaTeXHandler.protect text)) ->
  k = lit "KATEX_" ++ Hash.hashCode (KaTeXHandler.code b) /\
  KaTeXHandler.display b = true /\
  trim (KaTeXHandler.code b) = KaTeXHandler.code b /\
  includes fence (KaTeXHandler.code b) = false /\
  includes (placeholder "katex-placeholder" "data-katex-id" k)
           (KaTeXHandler.protected (KaTeXHandler.protect text)) = true.
Proof.
  unfold KaTeXHandler.protect, replaceBlocks.
  destruct (replaceBlocks_fuel _ _ _ _ _ _) as [m out] eqn:E.
  cbn [KaTeXHandler.katexMapOf KaTeXHandler.protected]. intros Hin.
  destruct (@blocks_rows _
              (fun g => (lit "KATEX_" ++ Hash.hashCode (trim g),
                         {| KaTeXHandler.code := trim g;
                            KaTeXHandler.display := true |}))
              (placeholder "katex-placeholder" "data-katex-id")
              "katex" KaTeXHandler.onBlock (fun _ _ => eq_refl)
              _ _ _ _ _ _ E k b Hin) as [[]|[[g [Hg Hk]] Hp]].
  apply pair_inj in Hk. destruct Hk as [<- <-].
  cbn [KaTeXHandler.code KaTeXHandler.display].
  repeat split; [apply trim_idem|apply trim_clean, Hg|exact Hp].
Qed.

(** X29: every row of the map of [MermaidHandler.protect] holds a trimmed
    diagram and is keyed by its hash; the protected text holds the
    placeholder of the row. *)
Theorem mermaid_rows_are_keyed_by_hash (text : str) (k v : str) :
  In (k, v) (MermaidHandler.mermaidMapOf (MermaidHandler.protect text)) ->
  k = lit "MERMAID_" ++ Hash.hashCode v /\
  trim v = v /\
  includes (placeholder "mermaid-placeholder" "data-mermaid-id" k)
           (MermaidHandler.protected (MermaidHandler.protect text)) = true.
Proof.
  unfold MermaidHandler.protect, replaceBlocks.
  destruct (replaceBlocks_fuel _ _ _ _ _ _) as [m out] eqn:E.
  cbn [MermaidHandler.mermaidMapOf MermaidHandler.protected]. intros Hin.
  destruct (@blocks_rows _
              (fun g =>
                 let v := trim (join [c_nl]
                            (List.map MermaidHandler.trimEnd
                                      (split [c_nl] g))) in
                 (lit "MERMAID_" ++ Hash.hashCode v, v))
              (placeholder "mermaid-placeholder" "data-mermaid-id")
              "mermaid" MermaidHandler.onBlock (fun _ _ => eq_refl)
              _ _ _ _ _ _ E k v Hin) as [[]|[[g [Hg Hk]] Hp]].
  cbv zeta in Hk. apply pair_inj in Hk. destruct Hk as [<- <-].
  repeat split; [apply trim_idem|exact Hp].
Qed.

Lemma katex_guard_witness :
  KaTeXHandler.protect (lit "Pay $5 for ``katex``") =
    {| KaTeXHandler.protected := lit "Pay $5 for ``katex``";
       KaTeXHandler.katexMapOf := [] |}.
Proof. apply katex_guard_misses_no_block. reflexivity. Defined.

Lemma mermaid_guard_witness :
  MermaidHandler.protect (lit "$\nabla f$") =
    {| MermaidHandler.protected := lit "$" ++ [c_nl] ++ lit "abla f$";
       MermaidHandler.mermaidMapOf := [] |}.
Proof.
  rewrite (@mermaid_guard_misses_no_block (lit "$\nabla f$") eq_refl).
  reflexivity.
Defined.

Lemma katex_rows_witness :
  In (lit "KATEX_794d0842",
      {| KaTeXHandler.code := lit "E=mc^2"; KaTeXHandler.display := true |})
     (KaTeXHandler.katexMapOf (KaTeXHandler.protect fencedFormula)) /\
  includes (placeholder "katex-placeholder" "data-katex-id"
                        (lit "KATEX_794d0842"))
           (KaTeXHandler.protected (KaTeXHandler.protect fencedFormula))
  = true.
Proof.
  assert (H : In (lit "KATEX_794d0842",
                  {| KaTeXHandler.code := lit "E=mc^2";
                     KaTeXHandler.display := true |})
                 (KaTeXHandler.katexMapOf
                    (KaTeXHandler.protect fencedFormula)))
    by (left; reflexivity).
  split; [exact H|].
  destruct (@katex_rows_are_keyed_by_hash _ _ _ H) as (_ & _ & _ & _ & Hp).
  exact Hp.
Defined.

Lemma mermaid_rows_witness :
  In (lit "MERMAID_" ++ Hash.hashCode fencedDiagramCode, fencedDiagramCode)
     (MermaidHandler.mermaidMapOf (MermaidHandler.protect fencedDiagram)) /\
  includes (placeholder "mermaid-placeholder" "data-mermaid-id"
                        (lit "MERMAID_" ++ Hash.hashCode fencedDiagramCode))
           (MermaidHandler.protected (MermaidHandler.protect fencedDiagram))
  = true.
Proof.
  assert (H : In (lit "MERMAID_" ++ Hash.hashCode fencedDiagramCode,
                  fencedDiagramCode)
                 (MermaidHandler.mermaidMapOf
                    (MermaidHandler.protect fencedDiagram)))
    by (left; vm_compute; reflexivity).
  split; [exact H|].
  destruct (@mermaid_rows_are_keyed_by_hash _ _ _ H) as (_ & _ & Hp).
  exact Hp.
Defined.

End Blocks.
